(** * Hierarchical memory accounting: be/src/runtime/mem_tracker.h

    A shallow embedding of [starrocks::MemTracker] and a sequential
    verification of its charge, release, reserve, local-transfer and query
    paths.

    Trackers are heap objects that point at each other ([_parent],
    [_all_trackers], [_limit_trackers] hold [MemTracker*]), and a charge at a
    leaf updates the counter of every ancestor through those pointers.  The
    model therefore keeps one shared store, a finite map from addresses to
    tracker objects, and every operation is a function on that store.

    All byte quantities are [int64_t]; they are represented by [Z] with the
    two's-complement wrap-around written out ([wrap64]).

    [DCHECK]s compile to nothing in release builds.  The model follows the
    release build and, for [consume_local], records which checks a debug
    build would have tripped.

    Every operation that dereferences a tracker returns an [option]: [None]
    stands for the dereference of an address that holds no tracker.  The two
    places where the source may fail to return, the mutual recursion of
    [consume] and [release] and the [while (true)] of [try_consume], take a
    [fuel] argument, and [None] also stands for exhausted fuel; the
    verification shows how much fuel is enough.

    The model is sequential: one call at a time, so that the atomics are
    plain reads and writes and the locks play no role.  The one exception is
    the section on the reserve path among other threads, where the calls of
    other threads are let in at the point that the source names.  Labels and
    child lists have no part in the accounting; they are kept beside the
    store, in the section on the reporting side of a tracker.  Types and
    profiles are left out. *)

From stdpp Require Import base option list gmap strings.
From Stdlib Require Import ZArith Lia.

Local Open Scope Z_scope.

(** ** 64-bit signed arithmetic *)

Definition INT64_MAX : Z := 9223372036854775807.
Definition INT64_MIN : Z := -9223372036854775808.

Definition int64 (z : Z) : Prop := INT64_MIN <= z <= INT64_MAX.

(** Reduction of an integer to the [int64_t] that has the same low 64 bits. *)
Definition wrap64 (z : Z) : Z := (z + 2 ^ 63) mod 2 ^ 64 - 2 ^ 63.

Definition add64 (a b : Z) : Z := wrap64 (a + b).
Definition sub64 (a b : Z) : Z := wrap64 (a - b).
Definition neg64 (a : Z) : Z := wrap64 (- a).

(** ** The counter primitive

    [RuntimeProfile::HighWaterMarkCounter] is declared in
    util/runtime_profile.h, which is not part of the sources at hand. *)

Record HighWaterMarkCounter := mkCounter {
  current_value : Z;   (* the atomic accumulator *)
  value : Z            (* the high-water mark *)
}.

(** Modelled from the spec: HighWaterMarkCounter::add (util/runtime_profile.h
    is missing).  "fetch-add delta, then publish max(peak, new_value) to the
    peak.  Negative deltas update current but never decrease peak." *)
Definition add (delta : Z) (c : HighWaterMarkCounter) : HighWaterMarkCounter :=
  let new_value := add64 (current_value c) delta in
  {| current_value := new_value; value := Z.max (value c) new_value |}.

(** Modelled from the spec: HighWaterMarkCounter::try_add
    (util/runtime_profile.h is missing).  "read current, compute candidate =
    current + delta; if candidate > limit, return false without publishing;
    else [publish].  On success, update peak as above."  Without concurrent
    writers the compare-and-swap succeeds at its first attempt.  [None] is the
    [false] return. *)
Definition try_add (delta limit : Z) (c : HighWaterMarkCounter)
  : option HighWaterMarkCounter :=
  let candidate := add64 (current_value c) delta in
  if limit <? candidate then None
  else Some {| current_value := candidate; value := Z.max (value c) candidate |}.

(** Modelled from the spec: HighWaterMarkCounter::set (util/runtime_profile.h
    is missing).  "unconditional store (used only for externally-metric-driven
    root)". *)
Definition set (v : Z) (c : HighWaterMarkCounter) : HighWaterMarkCounter :=
  {| current_value := v; value := value c |}.

(** ** Tracker objects and the store *)

Definition addr := positive.

(** [GcFunction] is [std::function<void(int64_t bytes_to_free)>].  The class
    comment restricts what such a function may do to the trackers: it must
    "not call back into MemTrackers, except to release memory".  Its effect
    on the store is therefore the sequence of [release] calls it makes, which
    may depend on [bytes_to_free]. *)
Definition GcFunction := Z -> list (addr * Z).

(** The fields of the class that take part in the accounting.  [_consumption]
    points at a counter that the tracker owns or borrows from a profile; no
    two trackers share one, so the counter is kept inside the object. *)
Record MemTracker := mkTracker {
  _limit : Z;                              (* in bytes; < 0 means no limit *)
  _parent : option addr;
  _consumption : HighWaterMarkCounter;
  _consumption_metric : option Z;          (* what the gauge reads now, if any *)
  _all_trackers : list addr;               (* this tracker plus all of its ancestors *)
  _limit_trackers : list addr;             (* _all_trackers with valid limits *)
  _gc_functions : list GcFunction
}.

Abbreviation store := (gmap addr MemTracker).

Definition with_consumption (c : HighWaterMarkCounter) (t : MemTracker) : MemTracker :=
  {| _limit := _limit t; _parent := _parent t; _consumption := c;
     _consumption_metric := _consumption_metric t;
     _all_trackers := _all_trackers t; _limit_trackers := _limit_trackers t;
     _gc_functions := _gc_functions t |}.

Definition with_limit (l : Z) (t : MemTracker) : MemTracker :=
  {| _limit := l; _parent := _parent t; _consumption := _consumption t;
     _consumption_metric := _consumption_metric t;
     _all_trackers := _all_trackers t; _limit_trackers := _limit_trackers t;
     _gc_functions := _gc_functions t |}.

(** Simple accessors of the class. *)
Definition limit (t : MemTracker) : Z := _limit t.
Definition has_limit (t : MemTracker) : bool := 0 <=? _limit t.
Definition consumption (t : MemTracker) : Z := current_value (_consumption t).
Definition peak_consumption (t : MemTracker) : Z := value (_consumption t).
Definition limit_exceeded (t : MemTracker) : bool :=
  (0 <=? _limit t) && (_limit t <? consumption t).

(** Consumption of the tracker at an address; [None] for a dangling pointer. *)
Definition consumption_at (σ : store) (a : addr) : option Z :=
  consumption <$> σ !! a.

(** [tracker->_consumption->f(...)] through a pointer.  Dereferencing an
    address that holds no tracker is a fault ([None]). *)
Definition update_consumption (f : HighWaterMarkCounter -> HighWaterMarkCounter)
    (a : addr) (σ : store) : option store :=
  t ← σ !! a; Some (<[a := with_consumption (f (_consumption t)) t]> σ).

(** [set_limit]: writes [_limit] and nothing else. *)
Definition set_limit (self : addr) (l : Z) (σ : store) : option store :=
  t ← σ !! self; Some (<[self := with_limit l t]> σ).

(** [RefreshConsumptionFromMetric].  The gauge is a [UIntGauge]; its reading is
    converted to the [int64_t] parameter of [set].  The two [DCHECK]s are
    no-ops in a release build; without a metric the release build would
    dereference a null pointer, which is a fault. *)
Definition RefreshConsumptionFromMetric (self : addr) (σ : store) : option store :=
  t ← σ !! self;
  m ← _consumption_metric t;
  update_consumption (set (wrap64 m)) self σ.

(** The loop shared by [consume] and [release]:
    [for (tracker : _all_trackers) tracker->_consumption->add(delta)]. *)
Fixpoint add_all (delta : Z) (trackers : list addr) (σ : store) : option store :=
  match trackers with
  | [] => Some σ
  | a :: rest => σ' ← update_consumption (add delta) a σ; add_all delta rest σ'
  end.

(** [consume] and [release] call each other on a negative argument.  The
    negation is an [int64_t] negation, so the pair does not return on
    [INT64_MIN]; [fuel] bounds the depth of the mutual recursion and [None]
    stands for a fault or for exhausted fuel. *)
Fixpoint consume (fuel : nat) (self : addr) (bytes : Z) (σ : store) : option store :=
  match fuel with
  | O => None
  | S fuel' =>
      if bytes <=? 0 then
        if bytes <? 0 then release fuel' self (neg64 bytes) σ else Some σ
      else
        t ← σ !! self;
        match _consumption_metric t with
        | Some _ => RefreshConsumptionFromMetric self σ
        | None => add_all bytes (_all_trackers t) σ
        end
  end
with release (fuel : nat) (self : addr) (bytes : Z) (σ : store) : option store :=
  match fuel with
  | O => None
  | S fuel' =>
      if bytes <=? 0 then
        if bytes <? 0 then consume fuel' self (neg64 bytes) σ else Some σ
      else
        t ← σ !! self;
        match _consumption_metric t with
        | Some _ => RefreshConsumptionFromMetric self σ
        | None => add_all (neg64 bytes) (_all_trackers t) σ
        end
  end.

(** ** Local transfer *)

(** The [DCHECK]s of [consume_local], in source order. *)
Inductive dcheck :=
  | ShouldNotBeCalledOnRoot          (* DCHECK(_consumption_metric == NULL) *)
  | TrackerHasLimit (a : addr)       (* DCHECK(!_all_trackers[i]->has_limit()) *)
  | EndTrackerIsNotAnAncestor.       (* DCHECK(false) after the loop *)

Global Instance dcheck_eq_dec : EqDecision dcheck.
Proof. solve_decision. Defined.

(** The body of the [for] loop of [consume_local], from index [i] on.  The
    second component lists the checks a debug build would have tripped; the
    last line of the function is reached exactly when the list ends with
    [EndTrackerIsNotAnAncestor]. *)
Fixpoint consume_local_loop (bytes : Z) (end_tracker : option addr)
    (trackers : list addr) (σ : store) : option (store * list dcheck) :=
  match trackers with
  | [] => Some (σ, [EndTrackerIsNotAnAncestor])
  | a :: rest =>
      if decide (Some a = end_tracker) then Some (σ, [])
      else
        t ← σ !! a;
        σ' ← update_consumption (add bytes) a σ;
        '(σ'', log) ← consume_local_loop bytes end_tracker rest σ';
        Some (σ'', (if has_limit t then [TrackerHasLimit a] else []) ++ log)
  end.

Definition consume_local (self : addr) (bytes : Z) (end_tracker : option addr)
    (σ : store) : option (store * list dcheck) :=
  t ← σ !! self;
  '(σ', log) ← consume_local_loop bytes end_tracker (_all_trackers t) σ;
  Some (σ', (match _consumption_metric t with Some _ => [ShouldNotBeCalledOnRoot] | None => [] end) ++ log).

Definition release_local (self : addr) (bytes : Z) (end_tracker : option addr)
    (σ : store) : option (store * list dcheck) :=
  consume_local self (neg64 bytes) end_tracker σ.

(** ** Reclamation *)

(** What an observer of the reclamation protocol sees: a callback being
    invoked (by which tracker, from which position of [_gc_functions], under
    which [max_consumption], after reading which consumption, with which
    argument), and [GcMemory] returning. *)
Inductive gc_event :=
  | GcCall (tracker : addr) (index : nat)
           (max_consumption current bytes_to_free : Z)
  | GcReturn (tracker : addr) (max_consumption : Z) (still_over : bool).

(** What one callback does to the store: its [release] calls, in order. *)
Fixpoint release_each (fuel : nat) (releases : list (addr * Z)) (σ : store)
  : option store :=
  match releases with
  | [] => Some σ
  | (a, n) :: rest => σ' ← release fuel a n σ; release_each fuel rest σ'
  end.

(** Modelled from the spec: the callback loop of MemTracker::GcMemory
    (mem_tracker.cpp is missing).  "invoke each registered callback in
    registration order with bytes_to_free = current - max_consumption,
    updating bytes_to_free downward as consumption drops". *)
Fixpoint run_gc_functions (fuel : nat) (self : addr) (max_consumption : Z)
    (index : nat) (fs : list GcFunction) (σ : store)
  : option (store * list gc_event) :=
  match fs with
  | [] => Some (σ, [])
  | f :: rest =>
      t ← σ !! self;
      let current := consumption t in
      let bytes_to_free := sub64 current max_consumption in
      σ' ← release_each fuel (f bytes_to_free) σ;
      '(σ'', calls) ← run_gc_functions fuel self max_consumption (S index) rest σ';
      Some (σ'', GcCall self index max_consumption current bytes_to_free :: calls)
  end.

(** Modelled from the spec: MemTracker::GcMemory (declared in the header,
    defined in mem_tracker.cpp, which is missing).  "Re-reads current
    consumption; if current <= max_consumption, returns false.  Otherwise,
    invoke each registered callback [...].  After all callbacks, returns
    current > max_consumption."  The two diagnostic metrics live outside the
    trackers and are not modelled. *)
Definition GcMemory (fuel : nat) (self : addr) (max_consumption : Z) (σ : store)
  : option (store * bool * list gc_event) :=
  t ← σ !! self;
  if consumption t <=? max_consumption then
    Some (σ, false, [GcReturn self max_consumption false])
  else
    '(σ', calls) ← run_gc_functions fuel self max_consumption 0 (_gc_functions t) σ;
    t' ← σ' !! self;
    let still_over := max_consumption <? consumption t' in
    Some (σ', still_over, calls ++ [GcReturn self max_consumption still_over]).

(** ** The reserve path *)

(** The rollback loop of [try_consume]:
    [for (j = n - 1; j > i; --j) _all_trackers[j]->_consumption->add(-bytes)],
    entered with [n = _all_trackers.size()]. *)
Fixpoint rollback (trackers : list addr) (bytes : Z) (i n : nat) (σ : store)
  : option store :=
  match n with
  | O => Some σ
  | S j =>
      if (i <? j)%nat then
        a ← trackers !! j;
        σ' ← update_consumption (add (neg64 bytes)) a σ;
        rollback trackers bytes i j σ'
      else Some σ
  end.

(** The [while (true)] loop at a tracker with a limit.  The boolean tells
    whether the loop was left by [break] ([true]) or by the rollback branch
    ([false]); in the latter case the rollback itself is done by the caller,
    which knows [i]. *)
Fixpoint try_add_loop (fuel : nat) (a : addr) (bytes limit : Z) (σ : store)
  : option (store * bool * list gc_event) :=
  match fuel with
  | O => None
  | S fuel' =>
      t ← σ !! a;
      match try_add bytes limit (_consumption t) with
      | Some c => Some (<[a := with_consumption c t]> σ, true, [])
      | None =>
          '(σ', still_over, calls) ← GcMemory fuel' a (sub64 limit bytes) σ;
          if still_over : bool then Some (σ', false, calls)
          else
            '(σ'', ok, calls') ← try_add_loop fuel' a bytes limit σ';
            Some (σ'', ok, calls ++ calls')
      end
  end.

(** The outer loop [for (i = size - 1; i >= 0; --i)], entered at [i = n - 1]. *)
Fixpoint try_consume_loop (fuel : nat) (trackers : list addr) (bytes : Z)
    (n : nat) (σ : store) : option (store * bool * list gc_event) :=
  match n with
  | O => Some (σ, true, [])
  | S i =>
      a ← trackers !! i;
      t ← σ !! a;
      if limit t <? 0 then
        σ' ← update_consumption (add bytes) a σ;
        try_consume_loop fuel trackers bytes i σ'
      else
        '(σ', ok, calls) ← try_add_loop fuel a bytes (limit t) σ;
        if ok : bool then
          '(σ'', r, calls') ← try_consume_loop fuel trackers bytes i σ';
          Some (σ'', r, calls ++ calls')
        else
          σ'' ← rollback trackers bytes i (length trackers) σ';
          Some (σ'', false, calls)
  end.

(** [try_consume].  Besides the store and the returned boolean the model
    reports the reclamation events of the call, in the order they happened. *)
Definition try_consume (fuel : nat) (self : addr) (bytes : Z) (σ : store)
  : option (store * bool * list gc_event) :=
  if bytes <=? 0 then Some (σ, true, [])
  else
    t ← σ !! self;
    σ1 ← match _consumption_metric t with
         | Some _ => RefreshConsumptionFromMetric self σ
         | None => Some σ
         end;
    try_consume_loop fuel (_all_trackers t) bytes (length (_all_trackers t)) σ1.

(** ** Queries over the limited chain *)

Fixpoint any_exceeded (trackers : list addr) (σ : store) : option bool :=
  match trackers with
  | [] => Some false
  | a :: rest => t ← σ !! a; if limit_exceeded t then Some true else any_exceeded rest σ
  end.

Definition any_limit_exceeded (self : addr) (σ : store) : option bool :=
  t ← σ !! self; any_exceeded (_limit_trackers t) σ.

Fixpoint find_exceeded (trackers : list addr) (σ : store) : option (option addr) :=
  match trackers with
  | [] => Some None
  | a :: rest => t ← σ !! a; if limit_exceeded t then Some (Some a) else find_exceeded rest σ
  end.

Definition find_limit_exceeded_tracker (self : addr) (σ : store) : option (option addr) :=
  t ← σ !! self; find_exceeded (_limit_trackers t) σ.

(** The loop of [spare_capacity], with the running [result]. *)
Fixpoint spare_capacity_loop (trackers : list addr) (result : Z) (σ : store) : option Z :=
  match trackers with
  | [] => Some result
  | a :: rest =>
      t ← σ !! a;
      let mem_left := sub64 (limit t) (consumption t) in
      spare_capacity_loop rest (Z.min result mem_left) σ
  end.

Definition spare_capacity (self : addr) (σ : store) : option Z :=
  t ← σ !! self; spare_capacity_loop (_limit_trackers t) INT64_MAX σ.

Fixpoint lowest_limit_loop (trackers : list addr) (v : Z) (σ : store) : option Z :=
  match trackers with
  | [] => Some v
  | a :: rest => t ← σ !! a; lowest_limit_loop rest (Z.min v (limit t)) σ
  end.

Definition lowest_limit (self : addr) (σ : store) : option Z :=
  t ← σ !! self;
  match _limit_trackers t with
  | [] => Some (-1)
  | _ => lowest_limit_loop (_limit_trackers t) INT64_MAX σ
  end.

(** ** Construction *)

(** Modelled from the spec: the walk of MemTracker::Init (mem_tracker.cpp is
    missing).  "Walks up the parent chain and populates ancestor_chain (self
    first) and limited_ancestor_chain."  This is the walk from the parent
    upwards; [fuel] bounds it in a store whose parent links are cyclic. *)
Fixpoint ancestors (fuel : nat) (σ : store) (p : option addr) : list addr :=
  match fuel, p with
  | S fuel', Some a =>
      match σ !! a with
      | Some t => a :: ancestors fuel' σ (_parent t)
      | None => []
      end
  | _, _ => []
  end.

Definition has_limit_at (σ : store) (a : addr) : bool :=
  match σ !! a with Some t => has_limit t | None => false end.

(** Modelled from the spec: the constructor MemTracker(byte_limit, label,
    parent, ...) followed by Init (mem_tracker.cpp is missing): a fresh
    object at [self] with a zero counter, whose chains are computed once,
    here.  The three constructors of the header differ in the type tag and
    in where the counter lives; none of them takes a gauge or a callback, so
    that [_consumption_metric] keeps its initializer [nullptr] and
    [_gc_functions] starts empty. *)
Definition new_tracker (self : addr) (byte_limit : Z) (parent : option addr)
    (σ : store) : store :=
  let all := self :: ancestors (size σ) σ parent in
  let valid a := if decide (a = self) then 0 <=? byte_limit else has_limit_at σ a in
  <[self := {| _limit := byte_limit; _parent := parent;
               _consumption := mkCounter 0 0; _consumption_metric := None;
               _all_trackers := all;
               _limit_trackers := filter (λ a, valid a = true) all;
               _gc_functions := [] |}]> σ.

(** * Specification vocabulary *)

(** Every [int64_t] field of a tracker holds a 64-bit value. *)
Definition typed (t : MemTracker) : Prop :=
  int64 (_limit t) /\ int64 (consumption t).

Definition well_typed (σ : store) : Prop := map_Forall (λ _ t, typed t) σ.

(** [t] is [t0] with [δ] more bytes on its counter (the peak is free). *)
Definition shifted (δ : Z) (t0 t : MemTracker) : Prop :=
  ∃ peak, t = with_consumption (mkCounter (wrap64 (consumption t0 + δ)) peak) t0.

(** [σ] is [σ0] with [d a] more bytes on the counter of each tracker [a]. *)
Definition store_shifted (d : addr -> Z) (σ0 σ : store) : Prop :=
  ∀ a, option_Forall2 (shifted (d a)) (σ0 !! a) (σ !! a).

(** How often an address occurs in a chain. *)
Fixpoint occurrences (x : addr) (l : list addr) : Z :=
  match l with
  | [] => 0
  | a :: rest => (if decide (x = a) then 1 else 0) + occurrences x rest
  end.

(** A tracker whose ancestor chain is what [Init] leaves: without
    repetition, and made of live trackers. *)
Record tracked (σ : store) (self : addr) (t : MemTracker) : Prop := mkTracked {
  tracked_self : σ !! self = Some t;
  tracked_nodup : NoDup (_all_trackers t);
  tracked_alive : Forall (λ a, is_Some (σ !! a)) (_all_trackers t)
}.

(** Callers of a tracker: a sequence of charges and releases at one node. *)
Inductive op :=
  | Consume (bytes : Z)
  | Release (bytes : Z).

Definition amount (o : op) : Z :=
  match o with Consume b | Release b => b end.

Definition run_op (fuel : nat) (self : addr) (o : op) (σ : store) : option store :=
  match o with
  | Consume b => consume fuel self b σ
  | Release b => release fuel self b σ
  end.

Fixpoint run_ops (fuel : nat) (self : addr) (ops : list op) (σ : store)
  : option store :=
  match ops with
  | [] => Some σ
  | o :: rest => σ' ← run_op fuel self o σ; run_ops fuel self rest σ'
  end.

(** Bytes charged minus bytes released. *)
Fixpoint net (ops : list op) : Z :=
  match ops with
  | [] => 0
  | Consume b :: rest => b + net rest
  | Release b :: rest => - b + net rest
  end.

(** Sequences made of [consume(b)]/[release(b)] pairs, each release after its
    charge, the pairs interleaved at will. *)
Inductive balanced : list op -> Prop :=
  | balanced_nil : balanced []
  | balanced_pair b l1 l2 l3 :
      balanced (l1 ++ l2 ++ l3) ->
      balanced (l1 ++ Consume b :: l2 ++ Release b :: l3).

(** An amount that has a negation in [int64_t]. *)
Definition negatable (b : Z) : Prop := INT64_MIN < b <= INT64_MAX.

(** * Scenarios *)

Definition root : addr := 1%positive.
Definition child : addr := 2%positive.
Definition mid : addr := 2%positive.
Definition leaf : addr := 3%positive.

(** root(no limit) <- child(no limit) *)
Definition simple_tree : store :=
  new_tracker child (-1) (Some root) (new_tracker root (-1) None ∅).

(** root(limit=1000) <- child(no limit) *)
Definition limited_tree : store :=
  new_tracker child (-1) (Some root) (new_tracker root 1000 None ∅).

(** root(limit=1000) <- mid(limit=300) <- leaf(no limit) *)
Definition three_level_tree : store :=
  new_tracker leaf (-1) (Some mid)
    (new_tracker mid 300 (Some root) (new_tracker root 1000 None ∅)).

(** Modelled from the spec: a root with an external metric ("optional
    reference to an externally updated gauge; when present, the node's
    consumption is derived from this gauge, and the node must have no
    parent").  The header declares the gauge pointer and reads it in
    [consume], [release] and [try_consume], but what sets it is not part of
    the sources at hand: no constructor of the header does.  Here the gauge
    shows 500 bytes and the limit is 1000. *)
Definition metered_root : store :=
  {[ root := {| _limit := 1000; _parent := None;
                _consumption := mkCounter 0 0;
                _consumption_metric := Some 500;
                _all_trackers := [root]; _limit_trackers := [root];
                _gc_functions := [] |} ]}.

(** The entries of a chain strictly before the position of [end_tracker]; the
    whole chain when [end_tracker] does not occur in it. *)
Fixpoint before (end_tracker : option addr) (l : list addr) : list addr :=
  match l with
  | [] => []
  | a :: rest =>
      if decide (Some a = end_tracker) then [] else a :: before end_tracker rest
  end.

(** A callback that releases nothing through the trackers. *)
Definition quiet (f : GcFunction) : Prop := ∀ bytes_to_free, f bytes_to_free = [].

(** No callback registered on a tracker of the chain releases anything. *)
Definition gc_quiet (σ : store) (chain : list addr) : Prop :=
  ∀ a u, a ∈ chain -> σ !! a = Some u -> Forall quiet (_gc_functions u).

(** [bytes] more would not cross the limit of any tracker of the chain. *)
Definition fits (σ : store) (chain : list addr) (bytes : Z) : Prop :=
  ∀ a u, a ∈ chain -> σ !! a = Some u ->
         0 <= limit u -> add64 (consumption u) bytes <= limit u.




(** The invariant that the comment on [_limit_trackers] states: the limited
    chain of the tracker at [self] is its ancestor chain restricted to the
    trackers whose limit is valid now. *)
Definition limit_chain_invariant (σ : store) (self : addr) : Prop :=
  ∀ t, σ !! self = Some t ->
       _limit_trackers t = filter (λ a, has_limit_at σ a = true) (_all_trackers t).

(** [u] is [u0] with another counter. *)
Definition recounted (u0 u : MemTracker) : Prop := ∃ c, u = with_consumption c u0.

(** Two stores with the same trackers, up to their counters. *)
Definition same_shape (σ0 σ : store) : Prop :=
  ∀ a, option_Forall2 recounted (σ0 !! a) (σ !! a).

(** Every ancestor chain of the store is made of live trackers. *)
Definition closed (σ : store) : Prop :=
  map_Forall (λ _ u, Forall (λ x, is_Some (σ !! x)) (_all_trackers u)) σ.

(** Every registered callback releases amounts that have a negation, at live
    trackers. *)
Definition gc_sound (σ : store) : Prop :=
  ∀ a u f n x b, σ !! a = Some u -> f ∈ _gc_functions u -> (x, b) ∈ f n ->
                 negatable b /\ is_Some (σ !! x).

(** The callbacks of tracker [a] called one after the other from position
    [index] on, each with [bytes_to_free = current - max_consumption], where
    [currents] lists the consumption read before each call. *)
Fixpoint calls_of (a : addr) (max_consumption : Z) (index : nat)
    (currents : list Z) : list gc_event :=
  match currents with
  | [] => []
  | current :: rest =>
      GcCall a index max_consumption current (sub64 current max_consumption)
      :: calls_of a max_consumption (S index) rest
  end.

(** One round of callbacks on behalf of tracker [a]: the callbacks [fs] run
    one after the other, each on the store that the one before it has left,
    with [bytes_to_free = current - max_consumption] for the consumption
    [current] of [a] in that store.  [currents] lists what was read before
    each call and [σ'] is the store after the last. *)
Inductive gc_round (fuel : nat) (a : addr) (max_consumption : Z)
  : list GcFunction -> store -> list Z -> store -> Prop :=
  | gc_round_done σ : gc_round fuel a max_consumption [] σ [] σ
  | gc_round_call f fs σ u σ1 currents σ' :
      σ !! a = Some u ->
      release_each fuel (f (sub64 (consumption u) max_consumption)) σ = Some σ1 ->
      gc_round fuel a max_consumption fs σ1 currents σ' ->
      gc_round fuel a max_consumption (f :: fs) σ (consumption u :: currents) σ'.

(** The reclamation protocol of one sequential [try_consume(bytes)], from
    the store in which the walk reaches the trackers [a :: rest] that it has
    still to visit (root first).  Either [a] is charged without reclamation
    (it has no limit, or the first [try_add] succeeds); or the first [try_add]
    fails, [GcMemory(limit - bytes)] runs one round of the callbacks of [a]
    and leaves the consumption low enough, and the second [try_add] succeeds;
    or the round leaves the consumption still over, which ends the call with
    [false]. *)
Inductive reserve_trace (fuel : nat) (bytes : Z)
  : store -> list addr -> list gc_event -> bool -> Prop :=
  | reserve_done σ : reserve_trace fuel bytes σ [] [] true
  | reserve_charged σ a u c rest events ok :
      σ !! a = Some u ->
      (if limit u <? 0 then c = add bytes (_consumption u)
       else try_add bytes (limit u) (_consumption u) = Some c) ->
      reserve_trace fuel bytes (<[a := with_consumption c u]> σ) rest events ok ->
      reserve_trace fuel bytes σ (a :: rest) events ok
  | reserve_reclaimed σ a u currents σ1 u1 c rest events ok :
      σ !! a = Some u -> 0 <= limit u ->
      try_add bytes (limit u) (_consumption u) = None ->
      gc_round fuel a (limit u - bytes) (_gc_functions u) σ currents σ1 ->
      σ1 !! a = Some u1 -> consumption u1 <= limit u - bytes ->
      try_add bytes (limit u) (_consumption u1) = Some c ->
      reserve_trace fuel bytes (<[a := with_consumption c u1]> σ1) rest events ok ->
      reserve_trace fuel bytes σ (a :: rest)
        (calls_of a (limit u - bytes) 0 currents
           ++ GcReturn a (limit u - bytes) false :: events) ok
  | reserve_denied σ a u currents σ1 u1 rest :
      σ !! a = Some u -> 0 <= limit u ->
      try_add bytes (limit u) (_consumption u) = None ->
      gc_round fuel a (limit u - bytes) (_gc_functions u) σ currents σ1 ->
      σ1 !! a = Some u1 -> limit u - bytes < consumption u1 ->
      reserve_trace fuel bytes σ (a :: rest)
        (calls_of a (limit u - bytes) 0 currents
           ++ [GcReturn a (limit u - bytes) true]) false.



(** * The reserve path among other threads

    The counters are atomics and [try_consume] takes no lock: the calls of
    other threads take effect between two steps of this one.  The comment in
    the [while (true)] loop names the case that matters, "we may need to try
    several times if there are concurrent consumers because we don't take a
    lock before trying to update _consumption".  The definitions below are
    those of the reserve path with that one interleaving point added: after
    [GcMemory] has returned false at a tracker and before the [try_add] that
    follows, the other threads run the calls [others a round], where [round]
    counts the rounds of reclamation at tracker [a] in this call.  Without
    such calls they are the sequential definitions. *)

Fixpoint run_calls (fuel : nat) (calls : list (addr * op)) (σ : store)
  : option store :=
  match calls with
  | [] => Some σ
  | (a, o) :: rest => σ' ← run_op fuel a o σ; run_calls fuel rest σ'
  end.

Fixpoint try_add_loop_among (others : nat -> list (addr * op)) (fuel : nat)
    (a : addr) (bytes limit : Z) (round : nat) (σ : store)
  : option (store * bool * list gc_event) :=
  match fuel with
  | O => None
  | S fuel' =>
      t ← σ !! a;
      match try_add bytes limit (_consumption t) with
      | Some c => Some (<[a := with_consumption c t]> σ, true, [])
      | None =>
          '(σ1, still_over, calls) ← GcMemory fuel' a (sub64 limit bytes) σ;
          if still_over : bool then Some (σ1, false, calls)
          else
            σ2 ← run_calls fuel' (others round) σ1;
            '(σ3, ok, calls') ←
              try_add_loop_among others fuel' a bytes limit (S round) σ2;
            Some (σ3, ok, calls ++ calls')
      end
  end.

Fixpoint try_consume_loop_among (others : addr -> nat -> list (addr * op))
    (fuel : nat) (trackers : list addr) (bytes : Z) (n : nat) (σ : store)
  : option (store * bool * list gc_event) :=
  match n with
  | O => Some (σ, true, [])
  | S i =>
      a ← trackers !! i;
      t ← σ !! a;
      if limit t <? 0 then
        σ1 ← update_consumption (add bytes) a σ;
        try_consume_loop_among others fuel trackers bytes i σ1
      else
        '(σ1, ok, calls) ←
          try_add_loop_among (others a) fuel a bytes (limit t) 0 σ;
        if ok : bool then
          '(σ2, r, calls') ←
            try_consume_loop_among others fuel trackers bytes i σ1;
          Some (σ2, r, calls ++ calls')
        else
          σ2 ← rollback trackers bytes i (length trackers) σ1;
          Some (σ2, false, calls)
  end.

Definition try_consume_among (others : addr -> nat -> list (addr * op))
    (fuel : nat) (self : addr) (bytes : Z) (σ : store)
  : option (store * bool * list gc_event) :=
  if bytes <=? 0 then Some (σ, true, [])
  else
    t ← σ !! self;
    σ1 ← match _consumption_metric t with
         | Some _ => RefreshConsumptionFromMetric self σ
         | None => Some σ
         end;
    try_consume_loop_among others fuel (_all_trackers t) bytes
      (length (_all_trackers t)) σ1.

(** No other thread. *)
Definition alone : addr -> nat -> list (addr * op) := λ _ _, [].


(** * The states of the interface *)

(** The stores that a program can build: it constructs trackers, each one
    at a fresh address and under a tracker that exists, and it calls the
    public member functions that write to the accounting state, with any
    [int64_t] arguments and in any order.  The model is that of a release
    build, where a call whose [DCHECK] fails is a call like any other.
    Destruction is not modelled: trackers stay. *)
Inductive reachable : store -> Prop :=
  | reachable_empty : reachable ∅
  | reachable_new σ self byte_limit parent :
      reachable σ -> σ !! self = None -> int64 byte_limit ->
      (∀ p, parent = Some p -> is_Some (σ !! p)) ->
      reachable (new_tracker self byte_limit parent σ)
  | reachable_consume σ fuel self bytes σ' :
      reachable σ -> int64 bytes ->
      consume fuel self bytes σ = Some σ' -> reachable σ'
  | reachable_release σ fuel self bytes σ' :
      reachable σ -> int64 bytes ->
      release fuel self bytes σ = Some σ' -> reachable σ'
  | reachable_consume_local σ self bytes end_tracker σ' log :
      reachable σ -> int64 bytes ->
      consume_local self bytes end_tracker σ = Some (σ', log) -> reachable σ'
  | reachable_release_local σ self bytes end_tracker σ' log :
      reachable σ -> int64 bytes ->
      release_local self bytes end_tracker σ = Some (σ', log) -> reachable σ'
  | reachable_try_consume σ fuel self bytes σ' ok events :
      reachable σ -> int64 bytes ->
      try_consume fuel self bytes σ = Some (σ', ok, events) -> reachable σ'
  | reachable_set_limit σ self l σ' :
      reachable σ -> int64 l ->
      set_limit self l σ = Some σ' -> reachable σ'
  | reachable_refresh σ self σ' :
      reachable σ ->
      RefreshConsumptionFromMetric self σ = Some σ' -> reachable σ'.

(** The ancestor chain of the parent of a tracker. *)
Definition parent_chain (σ : store) (p : option addr) : list addr :=
  match p with
  | Some q => match σ !! q with Some tq => _all_trackers tq | None => [] end
  | None => []
  end.

(** What the interface maintains for the tracker [t] at address [a]. *)
Record sound_tracker (σ : store) (a : addr) (t : MemTracker) : Prop := mkSound {
  sound_typed : typed t;
  sound_parent : ∀ p, _parent t = Some p -> is_Some (σ !! p);
  sound_chain : _all_trackers t = a :: parent_chain σ (_parent t);
  sound_nodup : NoDup (_all_trackers t);
  sound_alive : Forall (λ x, is_Some (σ !! x)) (_all_trackers t);
  sound_limited : _limit_trackers t ⊆ _all_trackers t;
  sound_no_metric : _consumption_metric t = None;
  sound_no_gc : _gc_functions t = []
}.

Definition sound (σ : store) : Prop :=
  ∀ a t, σ !! a = Some t -> sound_tracker σ a t.

(** Two stores with the same trackers, up to their counters and limits. *)
Definition same_links (σ0 σ : store) : Prop :=
  ∀ a, option_Forall2
         (λ u0 u, _parent u = _parent u0 /\
                  _consumption_metric u = _consumption_metric u0 /\
                  _all_trackers u = _all_trackers u0 /\
                  _limit_trackers u = _limit_trackers u0 /\
                  _gc_functions u = _gc_functions u0)
         (σ0 !! a) (σ !! a).

(** * Deciding side conditions on concrete stores *)

Global Instance int64_dec z : Decision (int64 z).
Proof. unfold int64. apply _. Defined.

Global Instance typed_dec t : Decision (typed t).
Proof. unfold typed. apply _. Defined.

Global Instance well_typed_dec σ : Decision (well_typed σ).
Proof. unfold well_typed. apply _. Defined.

Global Instance negatable_dec b : Decision (negatable b).
Proof. unfold negatable. apply _. Defined.

Ltac by_evaluation :=
  lazymatch goal with
  | |- ?P => apply (bool_decide_eq_true_1 P); vm_compute; reflexivity
  end.

Ltac tracked_by_evaluation :=
  split; [reflexivity | by_evaluation | by_evaluation].

Global Instance closed_dec σ : Decision (closed σ).
Proof. unfold closed. apply _. Defined.

(** * More scenarios *)

Definition sibling : addr := 3%positive.

(** root(no limit) <- child(no limit), root <- sibling(no limit) *)
Definition sibling_tree : store :=
  new_tracker sibling (-1) (Some root) simple_tree.

(** root(limit=1000) <- mid(limit=300) <- leaf(no limit), after
    [leaf.consume(500)]: the middle tracker is over its limit. *)
Definition overdrawn_tree : store :=
  default ∅ (consume 1 leaf 500 three_level_tree).

(** * The reporting side of a tracker

    The accounting above leaves out the fields that only serve the usage
    reports: [_label], [_child_trackers] and [_child_tracker_it].  They are
    kept here in tables beside the store, one entry per tracker object. *)

(** Where [_child_tracker_it] points: at the node that holds this tracker in
    the child list of [owner], at the end of that list, or nowhere yet (a
    default-constructed iterator). *)
Inductive child_iterator :=
  | it_singular
  | it_node (owner : addr)
  | it_end (owner : addr).

Record tracker_tree := mkTree {
  objects : store;
  _label : addr -> string;
  _child_trackers : addr -> list addr;
  _child_tracker_it : addr -> child_iterator
}.

(** Writing the entry of one tracker in a table. *)
Definition assign {A} (a : addr) (v : A) (table : addr -> A) : addr -> A :=
  λ x, if decide (x = a) then v else table x.

Definition with_children (a : addr) (l : list addr) (T : tracker_tree) : tracker_tree :=
  {| objects := objects T; _label := _label T;
     _child_trackers := assign a l (_child_trackers T);
     _child_tracker_it := _child_tracker_it T |}.

Definition with_iterator (a : addr) (it : child_iterator) (T : tracker_tree)
  : tracker_tree :=
  {| objects := objects T; _label := _label T;
     _child_trackers := _child_trackers T;
     _child_tracker_it := assign a it (_child_tracker_it T) |}.

Definition with_objects (σ : store) (T : tracker_tree) : tracker_tree :=
  {| objects := σ; _label := _label T;
     _child_trackers := _child_trackers T;
     _child_tracker_it := _child_tracker_it T |}.

(** [add_child_tracker]: the child goes to the end of the list and remembers
    its node. *)
Definition add_child_tracker (self tracker : addr) (T : tracker_tree)
  : option tracker_tree :=
  _ ← objects T !! self;
  _ ← objects T !! tracker;
  Some (with_iterator tracker (it_node self)
          (with_children self (_child_trackers T self ++ [tracker]) T)).

(** The list without its last node holding [x]; [None] when no node holds
    it. *)
Fixpoint erase_last (x : addr) (l : list addr) : option (list addr) :=
  match l with
  | [] => None
  | y :: rest =>
      match erase_last x rest with
      | Some rest' => Some (y :: rest')
      | None => if decide (y = x) then Some rest else None
      end
  end.

(** [unregister_from_parent].  Without a parent the release build
    dereferences null; [std::list::erase] is defined only for an iterator
    that points at a node of the list it is applied to.  Both are faults. *)
Definition unregister_from_parent (self : addr) (T : tracker_tree)
  : option tracker_tree :=
  t ← objects T !! self;
  p ← _parent t;
  _ ← objects T !! p;
  match _child_tracker_it T self with
  | it_node owner =>
      if decide (owner = p) then
        l ← erase_last self (_child_trackers T p);
        Some (with_iterator self (it_end p) (with_children p l T))
      else None
  | _ => None
  end.

Record SimpleItem := mkItem {
  label : string;
  parent_label : string;
  level : nat;
  item_limit : Z;
  cur_consumption : Z;
  item_peak_consumption : Z
}.

(** The item that [list_mem_usage] builds for the tracker itself. *)
Definition item_of (T : tracker_tree) (self : addr) (cur_level : nat)
  : option SimpleItem :=
  t ← objects T !! self;
  parent_label ← match _parent t with
                 | Some p => _ ← objects T !! p; Some (_label T p)
                 | None => Some EmptyString
                 end;
  Some {| label := _label T self; parent_label := parent_label;
          level := cur_level; item_limit := _limit t;
          cur_consumption := current_value (_consumption t);
          item_peak_consumption := value (_consumption t) |}.

(** [list_mem_usage(items, cur_level, upper_level)], returning the vector.
    Levels are [size_t]; [cur_level + 1] is computed under [cur_level <
    upper_level] only and cannot wrap.  The recursion is as deep as
    [upper_level - cur_level]; [fuel] bounds it. *)
Fixpoint list_mem_usage (fuel : nat) (T : tracker_tree) (self : addr)
    (items : list SimpleItem) (cur_level upper_level : nat)
  : option (list SimpleItem) :=
  item ← item_of T self cur_level;
  let items := items ++ [item] in
  if (cur_level <? upper_level)%nat then
    match fuel with
    | O => None
    | S fuel' =>
        (fix children (l : list addr) (items : list SimpleItem)
           : option (list SimpleItem) :=
           match l with
           | [] => Some items
           | child :: rest =>
               items' ← list_mem_usage fuel' T child items (S cur_level) upper_level;
               children rest items'
           end) (_child_trackers T self) items
    end
  else Some items.

(** Modelled from the spec: the constructor MemTracker(byte_limit, label,
    parent, ...) with its reporting fields (mem_tracker.cpp is missing).
    "Inserts self into parent's child list under the parent's child-list
    lock, saving the position for unregister." *)
Definition new_node (self : addr) (lbl : string) (byte_limit : Z)
    (parent : option addr) (T : tracker_tree) : option tracker_tree :=
  let T1 := {| objects := new_tracker self byte_limit parent (objects T);
               _label := assign self lbl (_label T);
               _child_trackers := assign self [] (_child_trackers T);
               _child_tracker_it := assign self it_singular (_child_tracker_it T) |} in
  match parent with
  | Some p => add_child_tracker p self T1
  | None => Some T1
  end.

Definition empty_tree : tracker_tree :=
  {| objects := ∅; _label := λ _, EmptyString;
     _child_trackers := λ _, []; _child_tracker_it := λ _, it_singular |}.

(** Every tracker of the tree can be reported: its parent and its children
    are live objects. *)
Definition reportable (T : tracker_tree) : Prop :=
  ∀ a t, objects T !! a = Some t ->
         (∀ p, _parent t = Some p -> is_Some (objects T !! p)) /\
         Forall (λ c, is_Some (objects T !! c)) (_child_trackers T a).

Definition fragment : addr := 4%positive.

(** process(limit=1000) with children query(limit=300) and load(no limit);
    fragment(no limit) under query. *)
Definition report_tree : tracker_tree :=
  default empty_tree
    (T1 ← new_node root "process" 1000 None empty_tree;
     T2 ← new_node mid "query" 300 (Some root) T1;
     T3 ← new_node sibling "load" (-1) (Some root) T2;
     new_node fragment "fragment" (-1) (Some mid) T3).

Ltac reportable_by_evaluation :=
  let a := fresh "a" in let t := fresh "t" in let Ha := fresh "Ha" in
  intros a t Ha; apply elem_of_map_to_list in Ha; vm_compute in Ha;
  repeat (apply elem_of_cons in Ha as [Ha|Ha];
          [injection Ha as -> ->; split;
           [ let p := fresh "p" in let Hp := fresh "Hp" in
             intros p Hp; simpl in Hp;
             first [discriminate Hp | injection Hp as <-; by eexists]
           | vm_compute; repeat constructor; by eexists ] |]);
  by apply elem_of_nil in Ha.

(** * be/src/util/system_metrics.cpp: the readers of the disk and network
    counters

    [SystemMetrics] keeps one [DiskMetrics] per installed disk device and one
    [NetMetrics] per installed network interface, in two [std::map]s keyed by
    name.  The counters are [IntAtomicCounter]s, read here as the [int64_t]
    they hold.  A [std::map<std::string, _>] is a finite map; the loops below
    either compute a maximum or fill a map with the keys they visit, so that
    the order of the visit has no part in the result. *)

Record DiskMetrics := mkDiskMetrics {
  reads_completed : Z;
  bytes_read : Z;
  read_time_ms : Z;
  writes_completed : Z;
  bytes_written : Z;
  write_time_ms : Z;
  io_time_ms : Z;
  io_time_weigthed : Z
}.

Record NetMetrics := mkNetMetrics {
  receive_bytes : Z;
  receive_packets : Z;
  send_bytes : Z;
  send_packets : Z
}.

Record SystemMetrics := mkSystemMetrics {
  _disk_metrics : gmap string DiskMetrics;
  _net_metrics : gmap string NetMetrics
}.

(** [std::map::emplace]: nothing happens when the key is there already. *)
Definition emplace (k : string) (v : Z) (m : gmap string Z) : gmap string Z :=
  match m !! k with
  | Some _ => m
  | None => <[k := v]> m
  end.

(** [get_max_io_util].  The divisions are those of [int64_t], which round
    towards zero; a division by zero has no result. *)
Definition get_max_io_util (self : SystemMetrics) (lst_value : gmap string Z)
    (interval_sec : Z) : option Z :=
  let max :=
    map_fold (λ device metrics max,
                let cur := io_time_ms metrics in
                match lst_value !! device with
                | None => max
                | Some last =>
                    let incr := sub64 cur last in
                    if max <? incr then incr else max
                end) 0 (_disk_metrics self) in
  if interval_sec =? 0 then None
  else Some (Z.quot (Z.quot max interval_sec) 10).

(** [get_disks_io_time(map)]: the map is cleared, then filled. *)
Definition get_disks_io_time (self : SystemMetrics) (map : gmap string Z)
  : gmap string Z :=
  map_fold (λ device metrics map, emplace device (io_time_ms metrics) map)
           ∅ (_disk_metrics self).

(** [get_network_traffic(send_map, rcv_map)]. *)
Definition get_network_traffic (self : SystemMetrics)
    (send_map rcv_map : gmap string Z) : gmap string Z * gmap string Z :=
  map_fold (λ interface metrics maps,
              if decide (interface = "lo") then maps
              else (emplace interface (send_bytes metrics) maps.1,
                    emplace interface (receive_bytes metrics) maps.2))
           (∅, ∅) (_net_metrics self).

(** [get_max_net_traffic], returning [(send_rate, rcv_rate)]. *)
Definition get_max_net_traffic (self : SystemMetrics)
    (lst_send_map lst_rcv_map : gmap string Z) (interval_sec : Z)
  : option (Z * Z) :=
  let maxima :=
    map_fold (λ interface metrics maxima,
                let cur_send := send_bytes metrics in
                let cur_rcv := receive_bytes metrics in
                let max_send :=
                  match lst_send_map !! interface with
                  | Some last =>
                      let incr := sub64 cur_send last in
                      if maxima.1 <? incr then incr else maxima.1
                  | None => maxima.1
                  end in
                let max_rcv :=
                  match lst_rcv_map !! interface with
                  | Some last =>
                      let incr := sub64 cur_rcv last in
                      if maxima.2 <? incr then incr else maxima.2
                  | None => maxima.2
                  end in
                (max_send, max_rcv)) (0, 0) (_net_metrics self) in
  if interval_sec =? 0 then None
  else Some (Z.quot maxima.1 interval_sec, Z.quot maxima.2 interval_sec).

(** [M] is the largest increment that [f] finds in [m], or 0 when it finds
    none above 0. *)
Definition largest_increment {V} (f : string -> V -> option Z)
    (m : gmap string V) (M : Z) : Prop :=
  0 <= M /\
  (∀ k v incr, m !! k = Some v -> f k v = Some incr -> incr <= M) /\
  (M = 0 \/ ∃ k v, m !! k = Some v /\ f k v = Some M).

(** The increment of a counter since the value recorded in [last]. *)
Definition increment_since {V} (counter : V -> Z) (last : gmap string Z)
  : string -> V -> option Z :=
  λ k v, (λ old, sub64 (counter v) old) <$> last !! k.

(** Two disks and three interfaces, the loopback among them. *)
Definition host_metrics : SystemMetrics :=
  {| _disk_metrics :=
       {[ "sda" := mkDiskMetrics 10 5120 7 4 2048 3 900 1200;
          "sdb" := mkDiskMetrics 0 0 0 0 0 0 250 300 ]};
     _net_metrics :=
       {[ "eth0" := mkNetMetrics 7000 70 3000 30;
          "eth1" := mkNetMetrics 100 1 200 2;
          "lo" := mkNetMetrics 99999 9 99999 9 ]} |}.

(** The same host at an earlier time. *)
Definition quiet_host : SystemMetrics :=
  {| _disk_metrics :=
       {[ "sda" := mkDiskMetrics 8 4096 5 2 1024 1 400 600;
          "sdb" := mkDiskMetrics 0 0 0 0 0 0 250 300 ]};
     _net_metrics :=
       {[ "eth0" := mkNetMetrics 5000 50 1000 10;
          "eth1" := mkNetMetrics 100 1 200 2;
          "lo" := mkNetMetrics 10 1 10 1 ]} |}.

(** * Verification *)

(** ** Facts of 64-bit arithmetic *)

Lemma wrap64_int64 z : int64 (wrap64 z).
Proof.
  unfold int64, wrap64, INT64_MIN, INT64_MAX.
  pose proof (Z.mod_pos_bound (z + 2 ^ 63) (2 ^ 64)). lia.
Qed.

Lemma wrap64_id z : int64 z -> wrap64 z = z.
Proof.
  unfold int64, wrap64, INT64_MIN, INT64_MAX. intros Hz.
  rewrite Z.mod_small; lia.
Qed.

Lemma wrap64_add_l a b : wrap64 (wrap64 a + b) = wrap64 (a + b).
Proof.
  unfold wrap64.
  replace ((a + 2 ^ 63) mod 2 ^ 64 - 2 ^ 63 + b + 2 ^ 63)
    with ((a + 2 ^ 63) mod 2 ^ 64 + b) by lia.
  rewrite Zplus_mod_idemp_l. do 2 f_equal. lia.
Qed.

Lemma wrap64_add_r a b : wrap64 (a + wrap64 b) = wrap64 (a + b).
Proof. rewrite (Z.add_comm a), wrap64_add_l. f_equal. lia. Qed.

Lemma add64_shift c d δ : add64 (wrap64 (c + d)) δ = wrap64 (c + (d + δ)).
Proof. unfold add64. rewrite wrap64_add_l. f_equal. lia. Qed.

Lemma add64_neg64_shift c d δ :
  add64 (wrap64 (c + d)) (neg64 δ) = wrap64 (c + (d - δ)).
Proof. unfold add64, neg64. rewrite wrap64_add_r, wrap64_add_l. f_equal. lia. Qed.

Lemma add64_exact a b : int64 (a + b) -> add64 a b = a + b.
Proof. apply wrap64_id. Qed.

Lemma sub64_exact a b : int64 (a - b) -> sub64 a b = a - b.
Proof. apply wrap64_id. Qed.

Lemma neg64_exact a : INT64_MIN < a <= INT64_MAX -> neg64 a = - a.
Proof.
  intros Ha. apply wrap64_id. unfold int64, INT64_MIN, INT64_MAX in *. lia.
Qed.

Lemma neg64_INT64_MIN : neg64 INT64_MIN = INT64_MIN.
Proof. reflexivity. Qed.

(** Negation flips the sign of every [int64_t] but [INT64_MIN]. *)
Lemma neg64_pos a : INT64_MIN < a < 0 -> 0 < neg64 a.
Proof.
  intros Ha. rewrite neg64_exact; unfold INT64_MIN, INT64_MAX in *; lia.
Qed.

(** ** Stores that differ in their counters only *)

Lemma with_consumption_eta t : with_consumption (_consumption t) t = t.
Proof. by destruct t. Qed.

Lemma shifted_0 t : int64 (consumption t) -> shifted 0 t t.
Proof.
  intros Ht. exists (value (_consumption t)).
  rewrite Z.add_0_r, wrap64_id by done.
  destruct t as [? ? [] ? ? ? ?]; reflexivity.
Qed.

Lemma shifted_consumption δ t0 t :
  shifted δ t0 t -> consumption t = wrap64 (consumption t0 + δ).
Proof. by intros [p ->]. Qed.

Lemma shifted_fields δ t0 t :
  shifted δ t0 t ->
  _limit t = _limit t0 /\ _parent t = _parent t0 /\
  _consumption_metric t = _consumption_metric t0 /\
  _all_trackers t = _all_trackers t0 /\ _limit_trackers t = _limit_trackers t0 /\
  _gc_functions t = _gc_functions t0.
Proof. by intros [p ->]. Qed.

Lemma shifted_mod δ δ' t0 t :
  wrap64 δ = wrap64 δ' -> shifted δ t0 t -> shifted δ' t0 t.
Proof.
  intros Hδ [p ->]. exists p. do 2 f_equal.
  by rewrite <- wrap64_add_r, Hδ, wrap64_add_r.
Qed.

Lemma shifted_typed δ t0 t : typed t0 -> shifted δ t0 t -> typed t.
Proof.
  intros [Hl _] [p ->]. split; [done | apply wrap64_int64].
Qed.

Lemma store_shifted_refl σ : well_typed σ -> store_shifted (λ _, 0) σ σ.
Proof.
  intros Hσ a. destruct (σ !! a) as [t|] eqn:Ha; constructor.
  apply shifted_0. by destruct (Hσ a t Ha).
Qed.

Lemma store_shifted_mod d d' σ0 σ :
  (∀ a, wrap64 (d a) = wrap64 (d' a)) ->
  store_shifted d σ0 σ -> store_shifted d' σ0 σ.
Proof.
  intros Hd H a. specialize (H a).
  destruct H; constructor. eapply shifted_mod; [apply Hd | done].
Qed.

Lemma store_shifted_ext d d' σ0 σ :
  (∀ a, d a = d' a) -> store_shifted d σ0 σ -> store_shifted d' σ0 σ.
Proof. intros Hd. apply store_shifted_mod. intros a. by rewrite Hd. Qed.

Lemma store_shifted_lookup d σ0 σ a t0 :
  store_shifted d σ0 σ -> σ0 !! a = Some t0 ->
  ∃ t, σ !! a = Some t /\ shifted (d a) t0 t.
Proof.
  intros H Ha. specialize (H a). rewrite Ha in H. inversion H; subst. eauto.
Qed.

Lemma store_shifted_lookup_r d σ0 σ a t :
  store_shifted d σ0 σ -> σ !! a = Some t ->
  ∃ t0, σ0 !! a = Some t0 /\ shifted (d a) t0 t.
Proof.
  intros H Ha. specialize (H a). rewrite Ha in H. inversion H; subst. eauto.
Qed.

Lemma store_shifted_consumption d σ0 σ a :
  store_shifted d σ0 σ ->
  consumption_at σ a = (λ c, wrap64 (c + d a)) <$> consumption_at σ0 a.
Proof.
  intros H. specialize (H a). unfold consumption_at.
  destruct H as [t0 t Ht|]; simpl; [|done].
  by rewrite (shifted_consumption _ _ _ Ht).
Qed.

Lemma store_shifted_well_typed d σ0 σ :
  well_typed σ0 -> store_shifted d σ0 σ -> well_typed σ.
Proof.
  intros Hσ0 H a t Ha.
  destruct (store_shifted_lookup_r _ _ _ _ _ H Ha) as (t0 & Ha0 & Ht).
  eapply shifted_typed; [exact (Hσ0 a t0 Ha0) | done].
Qed.

Lemma store_shifted_unchanged d σ0 σ a :
  well_typed σ0 -> store_shifted d σ0 σ -> d a = 0 ->
  consumption_at σ a = consumption_at σ0 a.
Proof.
  intros Hσ0 H Hd. rewrite (store_shifted_consumption _ _ _ a H), Hd.
  unfold consumption_at. destruct (σ0 !! a) as [u|] eqn:Hu; [simpl | done].
  f_equal. rewrite Z.add_0_r. apply wrap64_id. by destruct (Hσ0 a u Hu).
Qed.

(** One [add] through a pointer moves the shift of that tracker. *)
Lemma update_consumption_shifted d σ0 σ a δ :
  store_shifted d σ0 σ -> is_Some (σ0 !! a) ->
  ∃ σ', update_consumption (add δ) a σ = Some σ' /\
        store_shifted (λ x, d x + (if decide (x = a) then δ else 0)) σ0 σ'.
Proof.
  intros H [t0 Ha0].
  destruct (store_shifted_lookup _ _ _ _ _ H Ha0) as (t & Ha & [p ->]).
  unfold update_consumption. rewrite Ha. simpl. eexists; split; [done|].
  intros x. destruct (decide (x = a)) as [->|Hx].
  - rewrite lookup_insert_eq, Ha0. constructor.
    eexists. unfold add; simpl. rewrite add64_shift. reflexivity.
  - rewrite lookup_insert_ne, Z.add_0_r by done. apply H.
Qed.

Lemma update_consumption_frame f a σ σ' x :
  update_consumption f a σ = Some σ' -> x ≠ a -> σ' !! x = σ !! x.
Proof.
  unfold update_consumption. intros H Hx.
  destruct (σ !! a); simplify_eq/=. by rewrite lookup_insert_ne.
Qed.

Lemma add_all_shifted δ l : ∀ d σ0 σ,
  store_shifted d σ0 σ -> Forall (λ a, is_Some (σ0 !! a)) l ->
  ∃ σ', add_all δ l σ = Some σ' /\
        store_shifted (λ x, d x + occurrences x l * δ) σ0 σ'.
Proof.
  induction l as [|a l IH]; intros d σ0 σ H Hl; simpl.
  - eexists; split; [done|]. eapply store_shifted_ext; [|done]. intros; lia.
  - inversion Hl as [|? ? Ha Hl']; subst.
    destruct (update_consumption_shifted _ _ _ _ δ H Ha) as (σ1 & -> & H1). simpl.
    destruct (IH _ _ _ H1 Hl') as (σ2 & -> & H2).
    eexists; split; [done|]. eapply store_shifted_ext; [|done].
    intros x; simpl. destruct (decide (x = a)); lia.
Qed.

Lemma add_all_frame δ l : ∀ σ σ' x,
  add_all δ l σ = Some σ' -> x ∉ l -> σ' !! x = σ !! x.
Proof.
  induction l as [|a l IH]; intros σ σ' x H Hx; simpl in H.
  - by simplify_eq.
  - destruct (update_consumption (add δ) a σ) as [σ1|] eqn:H1; simplify_eq/=.
    rewrite (IH _ _ _ H) by set_solver.
    eapply update_consumption_frame; [done | set_solver].
Qed.

Lemma occurrences_not_in x l : x ∉ l -> occurrences x l = 0.
Proof.
  induction l as [|a l IH]; simpl; [done|]. intros Hx.
  rewrite decide_False by set_solver. rewrite IH; [done | set_solver].
Qed.

Lemma occurrences_nodup x l : NoDup l -> x ∈ l -> occurrences x l = 1.
Proof.
  induction 1 as [|a l Ha Hl IH]; simpl; [set_solver|]. intros Hx.
  destruct (decide (x = a)) as [->|Hxa].
  - by rewrite occurrences_not_in.
  - apply elem_of_cons in Hx as [?|Hx]; [done|]. by rewrite IH.
Qed.

(** ** The charge and release paths *)

Lemma consume_positive fuel self bytes σ t :
  0 < bytes -> σ !! self = Some t -> _consumption_metric t = None ->
  consume (S fuel) self bytes σ = add_all bytes (_all_trackers t) σ.
Proof.
  intros Hb Ht Hm. simpl.
  destruct (Z.leb_spec bytes 0); [lia|]. by rewrite Ht; simpl; rewrite Hm.
Qed.

Lemma release_positive fuel self bytes σ t :
  0 < bytes -> σ !! self = Some t -> _consumption_metric t = None ->
  release (S fuel) self bytes σ = add_all (neg64 bytes) (_all_trackers t) σ.
Proof.
  intros Hb Ht Hm. simpl.
  destruct (Z.leb_spec bytes 0); [lia|]. by rewrite Ht; simpl; rewrite Hm.
Qed.

Lemma consume_negative fuel self bytes σ :
  bytes < 0 -> consume (S fuel) self bytes σ = release fuel self (neg64 bytes) σ.
Proof.
  intros Hb. simpl. destruct (Z.leb_spec bytes 0); [|lia].
  by destruct (Z.ltb_spec bytes 0); [|lia].
Qed.

Lemma release_negative fuel self bytes σ :
  bytes < 0 -> release (S fuel) self bytes σ = consume fuel self (neg64 bytes) σ.
Proof.
  intros Hb. simpl. destruct (Z.leb_spec bytes 0); [|lia].
  by destruct (Z.ltb_spec bytes 0); [|lia].
Qed.

(** On a positive argument neither function recurses: one unit of fuel is as
    good as any. *)
Lemma consume_positive_fuel fuel fuel' self bytes σ :
  0 < bytes -> consume (S fuel) self bytes σ = consume (S fuel') self bytes σ.
Proof. intros Hb. simpl. by destruct (Z.leb_spec bytes 0); [lia|]. Qed.

Lemma release_positive_fuel fuel fuel' self bytes σ :
  0 < bytes -> release (S fuel) self bytes σ = release (S fuel') self bytes σ.
Proof. intros Hb. simpl. by destruct (Z.leb_spec bytes 0); [lia|]. Qed.

(** On [INT64_MIN] the two functions call each other for ever. *)
Lemma consume_release_INT64_MIN fuel self σ :
  consume fuel self INT64_MIN σ = None /\ release fuel self INT64_MIN σ = None.
Proof.
  induction fuel as [|fuel [IHc IHr]]; [done|].
  split; simpl; rewrite neg64_INT64_MIN; assumption.
Qed.

Lemma refresh_from_metric self σ t m :
  σ !! self = Some t -> _consumption_metric t = Some m ->
  RefreshConsumptionFromMetric self σ =
    Some (<[self := with_consumption (set (wrap64 m) (_consumption t)) t]> σ).
Proof.
  intros Ht Hm. unfold RefreshConsumptionFromMetric, update_consumption.
  rewrite Ht; simpl. by rewrite Hm.
Qed.

(** The effect of [consume] and [release], for every sign of the argument,
    on a store that is already a shifted copy of [σ0]. *)
Lemma consume_release_shifted fuel self bytes d σ0 σ t0 :
  σ0 !! self = Some t0 -> _consumption_metric t0 = None ->
  Forall (λ a, is_Some (σ0 !! a)) (_all_trackers t0) ->
  store_shifted d σ0 σ ->
  INT64_MIN < bytes <= INT64_MAX ->
  (∃ σ', consume (S (S fuel)) self bytes σ = Some σ' /\
         store_shifted (λ x, d x + occurrences x (_all_trackers t0) * bytes) σ0 σ') /\
  (∃ σ', release (S (S fuel)) self bytes σ = Some σ' /\
         store_shifted (λ x, d x - occurrences x (_all_trackers t0) * bytes) σ0 σ').
Proof.
  intros Ht0 Hm Halive H Hb.
  destruct (store_shifted_lookup _ _ _ _ _ H Ht0) as (t & Ht & Hs).
  destruct (shifted_fields _ _ _ Hs) as (_ & _ & Hmt & Hall & _).
  rewrite Hm in Hmt.
  assert (Hneg : neg64 bytes = - bytes) by by apply neg64_exact.
  assert (Hup : ∀ b : Z, 0 < b -> ∃ σ', add_all b (_all_trackers t) σ = Some σ' /\
            store_shifted (λ x, d x + occurrences x (_all_trackers t0) * b) σ0 σ').
  { intros b _. rewrite Hall. by apply add_all_shifted. }
  assert (Hdown : ∀ b : Z, INT64_MIN < b <= INT64_MAX ->
            ∃ σ', add_all (neg64 b) (_all_trackers t) σ = Some σ' /\
            store_shifted (λ x, d x - occurrences x (_all_trackers t0) * b) σ0 σ').
  { intros b Hb'. rewrite Hall.
    destruct (add_all_shifted (neg64 b) _ _ _ _ H Halive) as (σ' & -> & H').
    eexists; split; [done|]. eapply store_shifted_ext; [|done].
    intros x; simpl. rewrite neg64_exact by done. lia. }
  destruct (Z.lt_trichotomy bytes 0) as [Hlt | [-> | Hgt]].
  - assert (0 < - bytes) by lia.
    assert (INT64_MIN < - bytes <= INT64_MAX)
      by (unfold INT64_MIN, INT64_MAX in *; lia).
    split.
    + rewrite consume_negative, Hneg, (release_positive _ _ _ _ t) by done.
      destruct (Hdown (- bytes)) as (σ' & -> & H'); [done|].
      eexists; split; [done|]. eapply store_shifted_ext; [|done].
      intros x; simpl. lia.
    + rewrite release_negative, Hneg, (consume_positive _ _ _ _ t) by done.
      destruct (Hup (- bytes)) as (σ' & -> & H'); [done|].
      eexists; split; [done|]. eapply store_shifted_ext; [|done].
      intros x; simpl. lia.
  - split; (eexists; split; [done|]); (eapply store_shifted_ext; [|done]);
      intros x; simpl; lia.
  - split.
    + rewrite (consume_positive _ _ _ _ t) by done. by apply Hup.
    + rewrite (release_positive _ _ _ _ t) by done. by apply Hdown.
Qed.

Lemma run_ops_app fuel self l1 l2 σ :
  run_ops fuel self (l1 ++ l2) σ = σ' ← run_ops fuel self l1 σ; run_ops fuel self l2 σ'.
Proof.
  revert σ. induction l1 as [|o l1 IH]; intros σ; simpl; [done|].
  destruct (run_op fuel self o σ); simpl; [apply IH | done].
Qed.

Lemma net_app l1 l2 : net (l1 ++ l2) = net l1 + net l2.
Proof.
  induction l1 as [|[b|b] l1 IH]; simpl; lia.
Qed.

Lemma balanced_net ops : balanced ops -> net ops = 0.
Proof.
  induction 1 as [|b l1 l2 l3 _ IH]; [done|].
  rewrite !net_app in IH. rewrite net_app; simpl. rewrite net_app; simpl. lia.
Qed.

(** A sequence of charges and releases moves every counter of the chain by
    the net amount. *)
Lemma run_ops_shifted fuel self t0 σ0 ops : ∀ d σ,
  σ0 !! self = Some t0 -> _consumption_metric t0 = None ->
  Forall (λ a, is_Some (σ0 !! a)) (_all_trackers t0) ->
  store_shifted d σ0 σ ->
  Forall (λ o, negatable (amount o)) ops ->
  ∃ σ', run_ops (S (S fuel)) self ops σ = Some σ' /\
        store_shifted (λ x, d x + occurrences x (_all_trackers t0) * net ops) σ0 σ'.
Proof.
  induction ops as [|o ops IH]; intros d σ Ht0 Hm Halive H Hops.
  - eexists; split; [done|]. eapply store_shifted_ext; [|done]. intros; simpl; lia.
  - inversion Hops as [|? ? Ho Hops']; subst.
    destruct (consume_release_shifted fuel self (amount o) d σ0 σ t0)
      as [(σc & Hc & Hsc) (σr & Hr & Hsr)]; [done..|].
    destruct o as [b|b]; cbn [run_ops run_op amount] in *.
    + rewrite Hc. cbn [mbind option_bind].
      destruct (IH _ σc Ht0 Hm Halive Hsc Hops') as (σ' & -> & H').
      eexists; split; [done|]. eapply store_shifted_ext; [|done].
      intros x; simpl. lia.
    + rewrite Hr. cbn [mbind option_bind].
      destruct (IH _ σr Ht0 Hm Halive Hsr Hops') as (σ' & -> & H').
      eexists; split; [done|]. eapply store_shifted_ext; [|done].
      intros x; simpl. lia.
Qed.

(** More fuel does not change a result. *)
Lemma consume_release_fuel_mono n : ∀ self b σ σ',
  (consume n self b σ = Some σ' ->
   ∀ m, (n <= m)%nat -> consume m self b σ = Some σ') /\
  (release n self b σ = Some σ' ->
   ∀ m, (n <= m)%nat -> release m self b σ = Some σ').
Proof.
  induction n as [|k IH]; intros self b σ σ'; [done|].
  split; intros Hrun [|m] Hm; try lia; simpl in *;
    destruct (b <=? 0); try done; destruct (b <? 0); try done.
  - apply (proj2 (IH _ _ _ _) Hrun). lia.
  - apply (proj1 (IH _ _ _ _) Hrun). lia.
Qed.

Lemma run_ops_fuel_mono n m self ops : ∀ σ σ',
  (n <= m)%nat -> run_ops n self ops σ = Some σ' -> run_ops m self ops σ = Some σ'.
Proof.
  induction ops as [|o ops IH]; intros σ σ' Hm Hrun; [done|].
  simpl in *. destruct (run_op n self o σ) as [σ1|] eqn:Hop; [|done].
  assert (Hop' : run_op m self o σ = Some σ1).
  { destruct o; simpl in *;
      [eapply (proj1 (consume_release_fuel_mono _ _ _ _ _))
      |eapply (proj2 (consume_release_fuel_mono _ _ _ _ _))]; done. }
  rewrite Hop'. simpl in *. by eapply IH.
Qed.

(** A sequence that returns contains no [INT64_MIN]. *)
Lemma run_ops_negatable n self ops : ∀ σ σ',
  run_ops n self ops σ = Some σ' -> Forall (λ o, int64 (amount o)) ops ->
  Forall (λ o, negatable (amount o)) ops.
Proof.
  induction ops as [|o ops IH]; intros σ σ' Hrun Hops; [constructor|].
  inversion Hops as [|? ? Ho Hops']; subst. simpl in Hrun.
  destruct (run_op n self o σ) as [σ1|] eqn:Hop; [|done]. simpl in Hrun.
  constructor; [|by eapply IH].
  destruct (decide (amount o = INT64_MIN)) as [Hmin|Hne].
  - destruct (consume_release_INT64_MIN n self σ) as [Hc Hr].
    destruct o; simpl in *; subst; congruence.
  - unfold negatable, int64 in *. lia.
Qed.

(** C4 (balance round trip).  On a tracker without an external metric (leaf or
    not), after any sequence of balanced [consume(b)]/[release(b)] pairs the
    consumption of every tracker, hence of the node and of each of its
    ancestors, is what it was before the sequence; and the sequence does
    complete unless one of its amounts is [INT64_MIN].  On root(no limit) <-
    child(no limit), [child.consume(100)] makes both consumptions 100 and
    [child.release(100)] brings both back to zero. *)
Theorem balance_round_trip :
  (∀ σ self t ops,
     well_typed σ -> tracked σ self t -> _consumption_metric t = None ->
     balanced ops -> Forall (λ o, int64 (amount o)) ops ->
     (∀ fuel σ', run_ops fuel self ops σ = Some σ' ->
                 ∀ a, consumption_at σ' a = consumption_at σ a) /\
     (Forall (λ o, negatable (amount o)) ops ->
      ∀ fuel, ∃ σ', run_ops (S (S fuel)) self ops σ = Some σ')) /\
  (∃ σ1 σ2,
     consume 1 child 100 simple_tree = Some σ1 /\
     consumption_at σ1 child = Some 100 /\ consumption_at σ1 root = Some 100 /\
     release 1 child 100 σ1 = Some σ2 /\
     consumption_at σ2 child = Some 0 /\ consumption_at σ2 root = Some 0).
Proof.
  split.
  - intros σ self t ops Hσ [Hself _ Halive] Hm Hbal Hops.
    assert (Hgood : Forall (λ o, negatable (amount o)) ops ->
      ∀ fuel, ∃ σ', run_ops (S (S fuel)) self ops σ = Some σ' /\
                    ∀ a, consumption_at σ' a = consumption_at σ a).
    { intros Hneg fuel.
      destruct (run_ops_shifted fuel self t σ ops (λ _, 0) σ)
        as (σ' & Hrun & Hs); [done.. | by apply store_shifted_refl | done |].
      exists σ'. split; [done|]. intros a.
      apply (store_shifted_unchanged _ _ _ _ Hσ Hs). cbv beta.
      rewrite (balanced_net _ Hbal). lia. }
    split.
    + intros fuel σ' Hrun.
      destruct (Hgood (run_ops_negatable _ _ _ _ _ Hrun Hops) fuel)
        as (σ'' & Hrun' & Hsame).
      rewrite (run_ops_fuel_mono fuel (S (S fuel)) _ _ _ _ ltac:(lia) Hrun) in Hrun'.
      by injection Hrun' as <-.
    + intros Hneg fuel. destruct (Hgood Hneg fuel) as (σ' & Hrun & _). eauto.
  - eexists _, _. split; [reflexivity|]. split; [reflexivity|].
    split; [reflexivity|]. split; [reflexivity|]. split; reflexivity.
Qed.

Lemma balance_round_trip_witness :
  ∃ σ', run_ops 2 child [Consume 5; Consume 7; Release 5; Release 7] simple_tree
          = Some σ' /\
        ∀ a, consumption_at σ' a = consumption_at simple_tree a.
Proof.
  eassert (Htracked : tracked simple_tree child _) by tracked_by_evaluation.
  assert (Htyped : well_typed simple_tree) by by_evaluation.
  assert (Hbalanced : balanced [Consume 5; Consume 7; Release 5; Release 7]).
  { apply (balanced_pair 5 [] [Consume 7] [Release 7]).
    apply (balanced_pair 7 [] [] []). constructor. }
  destruct (proj1 balance_round_trip simple_tree child _
              [Consume 5; Consume 7; Release 5; Release 7]
              Htyped Htracked eq_refl Hbalanced) as [Hsame Hruns];
    [by_evaluation|].
  destruct (Hruns ltac:(by_evaluation) 0%nat) as [σ' Hrun].
  exists σ'. split; [exact Hrun|]. exact (Hsame _ _ Hrun).
Defined.

(** The exact effect of the [add] loop on a chain without repetition. *)
Lemma add_all_lookup δ l : ∀ σ,
  NoDup l -> Forall (λ a, is_Some (σ !! a)) l ->
  ∃ σ', add_all δ l σ = Some σ' /\
        (∀ a u, a ∈ l -> σ !! a = Some u ->
                σ' !! a = Some (with_consumption (add δ (_consumption u)) u)) /\
        (∀ a, a ∉ l -> σ' !! a = σ !! a).
Proof.
  induction l as [|x l IH]; intros σ Hnd Halive; simpl.
  - exists σ. split; [done|]. split; [|done]. intros a u Ha. by apply elem_of_nil in Ha.
  - apply NoDup_cons in Hnd as [Hx Hnd].
    inversion Halive as [|? ? [tx Htx] Halive']; subst.
    unfold update_consumption at 1. rewrite Htx. simpl.
    set (σ1 := <[x := with_consumption (add δ (_consumption tx)) tx]> σ).
    destruct (IH σ1 Hnd) as (σ' & -> & Hin & Hout).
    { eapply Forall_impl; [exact Halive'|]. intros a Ha; simpl in *.
      unfold σ1. destruct (decide (a = x)) as [->|Hne].
      - rewrite lookup_insert_eq. eauto.
      - by rewrite lookup_insert_ne. }
    exists σ'. split; [done|]. split.
    + intros a u Ha Hu. apply elem_of_cons in Ha as [->|Ha].
      * rewrite (Hout x Hx). unfold σ1. rewrite lookup_insert_eq. congruence.
      * apply Hin; [done|]. unfold σ1. rewrite lookup_insert_ne; [done|].
        intros ->. done.
    + intros a Ha. apply not_elem_of_cons in Ha as [Hne Ha].
      rewrite (Hout a Ha). unfold σ1. by rewrite lookup_insert_ne.
Qed.

(** C5 (sign handling of the charge path).  [consume(0)] and [release(0)]
    leave the store as it is.  On a negative argument [consume(bytes)] is the
    call [release(-bytes)] and [release(bytes)] is the call [consume(-bytes)],
    the negation being that of [int64_t]; for every negative [bytes] but
    [INT64_MIN] this is the mathematical negation and the two sides agree
    whatever the fuel.  On a positive argument and a node without an external
    metric [consume] adds [bytes] to the counter of every entry of the
    ancestor chain and of no other tracker, whatever the limits are. *)
Theorem consume_release_sign_handling fuel self σ :
  consume (S fuel) self 0 σ = Some σ /\
  release (S fuel) self 0 σ = Some σ /\
  (∀ bytes, bytes < 0 ->
     consume (S fuel) self bytes σ = release fuel self (neg64 bytes) σ) /\
  (∀ bytes, bytes < 0 ->
     release (S fuel) self bytes σ = consume fuel self (neg64 bytes) σ) /\
  (∀ fuel' bytes, INT64_MIN < bytes < 0 ->
     consume (S (S fuel)) self bytes σ = release (S fuel') self (- bytes) σ) /\
  (∀ fuel' bytes, INT64_MIN < bytes < 0 ->
     release (S (S fuel)) self bytes σ = consume (S fuel') self (- bytes) σ) /\
  (∀ bytes t, 0 < bytes -> tracked σ self t -> _consumption_metric t = None ->
     ∃ σ', consume (S fuel) self bytes σ = Some σ' /\
           (∀ a u, a ∈ _all_trackers t -> σ !! a = Some u ->
                   σ' !! a = Some (with_consumption (add bytes (_consumption u)) u) /\
                   consumption_at σ' a = Some (add64 (consumption u) bytes)) /\
           (∀ a, a ∉ _all_trackers t -> σ' !! a = σ !! a)).
Proof.
  split; [done|]. split; [done|].
  split; [intros; by apply consume_negative|].
  split; [intros; by apply release_negative|].
  split; [|split].
  - intros fuel' bytes Hb.
    rewrite consume_negative, neg64_exact by (unfold INT64_MAX, INT64_MIN in *; lia).
    apply release_positive_fuel. lia.
  - intros fuel' bytes Hb.
    rewrite release_negative, neg64_exact by (unfold INT64_MAX, INT64_MIN in *; lia).
    apply consume_positive_fuel. lia.
  - intros bytes t Hb [Hself Hnd Halive] Hm.
    rewrite (consume_positive _ _ _ _ t) by done.
    destruct (add_all_lookup bytes _ σ Hnd Halive) as (σ' & -> & Hin & Hout).
    exists σ'. split; [done|]. split; [|done].
    intros a u Ha Hu. pose proof (Hin a u Ha Hu) as Hau. split; [done|].
    unfold consumption_at. by rewrite Hau.
Qed.

Lemma consume_release_sign_handling_witness :
  ∃ σ', consume 1 leaf 40 three_level_tree = Some σ' /\
        (∀ a u, a ∈ [leaf; mid; root] -> three_level_tree !! a = Some u ->
                σ' !! a = Some (with_consumption (add 40 (_consumption u)) u) /\
                consumption_at σ' a = Some (add64 (consumption u) 40)) /\
        (∀ a, a ∉ [leaf; mid; root] -> σ' !! a = three_level_tree !! a).
Proof.
  eassert (Htracked : tracked three_level_tree leaf _) by tracked_by_evaluation.
  destruct (consume_release_sign_handling 0%nat leaf three_level_tree)
    as (_ & _ & _ & _ & _ & _ & Hpositive).
  refine (Hpositive 40 _ _ Htracked _).
  - lia.
  - reflexivity.
Defined.

(** C6 (external-metric isolation).  On a tracker whose consumption metric is
    set, [consume(bytes)] and [release(bytes)] with [bytes > 0] store the
    gauge's reading, as an [int64_t], in the tracker's own counter and touch
    no other tracker: nothing is propagated. *)
Theorem external_metric_isolation fuel self bytes σ t m :
  σ !! self = Some t -> _consumption_metric t = Some m -> 0 < bytes ->
  ∃ σ', consume (S fuel) self bytes σ = Some σ' /\
        release (S fuel) self bytes σ = Some σ' /\
        consumption_at σ' self = Some (wrap64 m) /\
        (int64 m -> consumption_at σ' self = Some m) /\
        (∀ a, a ≠ self -> σ' !! a = σ !! a).
Proof.
  intros Ht Hm Hb.
  exists (<[self := with_consumption (set (wrap64 m) (_consumption t)) t]> σ).
  assert (Hc : consumption_at
    (<[self := with_consumption (set (wrap64 m) (_consumption t)) t]> σ) self
    = Some (wrap64 m)).
  { unfold consumption_at. by rewrite lookup_insert_eq. }
  repeat split.
  - simpl. destruct (Z.leb_spec bytes 0); [lia|].
    rewrite Ht; simpl. rewrite Hm. by apply refresh_from_metric.
  - simpl. destruct (Z.leb_spec bytes 0); [lia|].
    rewrite Ht; simpl. rewrite Hm. by apply refresh_from_metric.
  - done.
  - intros Hi. by rewrite Hc, wrap64_id.
  - intros a Ha. by rewrite lookup_insert_ne.
Qed.

Lemma external_metric_isolation_witness :
  ∃ σ', consume 1 root 64 metered_root = Some σ' /\
        release 1 root 64 metered_root = Some σ' /\
        consumption_at σ' root = Some (wrap64 500) /\
        (int64 500 -> consumption_at σ' root = Some 500) /\
        (∀ a, a ≠ root -> σ' !! a = metered_root !! a).
Proof.
  eapply (external_metric_isolation 0%nat root 64 metered_root).
  - reflexivity.
  - reflexivity.
  - lia.
Defined.

(** ** Local transfer *)

Lemma before_sublist e l : ∀ a, a ∈ before e l -> a ∈ l.
Proof.
  induction l as [|x l IH]; simpl; [done|]. intros a.
  destruct (decide (Some x = e)); [by intros ?%elem_of_nil|].
  rewrite !elem_of_cons. intros [->|Ha]; [by left | right; by apply IH].
Qed.

Lemma before_position e l : ∀ k,
  NoDup l -> l !! k = Some e -> before (Some e) l = take k l.
Proof.
  induction l as [|x l IH]; intros k Hnd Hk; [done|].
  apply NoDup_cons in Hnd as [Hx Hnd]. simpl.
  destruct k as [|k]; simpl in *.
  - simplify_eq. by rewrite decide_True.
  - rewrite decide_False.
    + f_equal. by apply IH.
    + intros [= ->]. apply Hx. by eapply list_elem_of_lookup_2.
Qed.

Lemma before_absent e l :
  (∀ a, e = Some a -> a ∉ l) -> before e l = l.
Proof.
  induction l as [|x l IH]; simpl; [done|]. intros He.
  rewrite decide_False.
  - f_equal. apply IH. intros a Ha. specialize (He a Ha). set_solver.
  - intros <-. specialize (He x eq_refl). set_solver.
Qed.

(** The loop of [consume_local] is the [add] loop over the entries before
    [end_tracker]; it falls through to the final check exactly when
    [end_tracker] is not met. *)
Lemma consume_local_loop_spec bytes e l : ∀ σ,
  Forall (λ a, is_Some (σ !! a)) l -> NoDup l ->
  ∃ σ' log, consume_local_loop bytes e l σ = Some (σ', log) /\
            add_all bytes (before e l) σ = Some σ' /\
            (EndTrackerIsNotAnAncestor ∈ log <-> ∀ a, e = Some a -> a ∉ l).
Proof.
  induction l as [|x l IH]; intros σ Halive Hnd; simpl.
  - exists σ, [EndTrackerIsNotAnAncestor]. split; [done|]. split; [done|].
    split; [intros _ a _; apply not_elem_of_nil | intros _; set_solver].
  - destruct (decide (Some x = e)) as [<-|Hne].
    + exists σ, []. split; [done|]. split; [done|].
      split; [by intros ?%elem_of_nil|]. intros H. specialize (H x eq_refl). set_solver.
    + inversion Halive as [|? ? [tx Htx] Halive']; subst.
      apply NoDup_cons in Hnd as [Hx Hnd].
      rewrite Htx. simpl. unfold update_consumption at 1 2. rewrite Htx. simpl.
      set (σ1 := <[x := with_consumption (add bytes (_consumption tx)) tx]> σ).
      destruct (IH σ1) as (σ' & log & -> & Hadd & Hlog); [|done|].
      { eapply Forall_impl; [exact Halive'|]. intros a Ha; simpl in *.
        unfold σ1. destruct (decide (a = x)) as [->|Hax].
        - rewrite lookup_insert_eq. eauto.
        - by rewrite lookup_insert_ne. }
      simpl. eexists _, _. split; [done|]. split; [done|].
      rewrite elem_of_app, Hlog. split.
      * intros [Hin|H] a Ha.
        { destruct (has_limit tx); [|by apply elem_of_nil in Hin].
          apply list_elem_of_singleton in Hin. done. }
        { apply not_elem_of_cons. split; [|by apply H]. intros ->. by subst. }
      * intros H. right. intros a Ha. specialize (H a Ha).
        by apply not_elem_of_cons in H as [_ H].
Qed.

(** C8 (reachability of the last check of [consume_local]).
    [consume_local(bytes, end_tracker)] adds [bytes] to the counter of every
    chain entry strictly before the position of [end_tracker] and to no other
    counter.  When [end_tracker] is in the chain it leaves by the early
    return and the check "end_tracker is not an ancestor" is not reached; the
    check is reached exactly when [end_tracker] is absent from the chain. *)
Theorem consume_local_end_tracker self bytes end_tracker σ t :
  tracked σ self t ->
  ∃ σ' log,
    consume_local self bytes end_tracker σ = Some (σ', log) /\
    (∀ a u, a ∈ before end_tracker (_all_trackers t) -> σ !! a = Some u ->
            σ' !! a = Some (with_consumption (add bytes (_consumption u)) u)) /\
    (∀ a, a ∉ before end_tracker (_all_trackers t) -> σ' !! a = σ !! a) /\
    (∀ e k, end_tracker = Some e -> _all_trackers t !! k = Some e ->
            before end_tracker (_all_trackers t) = take k (_all_trackers t) /\
            EndTrackerIsNotAnAncestor ∉ log) /\
    (EndTrackerIsNotAnAncestor ∈ log <->
     ∀ e, end_tracker = Some e -> e ∉ _all_trackers t).
Proof.
  intros [Hself Hnd Halive]. unfold consume_local. rewrite Hself. simpl.
  destruct (consume_local_loop_spec bytes end_tracker _ σ Halive Hnd)
    as (σ' & log & -> & Hadd & Hlog). simpl.
  assert (Hlog' : EndTrackerIsNotAnAncestor ∈
            match _consumption_metric t with
            | Some _ => [ShouldNotBeCalledOnRoot] | None => [] end ++ log
          <-> ∀ e, end_tracker = Some e -> e ∉ _all_trackers t).
  { rewrite <- Hlog, elem_of_app. split; [|by right].
    intros [H|H]; [|done]. destruct (_consumption_metric t).
    - by apply list_elem_of_singleton in H. 
    - by apply elem_of_nil in H. }
  destruct (add_all_lookup bytes (before end_tracker (_all_trackers t)) σ)
    as (σ'' & Hadd' & Hin & Hout).
  { clear -Hnd. induction Hnd as [|x l Hx Hnd IH]; simpl; [constructor|].
    destruct (decide (Some x = end_tracker)); [constructor|].
    apply NoDup_cons. split; [|done]. intros H. by apply before_sublist in H. }
  { apply Forall_forall. intros a Ha. apply before_sublist in Ha.
    by eapply Forall_forall in Halive. }
  rewrite Hadd in Hadd'. injection Hadd' as <-.
  eexists _, _. split; [done|]. split; [done|]. split; [done|]. split; [|done].
  intros e k -> Hk. split; [by apply before_position|].
  rewrite Hlog'. intros H. apply (H e eq_refl). by eapply list_elem_of_lookup_2.
Qed.

Lemma consume_local_end_tracker_witness :
  ∃ σ' log,
    consume_local child 50 (Some root) simple_tree = Some (σ', log) /\
    consumption_at σ' child = Some 50 /\
    consumption_at σ' root = Some 0 /\
    EndTrackerIsNotAnAncestor ∉ log.
Proof.
  eassert (Htracked : tracked simple_tree child _) by tracked_by_evaluation.
  destruct (consume_local_end_tracker child 50 (Some root) simple_tree _ Htracked)
    as (σ' & log & Hrun & Hin & Hout & Hend & _).
  exists σ', log. split; [exact Hrun|]. split; [|split].
  - eassert (Hc : σ' !! child = Some _).
    { apply Hin; [by_evaluation | reflexivity]. }
    unfold consumption_at. rewrite Hc. reflexivity.
  - unfold consumption_at. rewrite Hout; [reflexivity | by_evaluation].
  - exact (proj2 (Hend root 1%nat eq_refl eq_refl)).
Defined.

(** ** Queries over the limited chain *)

Lemma spare_capacity_loop_spec l : ∀ result σ,
  Forall (λ a, is_Some (σ !! a)) l ->
  ∃ r, spare_capacity_loop l result σ = Some r /\
       r <= result /\
       (∀ a u, a ∈ l -> σ !! a = Some u -> r <= sub64 (limit u) (consumption u)) /\
       (r = result \/
        ∃ a u, a ∈ l /\ σ !! a = Some u /\ r = sub64 (limit u) (consumption u)).
Proof.
  induction l as [|x l IH]; intros result σ Halive; simpl.
  - exists result. split; [done|]. split; [lia|]. split; [|by left].
    intros a u Ha. by apply elem_of_nil in Ha.
  - inversion Halive as [|? ? [tx Htx] Halive']; subst. rewrite Htx. simpl.
    destruct (IH (Z.min result (sub64 (limit tx) (consumption tx))) σ Halive')
      as (r & -> & Hle & Hall & Hex).
    exists r. split; [done|]. split; [lia|]. split.
    + intros a u Ha Hu. apply elem_of_cons in Ha as [->|Ha].
      * simplify_eq. lia.
      * by eapply Hall.
    + destruct Hex as [->|(a & u & Ha & Hu & ->)].
      * destruct (Z.min_spec result (sub64 (limit tx) (consumption tx)))
          as [[_ ->]|[_ ->]]; [by left|].
        right. exists x, tx. split; [left|]; done.
      * right. exists a, u. split; [by right|]. done.
Qed.

(** C9 ([spare_capacity]).  The result is the minimum, over the trackers of
    the limited chain, of [limit - consumption] (an [int64_t] subtraction): it
    is below each of these differences and, unless the chain is empty, it is
    one of them; it is [INT64_MAX] when the chain is empty; and it is negative
    as soon as one of these trackers is over its limit. *)
Theorem spare_capacity_minimum self σ t :
  σ !! self = Some t ->
  Forall (λ a, is_Some (σ !! a)) (_limit_trackers t) ->
  ∃ r, spare_capacity self σ = Some r /\
       (∀ a u, a ∈ _limit_trackers t -> σ !! a = Some u ->
               r <= sub64 (limit u) (consumption u)) /\
       (_limit_trackers t ≠ [] ->
        ∃ a u, a ∈ _limit_trackers t /\ σ !! a = Some u /\
               r = sub64 (limit u) (consumption u)) /\
       (_limit_trackers t = [] -> r = INT64_MAX) /\
       (∀ a u, a ∈ _limit_trackers t -> σ !! a = Some u ->
               int64 (limit u - consumption u) -> limit u < consumption u ->
               r < 0).
Proof.
  intros Hself Halive. unfold spare_capacity. rewrite Hself. simpl.
  destruct (spare_capacity_loop_spec _ INT64_MAX σ Halive)
    as (r & -> & Hle & Hall & Hex).
  exists r. split; [done|]. split; [done|]. split; [|split].
  - intros Hne. destruct Hex as [->|?]; [|done].
    destruct (_limit_trackers t) as [|x l] eqn:Hl; [done|].
    inversion Halive as [|? ? [tx Htx] _]; subst.
    exists x, tx. split; [by left|]. split; [done|].
    pose proof (Hall x tx (list_elem_of_here _ _) Htx) as H1.
    pose proof (wrap64_int64 (limit tx - consumption tx)) as [_ H2].
    unfold sub64 in *. lia.
  - intros Hnil. rewrite Hnil in Hex. destruct Hex as [->|(a & u & Ha & _)]; [done|].
    by apply elem_of_nil in Ha.
  - intros a u Ha Hu Hrange Hover.
    pose proof (Hall a u Ha Hu) as H1. rewrite sub64_exact in H1 by done. lia.
Qed.

Lemma spare_capacity_minimum_witness :
  ∃ r, spare_capacity leaf three_level_tree = Some r /\ r = 300.
Proof.
  eassert (Hself : three_level_tree !! leaf = Some _) by reflexivity.
  destruct (spare_capacity_minimum leaf three_level_tree _ Hself)
    as (r & Hr & _); [by_evaluation|].
  exists r. split; [exact Hr|].
  apply (inj Some). rewrite <- Hr. reflexivity.
Defined.

(** ** The reserve path *)

(** C10 ([try_consume] of nothing).  For [bytes <= 0], [try_consume] returns
    true at once, without reading or writing any tracker and without any
    reclamation.  Unlike [consume], it does not turn a negative argument into
    a release: on a child charged with 100 bytes, [consume(-30)] brings the
    consumption down to 70 while [try_consume(-30)] leaves the store as it
    is. *)
Theorem try_consume_nonpositive :
  (∀ fuel self bytes σ,
     bytes <= 0 -> try_consume fuel self bytes σ = Some (σ, true, [])) /\
  (∃ σ1 σ2,
     consume 1 child 100 simple_tree = Some σ1 /\
     consume 2 child (-30) σ1 = Some σ2 /\
     consumption_at σ2 child = Some 70 /\ consumption_at σ2 root = Some 70 /\
     try_consume 2 child (-30) σ1 = Some (σ1, true, [])).
Proof.
  split.
  - intros fuel self bytes σ Hb. unfold try_consume.
    by destruct (Z.leb_spec bytes 0); [|lia].
  - eexists _, _. split; [reflexivity|]. split; [reflexivity|].
    split; [reflexivity|]. split; reflexivity.
Qed.

Lemma try_consume_nonpositive_witness :
  try_consume 0 leaf (-400) three_level_tree = Some (three_level_tree, true, []).
Proof.
  apply (proj1 try_consume_nonpositive). lia.
Defined.

Lemma occurrences_app x l1 l2 :
  occurrences x (l1 ++ l2) = occurrences x l1 + occurrences x l2.
Proof. induction l1 as [|a l1 IH]; simpl; lia. Qed.

(** The rollback loop takes [bytes] back from the trackers at the indices
    above [i] that it has not visited yet. *)
Lemma rollback_shifted chain bytes i σ0 : ∀ n σ,
  (n <= length chain)%nat ->
  Forall (λ a, is_Some (σ0 !! a)) chain ->
  store_shifted
    (λ x, occurrences x (take (n - S i) (drop (S i) chain)) * bytes) σ0 σ ->
  ∃ σ', rollback chain bytes i n σ = Some σ' /\ store_shifted (λ _, 0) σ0 σ'.
Proof.
  induction n as [|j IH]; intros σ Hn Halive H; simpl.
  - exists σ. split; [done|]. eapply store_shifted_ext; [|done]. intros; simpl; lia.
  - destruct (Nat.ltb_spec i j) as [Hij|Hij].
    + destruct (lookup_lt_is_Some_2 chain j) as [a Ha]; [lia|].
      rewrite Ha. simpl.
      assert (Ha0 : is_Some (σ0 !! a)).
      { eapply Forall_forall in Halive; [done|]. by eapply list_elem_of_lookup_2. }
      destruct (update_consumption_shifted _ _ _ _ (neg64 bytes) H Ha0)
        as (σ1 & -> & H1). simpl.
      apply IH; [lia | done |].
      eapply store_shifted_mod; [|exact H1]. intros x; cbv beta.
      replace (S j - S i)%nat with (S (j - S i)) by lia.
      rewrite (take_S_r _ _ a).
      2:{ rewrite lookup_drop. rewrite <- Ha. f_equal. lia. }
      rewrite occurrences_app; simpl.
      destruct (decide (x = a)).
      * unfold neg64. rewrite wrap64_add_r. f_equal. lia.
      * f_equal. lia.
    + exists σ. split; [done|]. eapply store_shifted_ext; [|done].
      intros x; cbv beta. replace (S j - S i)%nat with 0%nat by lia. simpl. lia.
Qed.

(** *** Reclamation that releases nothing *)

Lemma run_gc_functions_quiet fuel self max_consumption fs : ∀ index σ,
  is_Some (σ !! self) -> Forall quiet fs ->
  ∃ calls, run_gc_functions fuel self max_consumption index fs σ = Some (σ, calls).
Proof.
  induction fs as [|f fs IH]; intros index σ [t Ht] Hq; simpl.
  - by eexists.
  - inversion Hq as [|? ? Hf Hq']; subst. rewrite Ht. simpl. rewrite Hf. simpl.
    destruct (IH (S index) σ) as (calls & ->); [by eexists | done |].
    by eexists.
Qed.

Lemma GcMemory_quiet fuel self max_consumption σ t :
  σ !! self = Some t -> Forall quiet (_gc_functions t) ->
  max_consumption < consumption t ->
  ∃ calls, GcMemory fuel self max_consumption σ = Some (σ, true, calls).
Proof.
  intros Ht Hq Hover. unfold GcMemory. rewrite Ht. simpl.
  destruct (Z.leb_spec (consumption t) max_consumption); [lia|].
  destruct (run_gc_functions_quiet fuel self max_consumption
              (_gc_functions t) 0%nat σ) as (calls & ->); [by eexists | done |].
  simpl. rewrite Ht. simpl.
  destruct (Z.ltb_spec max_consumption (consumption t)); [|lia]. by eexists.
Qed.

(** A failed [try_add] of a positive amount means that the consumption is
    above [limit - bytes], so that [GcMemory] does not return at once. *)
Lemma try_add_fails_over c bytes lim :
  int64 c -> 0 <= lim <= INT64_MAX -> 0 < bytes <= INT64_MAX ->
  lim < add64 c bytes -> sub64 lim bytes < c.
Proof.
  intros Hc Hl Hb Hover.
  rewrite sub64_exact by (unfold int64, INT64_MAX, INT64_MIN in *; lia).
  destruct (decide (c + bytes <= INT64_MAX)) as [Hs|Hs].
  - rewrite add64_exact in Hover by (unfold int64, INT64_MAX, INT64_MIN in *; lia).
    lia.
  - lia.
Qed.

Lemma try_add_loop_quiet fuel a bytes σ t :
  σ !! a = Some t -> typed t -> 0 <= limit t -> 0 < bytes <= INT64_MAX ->
  Forall quiet (_gc_functions t) ->
  ∃ σ' ok calls,
    try_add_loop (S fuel) a bytes (limit t) σ = Some (σ', ok, calls) /\
    (ok = true -> add64 (consumption t) bytes <= limit t /\
       ∃ peak, σ' = <[a := with_consumption
                            (mkCounter (add64 (consumption t) bytes) peak) t]> σ) /\
    (ok = false -> limit t < add64 (consumption t) bytes /\ σ' = σ).
Proof.
  intros Ht [Hl Hc] Hlim Hb Hq. simpl. rewrite Ht. simpl. unfold try_add.
  fold (consumption t).
  destruct (Z.ltb_spec (limit t) (add64 (consumption t) bytes)) as [Hover|Hfit].
  - destruct (GcMemory_quiet fuel a (sub64 (limit t) bytes) σ t Ht Hq)
      as (calls & ->).
    { apply try_add_fails_over; try done. unfold int64, limit in *. lia. }
    simpl. eexists _, _, _. split; [done|]. split; [done|]. done.
  - eexists _, _, _. split; [done|]. split; [|done]. intros _. split; [done|].
    by eexists.
Qed.

Lemma store_shifted_insert d σ0 σ a t δ peak :
  store_shifted d σ0 σ -> σ !! a = Some t ->
  store_shifted (λ x, d x + (if decide (x = a) then δ else 0)) σ0
    (<[a := with_consumption (mkCounter (add64 (consumption t) δ) peak) t]> σ).
Proof.
  intros H Ha x. destruct (decide (x = a)) as [->|Hx].
  - rewrite lookup_insert_eq.
    destruct (store_shifted_lookup_r _ _ _ _ _ H Ha) as (t0 & -> & [p ->]).
    constructor. exists peak. simpl. unfold consumption at 1; simpl.
    by rewrite add64_shift.
  - rewrite lookup_insert_ne, Z.add_0_r by done. apply H.
Qed.

Lemma nodup_lookup_not_in_drop (chain : list addr) i a :
  NoDup chain -> chain !! i = Some a -> a ∉ drop (S i) chain.
Proof.
  intros Hnd Hi Hin. apply list_elem_of_lookup in Hin as [j Hj].
  rewrite lookup_drop in Hj.
  pose proof (NoDup_lookup _ _ _ _ Hnd Hi Hj). lia.
Qed.

(** The outer loop of [try_consume] when reclamation releases nothing: once
    the trackers above index [n - 1] hold their charge, the loop either
    charges the others as well or takes everything back. *)
Lemma try_consume_loop_quiet fuel chain bytes σ0 :
  NoDup chain -> Forall (λ a, is_Some (σ0 !! a)) chain ->
  well_typed σ0 -> gc_quiet σ0 chain -> 0 < bytes <= INT64_MAX ->
  ∀ n σ, (n <= length chain)%nat ->
    store_shifted (λ x, occurrences x (drop n chain) * bytes) σ0 σ ->
    fits σ0 (drop n chain) bytes ->
    ∃ σ' ok calls,
      try_consume_loop (S fuel) chain bytes n σ = Some (σ', ok, calls) /\
      (ok = true -> fits σ0 chain bytes /\
         store_shifted (λ x, occurrences x chain * bytes) σ0 σ') /\
      (ok = false -> ¬ fits σ0 chain bytes /\ store_shifted (λ _, 0) σ0 σ').
Proof.
  intros Hnd Halive Hσ0 Hq Hb.
  induction n as [|i IH]; intros σ Hn H Hfits.
  - exists σ, true, []. split; [done|]. split; [done|]. done.
  - destruct (lookup_lt_is_Some_2 chain i) as [a Ha]; [lia|].
    assert (Hin : a ∈ chain) by by eapply list_elem_of_lookup_2.
    assert (Hfresh : a ∉ drop (S i) chain) by by eapply nodup_lookup_not_in_drop.
    assert (Hdrop : drop i chain = a :: drop (S i) chain) by by apply drop_S.
    destruct (proj1 (Forall_forall _ _) Halive a Hin) as [t0 Ht0].
    destruct (store_shifted_lookup _ _ _ _ _ H Ht0) as (t & Ht & Hs).
    rewrite (occurrences_not_in _ _ Hfresh), Z.mul_0_l in Hs.
    pose proof (Hσ0 a t0 Ht0) as Htyped0.
    assert (Hc : consumption t = consumption t0).
    { rewrite (shifted_consumption _ _ _ Hs), Z.add_0_r.
      apply wrap64_id, Htyped0. }
    destruct (shifted_fields _ _ _ Hs) as (Hlim & _ & _ & _ & _ & Hgc).
    assert (Hshift : ∀ σ1,
      store_shifted (λ x, occurrences x (drop (S i) chain) * bytes
                          + (if decide (x = a) then bytes else 0)) σ0 σ1 ->
      store_shifted (λ x, occurrences x (drop i chain) * bytes) σ0 σ1).
    { intros σ1. apply store_shifted_ext. intros x. rewrite Hdrop; simpl.
      destruct (decide (x = a)); lia. }
    cbn [try_consume_loop]. rewrite Ha. cbn [mbind option_bind]. rewrite Ht.
    cbn [mbind option_bind].
    destruct (Z.ltb_spec (limit t) 0) as [Hno|Hlimit].
    + destruct (update_consumption_shifted _ _ _ _ bytes H (mk_is_Some _ _ Ht0))
        as (σ1 & -> & H1). cbn [mbind option_bind].
      apply IH; [lia | by apply Hshift |].
      intros x u Hx Hu Hxl. rewrite Hdrop in Hx.
      apply elem_of_cons in Hx as [->|Hx]; [|by eapply Hfits].
      simplify_eq. unfold limit in *. lia.
    + destruct (try_add_loop_quiet fuel a bytes σ t Ht) as
        (σ1 & ok & calls & -> & Hok & Hfail); [| done | done | |].
      { eapply shifted_typed; [exact Htyped0 | exact Hs]. }
      { rewrite Hgc. by eapply Hq. }
      cbn [mbind option_bind]. destruct ok.
      * destruct (Hok eq_refl) as (Hle & peak & ->).
        destruct (IH (<[a := with_consumption
                      (mkCounter (add64 (consumption t) bytes) peak) t]> σ))
          as (σ' & ok & calls' & -> & Hok' & Hfail');
          [lia | by apply Hshift, store_shifted_insert | |].
        { intros x u Hx Hu Hxl. rewrite Hdrop in Hx.
          apply elem_of_cons in Hx as [->|Hx]; [|by eapply Hfits].
          simplify_eq. unfold limit in *. rewrite <- Hc, <- Hlim. done. }
        cbn [mbind option_bind]. by eexists _, _, _.
      * destruct (Hfail eq_refl) as (Hover & ->).
        destruct (rollback_shifted chain bytes i σ0 (length chain) σ)
          as (σ' & -> & H'); [done | done | |].
        { rewrite take_ge; [done|]. rewrite length_drop. lia. }
        cbn [mbind option_bind]. eexists _, _, _. split; [done|].
        split; [done|]. intros _. split; [|done].
        intros Hall. specialize (Hall a t0 Hin Ht0).
        unfold limit in *. rewrite <- Hc, <- Hlim in Hall. lia.
Qed.

(** [try_consume] on a tracker without an external metric whose chain runs
    no releasing callback: the charge is applied to the whole chain when it
    fits under every limit, and to nothing otherwise. *)
Lemma try_consume_quiet fuel σ self t bytes :
  well_typed σ -> tracked σ self t -> _consumption_metric t = None ->
  gc_quiet σ (_all_trackers t) -> 0 < bytes <= INT64_MAX ->
  ∃ σ' ok events,
    try_consume (S fuel) self bytes σ = Some (σ', ok, events) /\
    (ok = true -> fits σ (_all_trackers t) bytes /\
       store_shifted (λ x, occurrences x (_all_trackers t) * bytes) σ σ') /\
    (ok = false -> ¬ fits σ (_all_trackers t) bytes /\
       store_shifted (λ _, 0) σ σ').
Proof.
  intros Hσ [Hself Hnd Halive] Hm Hq Hb. unfold try_consume.
  destruct (Z.leb_spec bytes 0); [lia|]. rewrite Hself. cbn [mbind option_bind].
  rewrite Hm. cbn [mbind option_bind].
  apply try_consume_loop_quiet; try done.
  - rewrite drop_all. eapply store_shifted_ext; [|by apply store_shifted_refl].
    intros; simpl; lia.
  - rewrite drop_all. intros a u Ha. by apply elem_of_nil in Ha.
Qed.

(** ** The limited chain *)

(** Construction establishes the invariant of the limited chain. *)
Lemma new_tracker_limit_chain self byte_limit parent σ :
  limit_chain_invariant (new_tracker self byte_limit parent σ) self.
Proof.
  intros t Ht. unfold new_tracker in *. rewrite lookup_insert_eq in Ht.
  injection Ht as <-. simpl. apply list_filter_iff. intros a.
  unfold has_limit_at. destruct (decide (a = self)) as [->|Ha].
  - by rewrite lookup_insert_eq.
  - by rewrite lookup_insert_ne.
Qed.

(** Operations that only move counters keep it. *)
Lemma store_shifted_limit_chain d σ0 σ self :
  store_shifted d σ0 σ ->
  limit_chain_invariant σ0 self -> limit_chain_invariant σ self.
Proof.
  intros H Hinv t Ht.
  destruct (store_shifted_lookup_r _ _ _ _ _ H Ht) as (t0 & Ht0 & Hs).
  destruct (shifted_fields _ _ _ Hs) as (_ & _ & _ & -> & -> & _).
  rewrite (Hinv t0 Ht0). apply list_filter_iff. intros a.
  unfold has_limit_at. specialize (H a).
  destruct H as [u0 u Hu|]; [|done].
  destruct (shifted_fields _ _ _ Hu) as (Hl & _). unfold has_limit. by rewrite Hl.
Qed.

(** C7 (the limited chain after [set_limit]): the code does not keep the
    invariant.  [set_limit] writes [_limit] and leaves every [_limit_trackers]
    as [Init] computed it.  On root(no limit) <- child(no limit), after
    [root.set_limit(100)] and [child.consume(200)] the root is over its limit
    and is the only tracker of the child's chain with a valid limit, but the
    child's limited chain is still empty: [any_limit_exceeded] answers false,
    [find_limit_exceeded_tracker] finds nothing and [spare_capacity] answers
    [INT64_MAX].  The other way round, on root(limit=1000) <- child(no limit)
    [root.set_limit(-1)] leaves the root in the child's limited chain, and
    [spare_capacity] answers -1 although no tracker has a limit. *)
Theorem set_limit_leaves_limit_chain_stale :
  (∃ σ1 σ2 t,
     limit_chain_invariant simple_tree child /\
     set_limit root 100 simple_tree = Some σ1 /\
     consume 1 child 200 σ1 = Some σ2 /\
     σ2 !! child = Some t /\
     _limit_trackers t = [] /\
     filter (λ a, has_limit_at σ2 a = true) (_all_trackers t) = [root] /\
     ¬ limit_chain_invariant σ1 child /\
     limit_exceeded <$> σ2 !! root = Some true /\
     any_limit_exceeded child σ2 = Some false /\
     find_limit_exceeded_tracker child σ2 = Some None /\
     spare_capacity child σ2 = Some INT64_MAX) /\
  (∃ σ1 t,
     limit_chain_invariant limited_tree child /\
     set_limit root (-1) limited_tree = Some σ1 /\
     σ1 !! child = Some t /\
     _limit_trackers t = [root] /\
     filter (λ a, has_limit_at σ1 a = true) (_all_trackers t) = [] /\
     ¬ limit_chain_invariant σ1 child /\
     spare_capacity child σ1 = Some (-1)).
Proof.
  split.
  - eexists _, _, _.
    split; [apply new_tracker_limit_chain|].
    split; [reflexivity|]. split; [reflexivity|]. split; [reflexivity|].
    split; [reflexivity|]. split; [reflexivity|]. split.
    + intros H. specialize (H _ eq_refl). vm_compute in H. discriminate H.
    + repeat split.
  - eexists _, _.
    split; [apply new_tracker_limit_chain|].
    split; [reflexivity|]. split; [reflexivity|].
    split; [reflexivity|]. split; [reflexivity|]. split.
    + intros H. specialize (H _ eq_refl). vm_compute in H. discriminate H.
    + reflexivity.
Qed.

(** ** Stores of the same shape *)

Lemma recounted_refl u : recounted u u.
Proof. exists (_consumption u). by rewrite with_consumption_eta. Qed.

Lemma recounted_trans u0 u1 u2 : recounted u0 u1 -> recounted u1 u2 -> recounted u0 u2.
Proof. intros [c1 ->] [c2 ->]. by exists c2. Qed.

Lemma recounted_fields u0 u :
  recounted u0 u ->
  _limit u = _limit u0 /\ _consumption_metric u = _consumption_metric u0 /\
  _all_trackers u = _all_trackers u0 /\ _gc_functions u = _gc_functions u0.
Proof. by intros [c ->]. Qed.

Lemma same_shape_refl σ : same_shape σ σ.
Proof. intros a. destruct (σ !! a); constructor. apply recounted_refl. Qed.

Lemma same_shape_trans σ0 σ1 σ2 :
  same_shape σ0 σ1 -> same_shape σ1 σ2 -> same_shape σ0 σ2.
Proof.
  intros H1 H2 a. specialize (H1 a). specialize (H2 a).
  destruct H1 as [u0 u1 H01|]; inversion H2; subst; constructor.
  by eapply recounted_trans.
Qed.

Lemma same_shape_lookup σ0 σ a u0 :
  same_shape σ0 σ -> σ0 !! a = Some u0 -> ∃ u, σ !! a = Some u /\ recounted u0 u.
Proof.
  intros H Ha. specialize (H a). rewrite Ha in H. inversion H; subst. eauto.
Qed.

Lemma same_shape_lookup_r σ0 σ a u :
  same_shape σ0 σ -> σ !! a = Some u -> ∃ u0, σ0 !! a = Some u0 /\ recounted u0 u.
Proof.
  intros H Ha. specialize (H a). rewrite Ha in H. inversion H; subst. eauto.
Qed.

Lemma same_shape_alive σ0 σ a :
  same_shape σ0 σ -> is_Some (σ0 !! a) -> is_Some (σ !! a).
Proof.
  intros H [u0 Hu0]. destruct (same_shape_lookup _ _ _ _ H Hu0) as (u & -> & _).
  by eexists.
Qed.

Lemma same_shape_closed σ0 σ : same_shape σ0 σ -> closed σ0 -> closed σ.
Proof.
  intros H Hc a u Hu.
  destruct (same_shape_lookup_r _ _ _ _ H Hu) as (u0 & Hu0 & Hr).
  destruct (recounted_fields _ _ Hr) as (_ & _ & -> & _).
  eapply Forall_impl; [exact (Hc a u0 Hu0)|]. intros x. by apply same_shape_alive.
Qed.

Lemma same_shape_gc_sound σ0 σ : same_shape σ0 σ -> gc_sound σ0 -> gc_sound σ.
Proof.
  intros H Hg a u f n x b Hu Hf Hx.
  destruct (same_shape_lookup_r _ _ _ _ H Hu) as (u0 & Hu0 & Hr).
  destruct (recounted_fields _ _ Hr) as (_ & _ & _ & Hgc). rewrite Hgc in Hf.
  destruct (Hg a u0 f n x b Hu0 Hf Hx) as [Hb Hlive].
  split; [done|]. by eapply same_shape_alive.
Qed.

Lemma insert_counter_shape σ a t c :
  well_typed σ -> σ !! a = Some t -> int64 (current_value c) ->
  same_shape σ (<[a := with_consumption c t]> σ) /\
  well_typed (<[a := with_consumption c t]> σ).
Proof.
  intros Hσ Ht Hc. split.
  - intros x. destruct (decide (x = a)) as [->|Hx].
    + rewrite lookup_insert_eq, Ht. constructor. by exists c.
    + rewrite lookup_insert_ne by done. apply same_shape_refl.
  - apply map_Forall_insert_2; [|done]. split; [|done]. apply (Hσ a t Ht).
Qed.

Lemma update_consumption_shape f a σ :
  (∀ c, int64 (current_value (f c))) -> well_typed σ -> is_Some (σ !! a) ->
  ∃ σ', update_consumption f a σ = Some σ' /\ same_shape σ σ' /\ well_typed σ'.
Proof.
  intros Hf Hσ [t Ht]. unfold update_consumption. rewrite Ht. simpl.
  eexists. split; [done|]. by apply insert_counter_shape.
Qed.

Lemma add_all_shape δ l : ∀ σ,
  well_typed σ -> Forall (λ a, is_Some (σ !! a)) l ->
  ∃ σ', add_all δ l σ = Some σ' /\ same_shape σ σ' /\ well_typed σ'.
Proof.
  induction l as [|a l IH]; intros σ Hσ Hl; simpl.
  - exists σ. split; [done|]. split; [apply same_shape_refl | done].
  - inversion Hl as [|? ? Ha Hl']; subst.
    destruct (update_consumption_shape (add δ) a σ) as (σ1 & -> & H1 & Hσ1);
      [intros c; apply wrap64_int64 | done | done |]. simpl.
    destruct (IH σ1 Hσ1) as (σ2 & -> & H2 & Hσ2).
    { eapply Forall_impl; [exact Hl'|]. intros x. by apply same_shape_alive. }
    exists σ2. split; [done|]. split; [by eapply same_shape_trans | done].
Qed.

Lemma refresh_shape self σ t :
  well_typed σ -> σ !! self = Some t -> is_Some (_consumption_metric t) ->
  ∃ σ', RefreshConsumptionFromMetric self σ = Some σ' /\
        same_shape σ σ' /\ well_typed σ'.
Proof.
  intros Hσ Ht [m Hm]. rewrite (refresh_from_metric _ _ _ _ Ht Hm).
  eexists. split; [done|]. apply insert_counter_shape; [done..|].
  apply wrap64_int64.
Qed.

(** A charge or a release of an amount that has a negation returns and
    moves counters only. *)
Lemma consume_release_shape fuel self bytes σ :
  well_typed σ -> closed σ -> is_Some (σ !! self) -> negatable bytes ->
  (∃ σ', consume (S (S fuel)) self bytes σ = Some σ' /\
         same_shape σ σ' /\ well_typed σ') /\
  (∃ σ', release (S (S fuel)) self bytes σ = Some σ' /\
         same_shape σ σ' /\ well_typed σ').
Proof.
  intros Hσ Hc [t Ht] Hb.
  assert (Hpos : ∀ f b, 0 < b ->
    (∃ σ', consume (S f) self b σ = Some σ' /\ same_shape σ σ' /\ well_typed σ') /\
    (∃ σ', release (S f) self b σ = Some σ' /\ same_shape σ σ' /\ well_typed σ')).
  { intros f b Hpos. destruct (_consumption_metric t) as [m|] eqn:Hm.
    - simpl. destruct (Z.leb_spec b 0); [lia|]. rewrite Ht; simpl. rewrite Hm.
      split; by apply (refresh_shape _ _ t).
    - rewrite (consume_positive _ _ _ _ t), (release_positive _ _ _ _ t) by done.
      split; apply add_all_shape; try done; exact (Hc self t Ht). }
  destruct (Z.lt_trichotomy bytes 0) as [Hlt | [-> | Hgt]].
  - rewrite (release_negative (S fuel) self bytes) by done.
    rewrite (consume_negative (S fuel) self bytes) by done.
    destruct (Hpos fuel (neg64 bytes)) as [H1 H2]; [|by split].
    apply neg64_pos. unfold negatable in Hb. lia.
  - split; (exists σ; split; [done|]; split; [apply same_shape_refl | done]).
  - by apply Hpos.
Qed.

Lemma release_each_shape fuel rs : ∀ σ,
  well_typed σ -> closed σ ->
  Forall (λ r, negatable r.2 /\ is_Some (σ !! r.1)) rs ->
  ∃ σ', release_each (S (S fuel)) rs σ = Some σ' /\
        same_shape σ σ' /\ well_typed σ'.
Proof.
  induction rs as [|[x b] rs IH]; intros σ Hσ Hc Hrs.
  - exists σ. split; [done|]. split; [apply same_shape_refl | done].
  - inversion Hrs as [|? ? [Hb Hx] Hrs']; subst. simpl in Hb, Hx.
    destruct (consume_release_shape fuel x b σ Hσ Hc Hx Hb)
      as [_ (σ1 & Hrel & H1 & Hσ1)].
    cbn [release_each]. rewrite Hrel. cbn [mbind option_bind].
    destruct (IH σ1 Hσ1) as (σ2 & -> & H2 & Hσ2).
    { by eapply same_shape_closed. }
    { eapply Forall_impl; [exact Hrs'|]. intros [y c] [? ?]; simpl in *.
      split; [done|]. by eapply same_shape_alive. }
    exists σ2. split; [done|]. split; [by eapply same_shape_trans | done].
Qed.

(** ** The states of the interface *)

Lemma recounted_links u0 u :
  recounted u0 u ->
  _parent u = _parent u0 /\ _consumption_metric u = _consumption_metric u0 /\
  _all_trackers u = _all_trackers u0 /\ _limit_trackers u = _limit_trackers u0 /\
  _gc_functions u = _gc_functions u0.
Proof. by intros [c ->]. Qed.

Lemma same_shape_links σ0 σ : same_shape σ0 σ -> same_links σ0 σ.
Proof.
  intros H a. specialize (H a). destruct H as [u0 u Hr|]; constructor.
  by apply recounted_links.
Qed.

Lemma store_shifted_shape d σ0 σ : store_shifted d σ0 σ -> same_shape σ0 σ.
Proof.
  intros H a. specialize (H a). destruct H as [u0 u [peak ->]|]; constructor.
  by eexists.
Qed.

Lemma same_links_alive σ0 σ a :
  same_links σ0 σ -> is_Some (σ0 !! a) -> is_Some (σ !! a).
Proof.
  intros H [u0 Hu0]. specialize (H a). rewrite Hu0 in H. inversion H. by eexists.
Qed.

Lemma same_links_parent_chain σ0 σ p :
  same_links σ0 σ -> parent_chain σ p = parent_chain σ0 p.
Proof.
  intros H. destruct p as [q|]; [|done]. simpl. specialize (H q).
  destruct H as [u0 u (_ & _ & Hall & _)|]; done.
Qed.

(** Whatever changes counters and limits only, within [int64_t], keeps the
    trackers sound. *)
Lemma same_links_sound σ0 σ :
  same_links σ0 σ -> well_typed σ -> sound σ0 -> sound σ.
Proof.
  intros H Hσ Hs a t Ht.
  pose proof (H a) as Ha. rewrite Ht in Ha.
  inversion Ha as [t0 ? (Hp & Hm & Hall & Hlt & Hgc) Ht0|]; subst.
  symmetry in Ht0. destruct (Hs a t0 Ht0) as [_ Hpar Hch Hnd Hal Hlim Hnm Hng].
  split.
  - exact (Hσ a t Ht).
  - intros p Hpt. rewrite Hp in Hpt. by eapply same_links_alive, Hpar.
  - by rewrite Hall, Hp, (same_links_parent_chain σ0 σ).
  - by rewrite Hall.
  - rewrite Hall. eapply Forall_impl; [exact Hal|]. intros x.
    by apply same_links_alive.
  - by rewrite Hall, Hlt.
  - by rewrite Hm.
  - by rewrite Hgc.
Qed.

Lemma sound_well_typed σ : sound σ -> well_typed σ.
Proof. intros Hs a t Ht. by destruct (Hs a t Ht). Qed.

Lemma sound_tracked σ self t : sound σ -> σ !! self = Some t -> tracked σ self t.
Proof. intros Hs Ht. destruct (Hs self t Ht). by split. Qed.

Lemma sound_gc_quiet σ chain : sound σ -> gc_quiet σ chain.
Proof.
  intros Hs a u _ Hu. destruct (Hs a u Hu) as [_ _ _ _ _ _ _ Hgc].
  rewrite Hgc. constructor.
Qed.

(** *** Moving counters *)

Lemma update_consumption_keeps f a σ σ' :
  (∀ c, int64 (current_value (f c))) -> well_typed σ ->
  update_consumption f a σ = Some σ' -> same_shape σ σ' /\ well_typed σ'.
Proof.
  intros Hf Hσ Hrun. unfold update_consumption in Hrun.
  destruct (σ !! a) as [t|] eqn:Ht; [|done]. simpl in Hrun.
  injection Hrun as <-. by apply insert_counter_shape.
Qed.

Lemma add_all_keeps δ l : ∀ σ σ',
  well_typed σ -> add_all δ l σ = Some σ' -> same_shape σ σ' /\ well_typed σ'.
Proof.
  induction l as [|a l IH]; intros σ σ' Hσ Hrun; simpl in Hrun.
  - injection Hrun as <-. split; [apply same_shape_refl | done].
  - destruct (update_consumption (add δ) a σ) as [σ1|] eqn:H1; [|done].
    simpl in Hrun.
    destruct (update_consumption_keeps (add δ) a σ σ1
                (λ c, wrap64_int64 _) Hσ H1) as [Hs1 Hσ1].
    destruct (IH _ _ Hσ1 Hrun) as [Hs2 Hσ2].
    split; [by eapply same_shape_trans | done].
Qed.

Lemma refresh_keeps self σ σ' :
  well_typed σ -> RefreshConsumptionFromMetric self σ = Some σ' ->
  same_shape σ σ' /\ well_typed σ'.
Proof.
  intros Hσ Hrun. unfold RefreshConsumptionFromMetric in Hrun.
  destruct (σ !! self) as [t|]; [|done]. simpl in Hrun.
  destruct (_consumption_metric t) as [m|]; [|done]. simpl in Hrun.
  eapply update_consumption_keeps; [|done|exact Hrun].
  intros c. apply wrap64_int64.
Qed.

(** A charge or a release that returns has moved counters only. *)
Lemma consume_release_keeps fuel : ∀ self bytes σ σ',
  well_typed σ ->
  (consume fuel self bytes σ = Some σ' -> same_shape σ σ' /\ well_typed σ') /\
  (release fuel self bytes σ = Some σ' -> same_shape σ σ' /\ well_typed σ').
Proof.
  induction fuel as [|fuel IH]; intros self bytes σ σ' Hσ; [done|].
  assert (Hpos : ∀ δ,
    (t ← σ !! self;
     match _consumption_metric t with
     | Some _ => RefreshConsumptionFromMetric self σ
     | None => add_all δ (_all_trackers t) σ
     end) = Some σ' -> same_shape σ σ' /\ well_typed σ').
  { intros δ Hrun. destruct (σ !! self) as [t|]; [|done]. simpl in Hrun.
    destruct (_consumption_metric t).
    - by eapply refresh_keeps.
    - by eapply add_all_keeps. }
  split; intros Hrun; simpl in Hrun.
  - destruct (bytes <=? 0).
    + destruct (bytes <? 0).
      * by apply (proj2 (IH self (neg64 bytes) σ σ' Hσ)).
      * injection Hrun as <-. split; [apply same_shape_refl | done].
    + by apply (Hpos bytes).
  - destruct (bytes <=? 0).
    + destruct (bytes <? 0).
      * by apply (proj1 (IH self (neg64 bytes) σ σ' Hσ)).
      * injection Hrun as <-. split; [apply same_shape_refl | done].
    + by apply (Hpos (neg64 bytes)).
Qed.

Lemma consume_local_loop_keeps bytes e l : ∀ σ σ' log,
  well_typed σ -> consume_local_loop bytes e l σ = Some (σ', log) ->
  same_shape σ σ' /\ well_typed σ'.
Proof.
  induction l as [|a l IH]; intros σ σ' log Hσ Hrun; simpl in Hrun.
  - injection Hrun as <- _. split; [apply same_shape_refl | done].
  - destruct (decide (Some a = e)).
    + injection Hrun as <- _. split; [apply same_shape_refl | done].
    + destruct (σ !! a) as [t|]; [|done]. simpl in Hrun.
      destruct (update_consumption (add bytes) a σ) as [σ1|] eqn:H1; [|done].
      simpl in Hrun.
      destruct (consume_local_loop bytes e l σ1) as [[σ2 log2]|] eqn:H2; [|done].
      simpl in Hrun. injection Hrun as <- _.
      destruct (update_consumption_keeps (add bytes) a σ σ1
                  (λ c, wrap64_int64 _) Hσ H1) as [Hs1 Hσ1].
      destruct (IH _ _ _ Hσ1 H2) as [Hs2 Hσ2].
      split; [by eapply same_shape_trans | done].
Qed.

Lemma consume_local_keeps self bytes e σ σ' log :
  well_typed σ -> consume_local self bytes e σ = Some (σ', log) ->
  same_shape σ σ' /\ well_typed σ'.
Proof.
  intros Hσ Hrun. unfold consume_local in Hrun.
  destruct (σ !! self) as [t|]; [|done]. simpl in Hrun.
  destruct (consume_local_loop bytes e (_all_trackers t) σ)
    as [[σ1 log1]|] eqn:H1; [|done].
  simpl in Hrun. injection Hrun as <- _. by eapply consume_local_loop_keeps.
Qed.

(** Without fuel the reserve loop returns only if it meets no limit, and
    then it returns the same with fuel. *)
Lemma try_consume_loop_no_fuel chain bytes : ∀ n σ r,
  try_consume_loop 0 chain bytes n σ = Some r ->
  try_consume_loop 1 chain bytes n σ = Some r.
Proof.
  induction n as [|i IH]; intros σ r Hrun; [done|].
  cbn [try_consume_loop] in *.
  destruct (chain !! i) as [a|]; [|done]. cbn [mbind option_bind] in *.
  destruct (σ !! a) as [t|]; [|done]. cbn [mbind option_bind] in *.
  destruct (limit t <? 0); [|done].
  destruct (update_consumption (add bytes) a σ) as [σ1|]; [|done].
  cbn [mbind option_bind] in *. by apply IH.
Qed.

(** A reservation that returns, in a sound store, has moved counters
    only. *)
Lemma try_consume_keeps fuel self bytes σ σ' ok events :
  sound σ -> int64 bytes ->
  try_consume fuel self bytes σ = Some (σ', ok, events) ->
  same_shape σ σ' /\ well_typed σ'.
Proof.
  intros Hs Hb Hrun. pose proof (sound_well_typed σ Hs) as Hσ.
  destruct (Z.le_gt_cases bytes 0) as [Hle|Hpos].
  { unfold try_consume in Hrun. destruct (Z.leb_spec bytes 0); [|lia].
    injection Hrun as <- _ _. split; [apply same_shape_refl | done]. }
  assert (Hself : ∃ t, σ !! self = Some t).
  { unfold try_consume in Hrun. destruct (Z.leb_spec bytes 0); [lia|].
    destruct (σ !! self) as [t|]; [by eexists | done]. }
  destruct Hself as [t Ht].
  assert (Hm : _consumption_metric t = None) by by destruct (Hs self t Ht).
  assert (Hfuel : ∃ k, try_consume (S k) self bytes σ = Some (σ', ok, events)).
  { destruct fuel as [|k]; [|by exists k]. exists 0%nat.
    unfold try_consume in *. destruct (Z.leb_spec bytes 0); [lia|].
    rewrite Ht in *. cbn [mbind option_bind] in *. rewrite Hm in *.
    cbn [mbind option_bind] in *. by apply try_consume_loop_no_fuel. }
  destruct Hfuel as [k Hk].
  destruct (try_consume_quiet k σ self t bytes Hσ (sound_tracked _ _ _ Hs Ht) Hm
              (sound_gc_quiet _ _ Hs))
    as (σ1 & ok1 & events1 & Hrun1 & Hok & Hfail).
  { unfold int64 in Hb. lia. }
  rewrite Hk in Hrun1. injection Hrun1 as <- <- <-.
  destruct ok.
  - destruct (Hok eq_refl) as [_ H]. split; [by eapply store_shifted_shape|].
    by eapply store_shifted_well_typed.
  - destruct (Hfail eq_refl) as [_ H]. split; [by eapply store_shifted_shape|].
    by eapply store_shifted_well_typed.
Qed.

(** *** Writing a limit *)

Lemma set_limit_keeps self l σ σ' :
  well_typed σ -> int64 l -> set_limit self l σ = Some σ' ->
  same_links σ σ' /\ well_typed σ'.
Proof.
  intros Hσ Hl Hrun. unfold set_limit in Hrun.
  destruct (σ !! self) as [t|] eqn:Ht; [|done]. simpl in Hrun.
  injection Hrun as <-. split.
  - intros a. destruct (decide (a = self)) as [->|Ha].
    + rewrite lookup_insert_eq, Ht. by constructor.
    + rewrite lookup_insert_ne by done. destruct (σ !! a); by constructor.
  - apply map_Forall_insert_2; [|done]. split; [done|]. apply (Hσ self t Ht).
Qed.

(** *** Construction *)

(** A chain without repetition, made of live trackers, is no longer than
    the store is large. *)
Lemma chain_length (σ : store) (l : list addr) :
  NoDup l -> Forall (λ a, is_Some (σ !! a)) l -> (length l <= size σ)%nat.
Proof.
  intros Hnd Hl. rewrite <- size_dom, <- (size_list_to_set (C := gset addr) l) by done.
  apply subseteq_size. intros x Hx. apply elem_of_list_to_set in Hx.
  apply elem_of_dom. by eapply Forall_forall in Hl.
Qed.

(** With enough fuel the walk of [Init] finds the chain of the parent. *)
Lemma ancestors_parent_chain σ : sound σ ->
  ∀ fuel p, (∀ q, p = Some q -> is_Some (σ !! q)) ->
    (length (parent_chain σ p) <= fuel)%nat ->
    ancestors fuel σ p = parent_chain σ p.
Proof.
  intros Hs. induction fuel as [|fuel IH]; intros p Hp Hlen.
  - destruct (parent_chain σ p); [|simpl in Hlen; lia].
    by destruct p.
  - destruct p as [q|]; [|done]. destruct (Hp q eq_refl) as [tq Hq].
    simpl in *. rewrite Hq in *.
    destruct (Hs q tq Hq) as [_ Hpar Hch _ _ _ _ _].
    rewrite Hch in *. f_equal. apply IH; [done|]. simpl in Hlen. lia.
Qed.

Lemma new_tracker_sound self byte_limit parent σ :
  sound σ -> σ !! self = None -> int64 byte_limit ->
  (∀ p, parent = Some p -> is_Some (σ !! p)) ->
  sound (new_tracker self byte_limit parent σ).
Proof.
  intros Hs Hfresh Hl Hparent.
  assert (Hchain_alive : Forall (λ x, is_Some (σ !! x)) (parent_chain σ parent)).
  { destruct parent as [q|]; [|constructor]. destruct (Hparent q eq_refl) as [tq Hq].
    simpl. rewrite Hq. by destruct (Hs q tq Hq). }
  assert (Hchain_nodup : NoDup (parent_chain σ parent)).
  { destruct parent as [q|]; [|constructor]. destruct (Hparent q eq_refl) as [tq Hq].
    simpl. rewrite Hq. by destruct (Hs q tq Hq). }
  assert (Hanc : ancestors (size σ) σ parent = parent_chain σ parent).
  { apply ancestors_parent_chain; [done | done |]. by apply chain_length. }
  assert (Hself : self ∉ parent_chain σ parent).
  { intros Hin. eapply Forall_forall in Hchain_alive; [|exact Hin].
    rewrite Hfresh in Hchain_alive. by destruct Hchain_alive. }
  assert (Hkeep : ∀ x, is_Some (σ !! x) ->
            new_tracker self byte_limit parent σ !! x = σ !! x).
  { intros x Hx. unfold new_tracker. rewrite lookup_insert_ne; [done|].
    intros <-. rewrite Hfresh in Hx. by destruct Hx. }
  assert (Hpc : ∀ p, (∀ q, p = Some q -> is_Some (σ !! q)) ->
            parent_chain (new_tracker self byte_limit parent σ) p = parent_chain σ p).
  { intros [q|] Hq; [|done]. simpl. by rewrite Hkeep by by apply Hq. }
  assert (Hlive : ∀ x, is_Some (σ !! x) ->
            is_Some (new_tracker self byte_limit parent σ !! x)).
  { intros x Hx. by rewrite Hkeep. }
  intros a t Ht. unfold new_tracker in Ht.
  destruct (decide (a = self)) as [->|Ha].
  - rewrite lookup_insert_eq in Ht. injection Ht as <-.
    split; simpl.
    + split; [done|]. by_evaluation.
    + intros p ->. by apply Hlive, Hparent.
    + by rewrite Hanc, Hpc.
    + rewrite Hanc. by apply NoDup_cons.
    + rewrite Hanc. constructor.
      * unfold new_tracker. rewrite lookup_insert_eq. by eexists.
      * eapply Forall_impl; [exact Hchain_alive|]. exact Hlive.
    + intros x Hx. by apply list_elem_of_filter in Hx as [_ Hx].
    + done.
    + done.
  - rewrite lookup_insert_ne in Ht by done.
    destruct (Hs a t Ht) as [Hty Hpar Hch Hnd Hal Hlim Hnm Hng].
    split; try done.
    + intros p Hp. by apply Hlive, Hpar.
    + rewrite Hpc; [done|]. intros q Hq. by apply Hpar.
    + eapply Forall_impl; [exact Hal|]. exact Hlive.
Qed.

(** Every store that the interface builds is sound: its chains are those of
    [Init], no tracker has a gauge and none has a callback. *)
Lemma reachable_sound σ : reachable σ -> sound σ.
Proof.
  induction 1 as [|σ self byte_limit parent _ IH Hfresh Hl Hparent
                  |σ fuel self bytes σ' _ IH Hb Hrun
                  |σ fuel self bytes σ' _ IH Hb Hrun
                  |σ self bytes e σ' log _ IH Hb Hrun
                  |σ self bytes e σ' log _ IH Hb Hrun
                  |σ fuel self bytes σ' ok events _ IH Hb Hrun
                  |σ self l σ' _ IH Hl Hrun
                  |σ self σ' _ IH Hrun].
  - intros a t Ht. by rewrite lookup_empty in Ht.
  - by apply new_tracker_sound.
  - destruct (proj1 (consume_release_keeps fuel self bytes σ σ'
                       (sound_well_typed _ IH)) Hrun) as [Hs Hσ'].
    eapply same_links_sound; [by apply same_shape_links | done | done].
  - destruct (proj2 (consume_release_keeps fuel self bytes σ σ'
                       (sound_well_typed _ IH)) Hrun) as [Hs Hσ'].
    eapply same_links_sound; [by apply same_shape_links | done | done].
  - destruct (consume_local_keeps _ _ _ _ _ _ (sound_well_typed _ IH) Hrun)
      as [Hs Hσ'].
    eapply same_links_sound; [by apply same_shape_links | done | done].
  - destruct (consume_local_keeps _ _ _ _ _ _ (sound_well_typed _ IH) Hrun)
      as [Hs Hσ'].
    eapply same_links_sound; [by apply same_shape_links | done | done].
  - destruct (try_consume_keeps _ _ _ _ _ _ _ IH Hb Hrun) as [Hs Hσ'].
    eapply same_links_sound; [by apply same_shape_links | done | done].
  - destruct (set_limit_keeps _ _ _ _ (sound_well_typed _ IH) Hl Hrun)
      as [Hs Hσ'].
    by eapply same_links_sound.
  - destruct (refresh_keeps _ _ _ (sound_well_typed _ IH) Hrun) as [Hs Hσ'].
    eapply same_links_sound; [by apply same_shape_links | done | done].
Qed.

(** The scenario trees are built by the constructor alone. *)
Lemma reachable_simple_tree : reachable simple_tree.
Proof.
  unfold simple_tree.
  apply reachable_new; [apply reachable_new; [constructor | done | done | done]
                       | done | done |].
  intros p [= <-]. by eexists.
Qed.

Lemma reachable_limited_tree : reachable limited_tree.
Proof.
  unfold limited_tree.
  apply reachable_new; [apply reachable_new; [constructor | done | done | done]
                       | done | done |].
  intros p [= <-]. by eexists.
Qed.

Lemma reachable_three_level_tree : reachable three_level_tree.
Proof.
  unfold three_level_tree.
  apply reachable_new;
    [apply reachable_new;
       [apply reachable_new; [constructor | done | done | done] | done | done |]
    | done | done |].
  - intros p [= <-]. by eexists.
  - intros p [= <-]. by eexists.
Qed.

(** ** The contract of the reserve path *)

(** [try_consume] in a store that the interface has built. *)
Lemma try_consume_reachable fuel σ self t bytes :
  reachable σ -> σ !! self = Some t -> 0 < bytes <= INT64_MAX ->
  well_typed σ /\ tracked σ self t /\
  ∃ σ' ok events,
    try_consume (S fuel) self bytes σ = Some (σ', ok, events) /\
    (ok = true -> fits σ (_all_trackers t) bytes /\
       store_shifted (λ x, occurrences x (_all_trackers t) * bytes) σ σ') /\
    (ok = false -> ¬ fits σ (_all_trackers t) bytes /\
       store_shifted (λ _, 0) σ σ').
Proof.
  intros Hr Hself Hb. pose proof (reachable_sound σ Hr) as Hs.
  split; [by apply sound_well_typed|]. split; [by apply sound_tracked|].
  apply try_consume_quiet; try done.
  - by apply sound_well_typed.
  - by apply sound_tracked.
  - by destruct (Hs self t Hself).
  - by apply sound_gc_quiet.
Qed.

(** C1 (the contract of [try_consume]).  In every store that the interface
    builds, for every tracker and every [bytes > 0], [try_consume(bytes)]
    returns; either it returns true, every tracker of the ancestor chain
    holds exactly [bytes] more (in 64-bit arithmetic, which is the plain sum
    unless that exceeds [INT64_MAX]) and none that has a limit is above it,
    or it returns false and every tracker of the chain holds what it held.  The chain is made of live trackers, and no tracker
    off the chain changes its consumption.  On root(limit=1000) <-
    child(no limit), [child.try_consume(600)] returns true,
    [child.try_consume(500)] then returns false, and both consumptions are
    600. *)
Theorem try_consume_contract :
  (∀ fuel σ self t bytes,
     reachable σ -> σ !! self = Some t -> 0 < bytes <= INT64_MAX ->
     ∃ σ' ok events,
       try_consume (S fuel) self bytes σ = Some (σ', ok, events) /\
       Forall (λ a, is_Some (σ !! a)) (_all_trackers t) /\
       (∀ a u, a ∈ _all_trackers t -> σ !! a = Some u ->
          ∃ u', σ' !! a = Some u' /\ limit u' = limit u /\
                if ok then consumption u' = add64 (consumption u) bytes /\
                           (consumption u + bytes <= INT64_MAX ->
                            consumption u' = consumption u + bytes) /\
                           (0 <= limit u' -> consumption u' <= limit u')
                else consumption u' = consumption u) /\
       (∀ a, a ∉ _all_trackers t -> consumption_at σ' a = consumption_at σ a)) /\
  (∃ σ1 events1 σ2 events2,
     try_consume 1 child 600 limited_tree = Some (σ1, true, events1) /\
     try_consume 1 child 500 σ1 = Some (σ2, false, events2) /\
     consumption_at σ2 root = Some 600 /\ consumption_at σ2 child = Some 600).
Proof.
  split.
  - intros fuel σ self t bytes Hr Hself Hb.
    destruct (try_consume_reachable fuel σ self t bytes Hr Hself Hb)
      as (Hσ & Htr & σ' & ok & events & Hrun & Hok & Hfail).
    exists σ', ok, events. split; [done|].
    split; [exact (tracked_alive _ _ _ Htr)|]. split.
    + intros a u Ha Hu. destruct ok.
      * destruct (Hok eq_refl) as [Hfits Hs].
        destruct (store_shifted_lookup _ _ _ _ _ Hs Hu) as (u' & Hu' & Hsu).
        exists u'. split; [done|].
        destruct (shifted_fields _ _ _ Hsu) as (Hlim & _).
        rewrite (occurrences_nodup _ _ (tracked_nodup _ _ _ Htr) Ha), Z.mul_1_l in Hsu.
        rewrite (shifted_consumption _ _ _ Hsu). unfold limit. rewrite Hlim.
        split; [done|]. split; [done|]. split.
        { intros Hmax. apply wrap64_id. destruct (Hσ a u Hu) as [_ Hc].
          unfold int64, INT64_MIN, INT64_MAX in *. lia. }
        intros Hl. by apply (Hfits a u).
      * destruct (Hfail eq_refl) as [_ Hs].
        destruct (store_shifted_lookup _ _ _ _ _ Hs Hu) as (u' & Hu' & Hsu).
        exists u'. split; [done|].
        destruct (shifted_fields _ _ _ Hsu) as (Hlim & _).
        rewrite (shifted_consumption _ _ _ Hsu), Z.add_0_r. unfold limit.
        split; [done|]. apply wrap64_id. by destruct (Hσ a u Hu).
    + intros a Ha. destruct ok.
      * destruct (Hok eq_refl) as [_ Hs].
        apply (store_shifted_unchanged _ _ _ _ Hσ Hs). cbv beta.
        by rewrite occurrences_not_in.
      * destruct (Hfail eq_refl) as [_ Hs].
        by apply (store_shifted_unchanged _ _ _ _ Hσ Hs).
  - eexists _, _, _, _. split; [reflexivity|]. split; [reflexivity|].
    split; reflexivity.
Qed.

Lemma try_consume_contract_witness :
  ∃ σ' ok events,
    try_consume 1 leaf 250 three_level_tree = Some (σ', ok, events) /\
    ok = true /\
    consumption_at σ' root = Some 250 /\
    consumption_at σ' mid = Some 250 /\
    consumption_at σ' leaf = Some 250.
Proof.
  eassert (Hleaf : three_level_tree !! leaf = Some _) by reflexivity.
  destruct (proj1 try_consume_contract 0%nat three_level_tree leaf _ 250
              reachable_three_level_tree Hleaf)
    as (σ' & ok & events & Hrun & _); [by_evaluation|].
  exists σ', ok, events. split; [exact Hrun|].
  vm_compute in Hrun. injection Hrun as <- <- <-.
  repeat split.
Defined.

(** C2, as stated, fails in the account it gives of its example.  On
    root(limit=1000) <- mid(limit=300) <- leaf(no limit), what
    [leaf.try_consume(400)] puts on the root goes through [try_add] against
    the root's limit of 1000: the root is not unlimited, and the add is not
    unconditional.  The walk ends at mid, before it reaches the only tracker
    without a limit, the leaf, so that the unconditional [add] is never
    executed in this call: after the call the high-water mark of the root
    shows the 400 bytes that were put on it and taken back, and no tracker
    without a limit shows any. *)
Lemma try_consume_rollback_counterexample :
  ∃ σ' events,
    try_consume 1 leaf 400 three_level_tree = Some (σ', false, events) /\
    has_limit <$> three_level_tree !! root = Some true /\
    (_consumption <$> three_level_tree !! root)
      ≫= try_add 400 1000 = Some (mkCounter 400 400) /\
    peak_consumption <$> σ' !! root = Some 400 /\
    filter (λ a, has_limit_at three_level_tree a = false) [leaf; mid; root]
      = [leaf] /\
    peak_consumption <$> σ' !! leaf = Some 0 /\
    ¬ (∃ a u u', three_level_tree !! a = Some u /\ has_limit u = false /\
                 σ' !! a = Some u' /\ 400 <= peak_consumption u').
Proof.
  eexists _, _. split; [reflexivity|].
  split; [reflexivity|]. split; [reflexivity|]. split; [reflexivity|].
  split; [reflexivity|]. split; [reflexivity|].
  intros (a & u & u' & Hu & Hno & Hu' & Hpeak).
  destruct (decide (a = root)) as [->|Hroot];
    [vm_compute in Hu; injection Hu as <-; done|].
  destruct (decide (a = mid)) as [->|Hmid];
    [vm_compute in Hu; injection Hu as <-; done|].
  destruct (decide (a = leaf)) as [->|Hleaf].
  - vm_compute in Hu'. injection Hu' as <-. vm_compute in Hpeak. done.
  - unfold three_level_tree, new_tracker in Hu.
    rewrite !lookup_insert_ne in Hu by done. by rewrite lookup_empty in Hu.
Qed.

(** C2 (rollback atomicity), amended.  In every store that the interface
    builds, [try_consume(bytes)] with [bytes > 0] returns false exactly when
    [bytes] more would cross the limit of some tracker of the chain, and then
    every tracker of the store is what it was before the call but for the
    peak of its counter: each consumption equals its value before the call.
    On root(limit=1000) <- mid(limit=300) <- leaf(no limit),
    [leaf.try_consume(400)] returns false with all three consumptions at 0;
    the 400 bytes that [try_add] had put on the root (whose peak still shows
    them) were taken back by the rollback loop, and the leaf, which has no
    limit, was never reached. *)
Theorem try_consume_rollback :
  (∀ fuel σ self t bytes,
     reachable σ -> σ !! self = Some t -> 0 < bytes <= INT64_MAX ->
     ∃ σ' ok events,
       try_consume (S fuel) self bytes σ = Some (σ', ok, events) /\
       (ok = false <-> ¬ fits σ (_all_trackers t) bytes) /\
       (ok = false ->
        ∀ a, consumption_at σ' a = consumption_at σ a /\
             option_Forall2 (λ u u', ∃ peak,
               u' = with_consumption (mkCounter (consumption u) peak) u)
               (σ !! a) (σ' !! a))) /\
  (∃ σ' events,
     try_consume 1 leaf 400 three_level_tree = Some (σ', false, events) /\
     consumption_at σ' root = Some 0 /\ consumption_at σ' mid = Some 0 /\
     consumption_at σ' leaf = Some 0 /\
     peak_consumption <$> σ' !! root = Some 400 /\
     peak_consumption <$> σ' !! mid = Some 0 /\
     peak_consumption <$> σ' !! leaf = Some 0).
Proof.
  split.
  - intros fuel σ self t bytes Hr Hself Hb.
    destruct (try_consume_reachable fuel σ self t bytes Hr Hself Hb)
      as (Hσ & Htr & σ' & ok & events & Hrun & Hok & Hfail).
    exists σ', ok, events. split; [done|]. split.
    + destruct ok.
      * split; [done|]. intros Hno. by destruct (Hok eq_refl).
      * split; [|done]. intros _. by destruct (Hfail eq_refl).
    + intros ->. destruct (Hfail eq_refl) as [_ Hs]. intros a. split.
      * by apply (store_shifted_unchanged _ _ _ _ Hσ Hs).
      * pose proof (Hs a) as Ha.
        destruct (σ !! a) as [u|] eqn:Hu;
          inversion Ha as [? u' [peak ->]|]; subst; constructor.
        exists peak. do 2 f_equal. rewrite Z.add_0_r. apply wrap64_id.
        by destruct (Hσ a u Hu).
  - eexists _, _. split; [reflexivity|]. repeat split.
Qed.

Lemma try_consume_rollback_witness :
  ∃ σ' ok events,
    try_consume 1 leaf 400 three_level_tree = Some (σ', ok, events) /\
    ok = false /\
    ∀ a, consumption_at σ' a = consumption_at three_level_tree a.
Proof.
  eassert (Hleaf : three_level_tree !! leaf = Some _) by reflexivity.
  destruct (proj1 try_consume_rollback 0%nat three_level_tree leaf _ 400
              reachable_three_level_tree Hleaf)
    as (σ' & ok & events & Hrun & _ & Hsame); [by_evaluation|].
  assert (Hok : ok = false).
  { vm_compute in Hrun. by injection Hrun as _ <- _. }
  exists σ', ok, events. split; [exact Hrun|]. split; [exact Hok|].
  intros a. exact (proj1 (Hsame Hok a)).
Defined.

(** ** Reclamation with callbacks that release memory *)



(** The callback loop of [GcMemory] calls every callback once, in
    registration order, each with [current - max_consumption] for the
    consumption that the callbacks before it have left. *)
Lemma run_gc_functions_spec fuel self max_consumption fs : ∀ index σ t,
  well_typed σ -> closed σ -> σ !! self = Some t ->
  (∀ f n x b, f ∈ fs -> (x, b) ∈ f n -> negatable b /\ is_Some (σ !! x)) ->
  ∃ σ' currents,
    run_gc_functions (S (S fuel)) self max_consumption index fs σ
      = Some (σ', calls_of self max_consumption index currents) /\
    gc_round (S (S fuel)) self max_consumption fs σ currents σ' /\
    same_shape σ σ' /\ well_typed σ'.
Proof.
  induction fs as [|f fs IH]; intros index σ t Hσ Hc Ht Hfs.
  - exists σ, []. split; [done|]. split; [constructor|].
    split; [apply same_shape_refl | done].
  - cbn [run_gc_functions]. rewrite Ht. cbn [mbind option_bind].
    destruct (release_each_shape fuel
                (f (sub64 (consumption t) max_consumption)) σ Hσ Hc)
      as (σ1 & Hrel & H1 & Hσ1).
    { apply Forall_forall. intros [x b] Hx. simpl.
      eapply Hfs; [by left | done]. }
    rewrite Hrel. cbn [mbind option_bind].
    destruct (same_shape_lookup _ _ _ _ H1 Ht) as (t1 & Ht1 & _).
    destruct (IH (S index) σ1 t1 Hσ1) as (σ2 & currents & -> & Hround & H2 & Hσ2);
      [by eapply same_shape_closed | done | |].
    { intros g n x b Hg Hx. destruct (Hfs g n x b) as [Hb Hlive]; [by right | done |].
      split; [done|]. by eapply same_shape_alive. }
    cbn [mbind option_bind].
    exists σ2, (consumption t :: currents). split; [done|].
    split; [by econstructor|]. split; [by eapply same_shape_trans | done].
Qed.

(** [GcMemory]: nothing happens when the consumption is low enough already;
    otherwise one round of callbacks runs and the consumption is compared
    again. *)
Lemma GcMemory_spec fuel self max_consumption σ t :
  well_typed σ -> closed σ -> gc_sound σ -> σ !! self = Some t ->
  (consumption t <= max_consumption ->
   GcMemory fuel self max_consumption σ
     = Some (σ, false, [GcReturn self max_consumption false])) /\
  (max_consumption < consumption t ->
   ∃ σ' t' currents,
     GcMemory (S (S fuel)) self max_consumption σ
       = Some (σ', max_consumption <? consumption t',
               calls_of self max_consumption 0 currents
                 ++ [GcReturn self max_consumption
                       (max_consumption <? consumption t')]) /\
     gc_round (S (S fuel)) self max_consumption (_gc_functions t) σ currents σ' /\
     σ' !! self = Some t' /\ same_shape σ σ' /\ well_typed σ').
Proof.
  intros Hσ Hc Hg Ht. unfold GcMemory. rewrite Ht. cbn [mbind option_bind].
  split; intros Hcmp.
  - by destruct (Z.leb_spec (consumption t) max_consumption); [|lia].
  - destruct (Z.leb_spec (consumption t) max_consumption); [lia|].
    destruct (run_gc_functions_spec fuel self max_consumption (_gc_functions t)
                0%nat σ t Hσ Hc Ht)
      as (σ' & currents & -> & Hround & H' & Hσ').
    { intros f n x b Hf Hx. by eapply Hg. }
    cbn [mbind option_bind].
    destruct (same_shape_lookup _ _ _ _ H' Ht) as (t' & Ht' & _).
    rewrite Ht'. cbn [mbind option_bind].
    by exists σ', t', currents.
Qed.

(** The [while (true)] loop runs [GcMemory] at most once: when it reports
    that the consumption is low enough, the second [try_add] succeeds. *)
Lemma try_add_loop_spec fuel a bytes σ t :
  well_typed σ -> closed σ -> gc_sound σ -> σ !! a = Some t ->
  0 <= limit t -> 0 < bytes <= INT64_MAX ->
  ∃ σ' ok events,
    try_add_loop (S (S (S fuel))) a bytes (limit t) σ = Some (σ', ok, events) /\
    same_shape σ σ' /\ well_typed σ' /\
    ((∃ c, try_add bytes (limit t) (_consumption t) = Some c /\
           σ' = <[a := with_consumption c t]> σ /\ events = [] /\ ok = true) \/
     (try_add bytes (limit t) (_consumption t) = None /\
      ∃ currents σ1 u1,
        gc_round (S (S fuel)) a (limit t - bytes) (_gc_functions t) σ currents σ1 /\
        σ1 !! a = Some u1 /\
        ((consumption u1 <= limit t - bytes /\
          ∃ c, try_add bytes (limit t) (_consumption u1) = Some c /\
               σ' = <[a := with_consumption c u1]> σ1 /\
               events = calls_of a (limit t - bytes) 0 currents
                          ++ [GcReturn a (limit t - bytes) false] /\
               ok = true) \/
         (limit t - bytes < consumption u1 /\ σ' = σ1 /\
          events = calls_of a (limit t - bytes) 0 currents
                     ++ [GcReturn a (limit t - bytes) true] /\
          ok = false)))).
Proof.
  intros Hσ Hc Hg Ht Hlim Hb.
  destruct (Hσ a t Ht) as [Hl Hcur].
  assert (Hmax : sub64 (limit t) bytes = limit t - bytes).
  { apply sub64_exact. unfold int64, limit, INT64_MAX, INT64_MIN in *. lia. }
  cbn [try_add_loop]. rewrite Ht. cbn [mbind option_bind].
  destruct (try_add bytes (limit t) (_consumption t)) as [c|] eqn:Hadd.
  - eexists _, true, []. split; [done|].
    assert (Hc' : int64 (current_value c)).
    { unfold try_add in Hadd.
      destruct (limit t <? add64 (current_value (_consumption t)) bytes); [done|].
      injection Hadd as <-. apply wrap64_int64. }
    destruct (insert_counter_shape σ a t c Hσ Ht Hc') as [H2 Hσ2].
    split; [done|]. split; [done|]. left. by exists c.
  - assert (Hover : limit t < add64 (consumption t) bytes).
    { unfold try_add in Hadd. fold (consumption t) in Hadd.
      by destruct (Z.ltb_spec (limit t) (add64 (consumption t) bytes)). }
    destruct (proj2 (GcMemory_spec fuel a (sub64 (limit t) bytes) σ t Hσ Hc Hg Ht))
      as (σ1 & t1 & currents & -> & Hround & Ht1 & H1 & Hσ1).
    { apply try_add_fails_over; try done. unfold int64, limit in *. lia. }
    cbn [mbind option_bind]. rewrite Hmax in *.
    destruct (Z.ltb_spec (limit t - bytes) (consumption t1)) as [Hstill|Hlow].
    + exists σ1, false, (calls_of a (limit t - bytes) 0 currents
                          ++ [GcReturn a (limit t - bytes) true]).
      split; [done|]. split; [done|]. split; [done|].
      right. split; [done|]. exists currents, σ1, t1.
      split; [done|]. split; [done|]. by right.
    + cbn [try_add_loop]. rewrite Ht1. cbn [mbind option_bind].
      destruct (Hσ1 a t1 Ht1) as [_ Hcur1].
      assert (Hexact : add64 (consumption t1) bytes = consumption t1 + bytes).
      { apply add64_exact. unfold int64, limit, INT64_MAX, INT64_MIN in *. lia. }
      assert (Hadd1 : try_add bytes (limit t) (_consumption t1)
                = Some {| current_value := add64 (consumption t1) bytes;
                          value := Z.max (value (_consumption t1))
                                         (add64 (consumption t1) bytes) |}).
      { unfold try_add. fold (consumption t1).
        by destruct (Z.ltb_spec (limit t) (add64 (consumption t1) bytes)); [lia|]. }
      rewrite Hadd1. cbn [mbind option_bind].
      eexists _, true, _. split; [done|].
      destruct (insert_counter_shape σ1 a t1
        {| current_value := add64 (consumption t1) bytes;
           value := Z.max (value (_consumption t1))
                          (add64 (consumption t1) bytes) |} Hσ1 Ht1)
        as [H2 Hσ2]; [apply wrap64_int64|].
      split; [by eapply same_shape_trans|]. split; [done|].
      right. split; [done|]. exists currents, σ1, t1.
      split; [done|]. split; [done|]. left. split; [done|].
      eexists. split; [exact Hadd1|]. split; [done|]. split; [|done].
      by rewrite app_nil_r.
Qed.

Lemma rollback_shape chain bytes i : ∀ n σ,
  (n <= length chain)%nat -> well_typed σ ->
  Forall (λ a, is_Some (σ !! a)) chain ->
  ∃ σ', rollback chain bytes i n σ = Some σ' /\ same_shape σ σ' /\ well_typed σ'.
Proof.
  induction n as [|j IH]; intros σ Hn Hσ Halive; simpl.
  - exists σ. split; [done|]. split; [apply same_shape_refl | done].
  - destruct (Nat.ltb_spec i j).
    + destruct (lookup_lt_is_Some_2 chain j) as [a Ha]; [lia|]. rewrite Ha. simpl.
      destruct (update_consumption_shape (add (neg64 bytes)) a σ)
        as (σ1 & -> & H1 & Hσ1); [intros c; apply wrap64_int64 | done | |].
      { eapply Forall_forall in Halive; [done|]. by eapply list_elem_of_lookup_2. }
      simpl. destruct (IH σ1) as (σ2 & -> & H2 & Hσ2); [lia | done | |].
      { eapply Forall_impl; [exact Halive|]. intros x. by apply same_shape_alive. }
      exists σ2. split; [done|]. split; [by eapply same_shape_trans | done].
    + exists σ. split; [done|]. split; [apply same_shape_refl | done].
Qed.

(** The outer loop follows the reclamation protocol on the trackers it
    visits, from index [n - 1] down to 0. *)
Lemma try_consume_loop_trace fuel chain bytes σ0 :
  closed σ0 -> gc_sound σ0 -> Forall (λ a, is_Some (σ0 !! a)) chain ->
  0 < bytes <= INT64_MAX ->
  ∀ n σ, (n <= length chain)%nat -> same_shape σ0 σ -> well_typed σ ->
    ∃ σ' ok events,
      try_consume_loop (S (S (S fuel))) chain bytes n σ = Some (σ', ok, events) /\
      same_shape σ0 σ' /\ well_typed σ' /\
      reserve_trace (S (S fuel)) bytes σ (reverse (take n chain)) events ok.
Proof.
  intros Hc0 Hg0 Halive Hb. remember (S (S (S fuel))) as fuel3 eqn:Hfuel.
  induction n as [|i IH]; intros σ Hn H Hσ.
  - exists σ, true, []. split; [done|]. split; [done|]. split; [done|]. constructor.
  - destruct (lookup_lt_is_Some_2 chain i) as [a Ha]; [lia|].
    assert (Hin : a ∈ chain) by by eapply list_elem_of_lookup_2.
    destruct (proj1 (Forall_forall _ _) Halive a Hin) as [t0 Ht0].
    destruct (same_shape_lookup _ _ _ _ H Ht0) as (t & Ht & Hr).
    rewrite (take_S_r _ _ _ Ha), reverse_app. simpl.
    cbn [try_consume_loop]. rewrite Ha. cbn [mbind option_bind]. rewrite Ht.
    cbn [mbind option_bind].
    assert (Hc : closed σ) by by eapply same_shape_closed.
    assert (Hg : gc_sound σ) by by eapply same_shape_gc_sound.
    destruct (Z.ltb_spec (limit t) 0) as [Hno|Hlimit].
    + unfold update_consumption. rewrite Ht. cbn [mbind option_bind].
      destruct (insert_counter_shape σ a t (add bytes (_consumption t)) Hσ Ht)
        as [H1 Hσ1]; [apply wrap64_int64|].
      destruct (IH (<[a := with_consumption (add bytes (_consumption t)) t]> σ))
        as (σ' & ok & events & -> & H' & Hσ' & Htrace);
        [lia | by eapply same_shape_trans | done |].
      exists σ', ok, events. split; [done|]. split; [done|]. split; [done|].
      eapply reserve_charged; [exact Ht | | exact Htrace].
      by destruct (Z.ltb_spec (limit t) 0); [|lia].
    + destruct (try_add_loop_spec fuel a bytes σ t Hσ Hc Hg Ht Hlimit Hb)
        as (σ1 & ok1 & events1 & Hloop & H1 & Hσ1 & Hcase).
      rewrite <- Hfuel in Hloop. rewrite Hloop.
      cbn [mbind option_bind].
      assert (H01 : same_shape σ0 σ1) by by eapply same_shape_trans.
      destruct Hcase as
        [(c & Hadd & -> & -> & ->)
        |(Hadd & currents & σ2 & u1 & Hround & Hu1 &
          [(Hlow & c & Hadd1 & -> & -> & ->) | (Hstill & -> & -> & ->)])].
      * destruct (IH (<[a := with_consumption c t]> σ))
          as (σ' & ok & events & -> & H' & Hσ' & Htrace); [lia | done | done |].
        cbn [mbind option_bind].
        exists σ', ok, events. split; [done|]. split; [done|]. split; [done|].
        eapply reserve_charged; [exact Ht | | exact Htrace].
        by destruct (Z.ltb_spec (limit t) 0); [lia|].
      * destruct (IH (<[a := with_consumption c u1]> σ2))
          as (σ' & ok & events & -> & H' & Hσ' & Htrace); [lia | done | done |].
        cbn [mbind option_bind].
        eexists σ', ok, _. split; [done|]. split; [done|]. split; [done|].
        rewrite <- app_assoc. simpl. by eapply reserve_reclaimed.
      * destruct (rollback_shape chain bytes i (length chain) σ2)
          as (σ' & -> & H' & Hσ'); [done | done | |].
        { eapply Forall_impl; [exact Halive|]. intros x. by apply same_shape_alive. }
        cbn [mbind option_bind].
        eexists σ', false, _. split; [done|].
        split; [by eapply same_shape_trans|]. split; [done|].
        by eapply reserve_denied.
Qed.

(** *** What the protocol implies for a trace *)











(** [try_consume] with callbacks that release memory: it returns, moves
    counters only, and follows the reclamation protocol along its chain,
    from the store that the refresh of a metered tracker leaves. *)
Lemma try_consume_trace fuel σ self t bytes :
  well_typed σ -> closed σ -> gc_sound σ -> σ !! self = Some t ->
  0 < bytes <= INT64_MAX ->
  ∃ σ1 σ' ok events,
    match _consumption_metric t with
    | Some _ => RefreshConsumptionFromMetric self σ
    | None => Some σ
    end = Some σ1 /\
    try_consume (S (S (S fuel))) self bytes σ = Some (σ', ok, events) /\
    same_shape σ σ' /\ well_typed σ' /\
    reserve_trace (S (S fuel)) bytes σ1 (reverse (_all_trackers t)) events ok.
Proof.
  intros Hσ Hc Hg Hself Hb. unfold try_consume.
  destruct (Z.leb_spec bytes 0); [lia|]. rewrite Hself. cbn [mbind option_bind].
  assert (Hstart : ∃ σ1,
    match _consumption_metric t with
    | Some _ => RefreshConsumptionFromMetric self σ
    | None => Some σ
    end = Some σ1 /\ same_shape σ σ1 /\ well_typed σ1).
  { destruct (_consumption_metric t) as [m|] eqn:Hm.
    - apply (refresh_shape _ _ t); [done | done |]. rewrite Hm. by eexists.
    - exists σ. split; [done|]. split; [apply same_shape_refl | done]. }
  destruct Hstart as (σ1 & Hstart & H1 & Hσ1). rewrite Hstart.
  cbn [mbind option_bind].
  destruct (try_consume_loop_trace fuel (_all_trackers t) bytes σ Hc Hg
              (Hc self t Hself) Hb (length (_all_trackers t)) σ1)
    as (σ' & ok & events & -> & H' & Hσ' & Htrace); [done..|].
  rewrite firstn_all in Htrace. by exists σ1, σ', ok, events.
Qed.

(** *** Other threads *)

Lemma try_add_loop_among_alone fuel : ∀ a bytes lim round σ,
  try_add_loop_among (λ _, []) fuel a bytes lim round σ
  = try_add_loop fuel a bytes lim σ.
Proof.
  induction fuel as [|fuel IH]; intros a bytes lim round σ; [done|].
  cbn [try_add_loop_among try_add_loop].
  destruct (σ !! a) as [t|]; [|done]. cbn [mbind option_bind].
  destruct (try_add bytes lim (_consumption t)); [done|].
  destruct (GcMemory fuel a (sub64 lim bytes) σ) as [[[σ1 over] calls]|]; [|done].
  cbn [mbind option_bind]. destruct over; [done|].
  cbn [run_calls mbind option_bind]. by rewrite IH.
Qed.

Lemma try_consume_loop_among_alone fuel chain bytes : ∀ n σ,
  try_consume_loop_among alone fuel chain bytes n σ
  = try_consume_loop fuel chain bytes n σ.
Proof.
  induction n as [|i IH]; intros σ; [done|].
  cbn [try_consume_loop_among try_consume_loop].
  destruct (chain !! i) as [a|]; [|done]. cbn [mbind option_bind].
  destruct (σ !! a) as [t|]; [|done]. cbn [mbind option_bind].
  destruct (limit t <? 0).
  - destruct (update_consumption (add bytes) a σ); [|done].
    cbn [mbind option_bind]. apply IH.
  - unfold alone at 1. rewrite try_add_loop_among_alone.
    destruct (try_add_loop fuel a bytes (limit t) σ) as [[[σ1 ok] calls]|]; [|done].
    cbn [mbind option_bind]. destruct ok; [|done]. by rewrite IH.
Qed.

(** With no other thread the definitions with an interleaving point are
    the sequential ones. *)
Lemma try_consume_among_alone fuel self bytes σ :
  try_consume_among alone fuel self bytes σ = try_consume fuel self bytes σ.
Proof.
  unfold try_consume_among, try_consume. destruct (bytes <=? 0); [done|].
  destruct (σ !! self) as [t|]; [|done]. cbn [mbind option_bind].
  destruct (match _consumption_metric t with
            | Some _ => RefreshConsumptionFromMetric self σ
            | None => Some σ
            end); [|done].
  cbn [mbind option_bind]. apply try_consume_loop_among_alone.
Qed.

(** *** The protocol *)




(** The limited chain is a matter of limits and chains, which the charge,
    release and reserve paths never write: whatever only moves counters,
    reclamation included, keeps its invariant. *)
Lemma same_shape_limit_chain σ0 σ self :
  same_shape σ0 σ ->
  limit_chain_invariant σ0 self -> limit_chain_invariant σ self.
Proof.
  intros H Hinv t Ht.
  destruct (same_shape_lookup_r _ _ _ _ H Ht) as (t0 & Ht0 & [c ->]).
  simpl. rewrite (Hinv t0 Ht0). apply list_filter_iff. intros a.
  unfold has_limit_at. specialize (H a).
  destruct H as [u0 u [c' ->]|]; done.
Qed.

Lemma try_consume_limit_chain fuel σ self t bytes x :
  well_typed σ -> closed σ -> gc_sound σ -> σ !! self = Some t ->
  0 < bytes <= INT64_MAX -> limit_chain_invariant σ x ->
  ∃ σ' ok events,
    try_consume (S (S (S fuel))) self bytes σ = Some (σ', ok, events) /\
    limit_chain_invariant σ' x.
Proof.
  intros Hσ Hc Hg Hself Hb Hinv.
  destruct (try_consume_trace fuel σ self t bytes Hσ Hc Hg Hself Hb)
    as (σ1 & σ' & ok & events & _ & Hrun & Hshape & _).
  exists σ', ok, events. split; [done|]. by eapply same_shape_limit_chain.
Qed.

(** * Further properties of the tracker *)

(** ** Local transfer, there and back *)

Lemma before_nodup e l : NoDup l -> NoDup (before e l).
Proof.
  induction 1 as [|x l Hx Hnd IH]; simpl; [constructor|].
  destruct (decide (Some x = e)); [constructor|].
  apply NoDup_cons. split; [|done]. intros H. by apply before_sublist in H.
Qed.

Lemma before_excludes_end e l : e ∉ before (Some e) l.
Proof.
  induction l as [|x l IH]; simpl; [apply not_elem_of_nil|].
  destruct (decide (Some x = Some e)) as [|Hne]; [apply not_elem_of_nil|].
  apply not_elem_of_cons. split; [|done]. intros ->. done.
Qed.

(** [consume_local] as a shift of counters. *)
Lemma consume_local_shifted self bytes end_tracker d σ0 σ t0 :
  σ0 !! self = Some t0 -> NoDup (_all_trackers t0) ->
  Forall (λ a, is_Some (σ0 !! a)) (_all_trackers t0) ->
  store_shifted d σ0 σ ->
  ∃ σ' log,
    consume_local self bytes end_tracker σ = Some (σ', log) /\
    store_shifted
      (λ x, d x + occurrences x (before end_tracker (_all_trackers t0)) * bytes)
      σ0 σ'.
Proof.
  intros Ht0 Hnd Halive H.
  destruct (store_shifted_lookup _ _ _ _ _ H Ht0) as (t & Ht & Hs).
  destruct (shifted_fields _ _ _ Hs) as (_ & _ & _ & Hall & _).
  unfold consume_local. rewrite Ht. cbn [mbind option_bind]. rewrite Hall.
  destruct (consume_local_loop_spec bytes end_tracker (_all_trackers t0) σ)
    as (σ' & log & -> & Hadd & _); [|done|].
  { eapply Forall_impl; [exact Halive|]. intros a [u0 Hu0].
    destruct (store_shifted_lookup _ _ _ _ _ H Hu0) as (u & -> & _). by eexists. }
  cbn [mbind option_bind].
  destruct (add_all_shifted bytes (before end_tracker (_all_trackers t0)) d σ0 σ H)
    as (σ'' & Hadd' & H').
  { apply Forall_forall. intros a Ha. apply before_sublist in Ha.
    by eapply Forall_forall in Halive. }
  rewrite Hadd in Hadd'. injection Hadd' as <-. by eexists _, _.
Qed.

(** X1.  A local charge undone by the matching local release, towards the
    same [end_tracker], leaves every consumption of the store as it was,
    whatever [bytes] and wherever (or whether) [end_tracker] is in the
    chain. *)
Theorem consume_local_release_local self bytes end_tracker σ t :
  well_typed σ -> tracked σ self t ->
  ∃ σ1 log1 σ2 log2,
    consume_local self bytes end_tracker σ = Some (σ1, log1) /\
    release_local self bytes end_tracker σ1 = Some (σ2, log2) /\
    ∀ a, consumption_at σ2 a = consumption_at σ a.
Proof.
  intros Hσ [Hself Hnd Halive].
  destruct (consume_local_shifted self bytes end_tracker (λ _, 0) σ σ t
              Hself Hnd Halive (store_shifted_refl σ Hσ)) as (σ1 & log1 & Hrun1 & H1).
  destruct (consume_local_shifted self (neg64 bytes) end_tracker _ σ σ1 t
              Hself Hnd Halive H1) as (σ2 & log2 & Hrun2 & H2).
  exists σ1, log1, σ2, log2. split; [done|]. split; [done|].
  intros a. eapply (store_shifted_unchanged (λ _, 0)); [done | | done].
  eapply store_shifted_mod; [|exact H2]. intros x. cbv beta.
  unfold neg64. rewrite Z.add_0_l.
  destruct (decide (x ∈ before end_tracker (_all_trackers t))) as [Hx|Hx].
  - rewrite (occurrences_nodup _ _ (before_nodup _ _ Hnd) Hx), !Z.mul_1_l.
    rewrite wrap64_add_r. f_equal. lia.
  - rewrite (occurrences_not_in _ _ Hx). done.
Qed.

Lemma consume_local_release_local_witness :
  ∃ σ1 log1 σ2 log2,
    consume_local leaf 70 (Some root) three_level_tree = Some (σ1, log1) /\
    release_local leaf 70 (Some root) σ1 = Some (σ2, log2) /\
    ∀ a, consumption_at σ2 a = consumption_at three_level_tree a.
Proof.
  eassert (Htracked : tracked three_level_tree leaf _) by tracked_by_evaluation.
  assert (Htyped : well_typed three_level_tree) by by_evaluation.
  exact (consume_local_release_local leaf 70 (Some root) three_level_tree _
           Htyped Htracked).
Defined.

(** X2.  Moving [bytes] from one tracker to another below a common
    [end_tracker]: after [from.release_local(bytes, end)] and
    [to.consume_local(bytes, end)] the trackers of [from]'s chain before
    [end] hold [bytes] less, those of [to]'s chain before [end] hold [bytes]
    more, and every other tracker, [end] and its ancestors among them, holds
    what it held. *)
Theorem local_transfer from to bytes end_tracker σ tf tt :
  well_typed σ -> tracked σ from tf -> tracked σ to tt ->
  ∃ σ1 log1 σ2 log2,
    release_local from bytes end_tracker σ = Some (σ1, log1) /\
    consume_local to bytes end_tracker σ1 = Some (σ2, log2) /\
    ∀ a u, σ !! a = Some u ->
      let left := before end_tracker (_all_trackers tf) in
      let entered := before end_tracker (_all_trackers tt) in
      (a ∈ left -> a ∉ entered ->
         consumption_at σ2 a = Some (sub64 (consumption u) bytes)) /\
      (a ∉ left -> a ∈ entered ->
         consumption_at σ2 a = Some (add64 (consumption u) bytes)) /\
      ((a ∈ left <-> a ∈ entered) ->
         consumption_at σ2 a = Some (consumption u)) /\
      (end_tracker = Some a -> consumption_at σ2 a = Some (consumption u)).
Proof.
  intros Hσ [Hf Hndf Halivef] [Ht Hndt Halivet].
  destruct (consume_local_shifted from (neg64 bytes) end_tracker (λ _, 0) σ σ tf
              Hf Hndf Halivef (store_shifted_refl σ Hσ)) as (σ1 & log1 & Hrun1 & H1).
  destruct (consume_local_shifted to bytes end_tracker _ σ σ1 tt
              Ht Hndt Halivet H1) as (σ2 & log2 & Hrun2 & H2).
  exists σ1, log1, σ2, log2. split; [done|]. split; [done|].
  intros a u Hu left entered.
  assert (Hc : consumption_at σ2 a
    = Some (wrap64 (consumption u + (0 + occurrences a left * neg64 bytes
                                     + occurrences a entered * bytes)))).
  { rewrite (store_shifted_consumption _ _ _ a H2). unfold consumption_at.
    by rewrite Hu. }
  assert (Hin : ∀ l, NoDup l ->
    occurrences a l = if decide (a ∈ l) then 1 else 0).
  { intros l Hl. destruct (decide (a ∈ l)).
    - by apply occurrences_nodup.
    - by apply occurrences_not_in. }
  rewrite (Hin left), (Hin entered) in Hc by by apply before_nodup.
  assert (Hsame : wrap64 (consumption u) = consumption u).
  { apply wrap64_id. by destruct (Hσ a u Hu). }
  assert (Hboth : wrap64 (consumption u + (0 + 1 * neg64 bytes + 1 * bytes))
                  = consumption u).
  { rewrite <- Hsame at 2. unfold neg64.
    replace (consumption u + (0 + 1 * wrap64 (- bytes) + 1 * bytes))
      with ((consumption u + bytes) + wrap64 (- bytes)) by lia.
    rewrite wrap64_add_r. f_equal. lia. }
  assert (Hnone : wrap64 (consumption u + (0 + 0 * neg64 bytes + 0 * bytes))
                  = consumption u).
  { rewrite <- Hsame at 2. f_equal. lia. }
  repeat split.
  - intros Hl He. rewrite Hc, decide_True, decide_False by done.
    f_equal. unfold sub64, neg64.
    replace (consumption u + (0 + 1 * wrap64 (- bytes) + 0 * bytes))
      with (consumption u + wrap64 (- bytes)) by lia.
    rewrite wrap64_add_r. f_equal.
  - intros Hl He. rewrite Hc, decide_False, decide_True by done.
    f_equal. unfold add64. f_equal. lia.
  - intros Hiff. rewrite Hc. destruct (decide (a ∈ left)) as [Hl|Hl].
    + rewrite decide_True by by apply Hiff. by rewrite Hboth.
    + rewrite decide_False by (intros He; by apply Hl, Hiff). by rewrite Hnone.
  - intros ->. rewrite Hc, !decide_False by apply before_excludes_end.
    by rewrite Hnone.
Qed.

Lemma local_transfer_witness :
  ∃ σ0 σ1 log1 σ2 log2,
    consume 1 child 50 sibling_tree = Some σ0 /\
    release_local child 50 (Some root) σ0 = Some (σ1, log1) /\
    consume_local sibling 50 (Some root) σ1 = Some (σ2, log2) /\
    consumption_at σ2 child = Some 0 /\
    consumption_at σ2 sibling = Some 50 /\
    consumption_at σ2 root = Some 50.
Proof.
  eexists. eassert (Hcharged : consume 1 child 50 sibling_tree = Some _)
    by reflexivity.
  match type of Hcharged with _ = Some ?σ0 =>
    eassert (Hfrom : tracked σ0 child _) by tracked_by_evaluation;
    eassert (Hto : tracked σ0 sibling _) by tracked_by_evaluation;
    assert (Htyped : well_typed σ0) by by_evaluation;
    destruct (local_transfer child sibling 50 (Some root) σ0 _ _
                Htyped Hfrom Hto) as (σ1 & log1 & σ2 & log2 & Hrun1 & Hrun2 & _)
  end.
  exists σ1, log1, σ2, log2.
  split; [exact Hcharged|]. split; [exact Hrun1|]. split; [exact Hrun2|].
  vm_compute in Hrun1. injection Hrun1 as <- <-.
  vm_compute in Hrun2. injection Hrun2 as <- <-.
  repeat split.
Defined.

(** ** Queries over the limited chain *)

Lemma find_exceeded_spec l σ :
  Forall (λ a, is_Some (σ !! a)) l ->
  ∃ found,
    find_exceeded l σ = Some found /\
    any_exceeded l σ = Some (match found with Some _ => true | None => false end) /\
    match found with
    | Some a =>
        ∃ k u, l !! k = Some a /\ σ !! a = Some u /\ limit_exceeded u = true /\
               ∀ j b v, (j < k)%nat -> l !! j = Some b -> σ !! b = Some v ->
                        limit_exceeded v = false
    | None => ∀ a u, a ∈ l -> σ !! a = Some u -> limit_exceeded u = false
    end.
Proof.
  induction l as [|x l IH]; intros Hl; simpl.
  - exists None. split; [done|]. split; [done|]. intros a u Ha.
    by apply elem_of_nil in Ha.
  - inversion Hl as [|? ? [tx Htx] Hl']; subst. rewrite Htx. simpl.
    destruct (limit_exceeded tx) eqn:Hx.
    + exists (Some x). split; [done|]. split; [done|].
      exists 0%nat, tx. split; [done|]. split; [done|]. split; [done|].
      intros j b v Hj. lia.
    + destruct (IH Hl') as (found & -> & -> & Hfound).
      exists found. split; [done|]. split; [done|]. destruct found as [a|].
      * destruct Hfound as (k & u & Hk & Hu & Hex & Hbefore).
        exists (S k), u. split; [done|]. split; [done|]. split; [done|].
        intros [|j] b v Hj Hb Hv; simpl in Hb.
        { simplify_eq. done. }
        eapply Hbefore; [|done..]. lia.
      * intros a u Ha Hu. apply elem_of_cons in Ha as [->|Ha].
        { by simplify_eq. }
        by eapply Hfound.
Qed.

(** X3.  [find_limit_exceeded_tracker] returns the first tracker of the
    limited chain that is over its limit, and null when none is;
    [any_limit_exceeded] answers true exactly when it returns a tracker. *)
Theorem find_limit_exceeded_tracker_first self σ t :
  σ !! self = Some t ->
  Forall (λ a, is_Some (σ !! a)) (_limit_trackers t) ->
  ∃ found,
    find_limit_exceeded_tracker self σ = Some found /\
    any_limit_exceeded self σ
      = Some (match found with Some _ => true | None => false end) /\
    match found with
    | Some a =>
        ∃ k u, _limit_trackers t !! k = Some a /\ σ !! a = Some u /\
               0 <= limit u < consumption u /\
               ∀ j b v, (j < k)%nat -> _limit_trackers t !! j = Some b ->
                        σ !! b = Some v -> limit_exceeded v = false
    | None => ∀ a u, a ∈ _limit_trackers t -> σ !! a = Some u ->
                     limit_exceeded u = false
    end.
Proof.
  intros Hself Halive. unfold find_limit_exceeded_tracker, any_limit_exceeded.
  rewrite Hself. simpl.
  destruct (find_exceeded_spec _ σ Halive) as (found & Hfind & Hany & Hfound).
  exists found. split; [done|]. split; [done|].
  destruct found as [a|]; [|done].
  destruct Hfound as (k & u & Hk & Hu & Hex & Hbefore).
  exists k, u. split; [done|]. split; [done|]. split; [|done].
  unfold limit_exceeded, limit in *. apply andb_true_iff in Hex as [H1 H2].
  apply Z.leb_le in H1. apply Z.ltb_lt in H2. lia.
Qed.

Lemma find_limit_exceeded_tracker_first_witness :
  find_limit_exceeded_tracker leaf overdrawn_tree = Some (Some mid) /\
  any_limit_exceeded leaf overdrawn_tree = Some true.
Proof.
  eassert (Hself : overdrawn_tree !! leaf = Some _) by reflexivity.
  destruct (find_limit_exceeded_tracker_first leaf overdrawn_tree _ Hself)
    as (found & Hfind & Hany & _); [by_evaluation|].
  rewrite Hany, Hfind.
  assert (Hfound : found = Some mid).
  { apply (inj Some). rewrite <- Hfind. reflexivity. }
  rewrite Hfound. split; reflexivity.
Defined.

Lemma lowest_limit_loop_spec l : ∀ v σ,
  Forall (λ a, is_Some (σ !! a)) l ->
  ∃ r, lowest_limit_loop l v σ = Some r /\ r <= v /\
       (∀ a u, a ∈ l -> σ !! a = Some u -> r <= limit u) /\
       (r = v \/ ∃ a u, a ∈ l /\ σ !! a = Some u /\ r = limit u).
Proof.
  induction l as [|x l IH]; intros v σ Hl; simpl.
  - exists v. split; [done|]. split; [lia|]. split; [|by left].
    intros a u Ha. by apply elem_of_nil in Ha.
  - inversion Hl as [|? ? [tx Htx] Hl']; subst. rewrite Htx. simpl.
    destruct (IH (Z.min v (limit tx)) σ Hl') as (r & -> & Hle & Hall & Hex).
    exists r. split; [done|]. split; [lia|]. split.
    + intros a u Ha Hu. apply elem_of_cons in Ha as [->|Ha].
      * simplify_eq. lia.
      * by eapply Hall.
    + destruct Hex as [->|(a & u & Ha & Hu & ->)].
      * destruct (Z.min_spec v (limit tx)) as [[_ ->]|[_ ->]]; [by left|].
        right. exists x, tx. split; [left|]; done.
      * right. exists a, u. split; [by right|]. done.
Qed.

(** X4.  [lowest_limit] is -1 on an empty limited chain; otherwise it is the
    least limit of the chain: one of them, and below all of them.  It is
    negative on a chain that is not empty only if some tracker of the chain
    has lost its limit. *)
Theorem lowest_limit_least self σ t :
  well_typed σ -> σ !! self = Some t ->
  Forall (λ a, is_Some (σ !! a)) (_limit_trackers t) ->
  ∃ r, lowest_limit self σ = Some r /\
       (_limit_trackers t = [] -> r = -1) /\
       (_limit_trackers t ≠ [] ->
          (∀ a u, a ∈ _limit_trackers t -> σ !! a = Some u -> r <= limit u) /\
          (∃ a u, a ∈ _limit_trackers t /\ σ !! a = Some u /\ r = limit u) /\
          ((∀ a u, a ∈ _limit_trackers t -> σ !! a = Some u ->
                   has_limit u = true) -> 0 <= r)).
Proof.
  intros Hσ Hself Halive. unfold lowest_limit. rewrite Hself. simpl.
  destruct (_limit_trackers t) as [|x l] eqn:Hl.
  - exists (-1). split; [done|]. split; [done|]. done.
  - destruct (lowest_limit_loop_spec (x :: l) INT64_MAX σ Halive)
      as (r & Hr & Hle & Hall & Hex).
    exists r. split; [exact Hr|]. split; [done|]. intros _.
    assert (Hattained : ∃ a u, a ∈ x :: l /\ σ !! a = Some u /\ r = limit u).
    { destruct Hex as [->|?]; [|done].
      inversion Halive as [|? ? [tx Htx] _]; subst.
      exists x, tx. split; [by left|]. split; [done|].
      pose proof (Hall x tx (list_elem_of_here _ _) Htx) as H1.
      destruct (Hσ x tx Htx) as [[_ H2] _]. unfold limit in *. lia. }
    split; [done|]. split; [done|].
    intros Hlimits. destruct Hattained as (a & u & Ha & Hu & ->).
    specialize (Hlimits a u Ha Hu). unfold has_limit, limit in *.
    by apply Z.leb_le in Hlimits.
Qed.

Lemma lowest_limit_least_witness :
  lowest_limit leaf three_level_tree = Some 300.
Proof.
  eassert (Hself : three_level_tree !! leaf = Some _) by reflexivity.
  assert (Htyped : well_typed three_level_tree) by by_evaluation.
  destruct (lowest_limit_least leaf three_level_tree _ Htyped Hself)
    as (r & Hr & _); [by_evaluation|].
  rewrite Hr. f_equal. apply (inj Some). rewrite <- Hr. reflexivity.
Defined.

(** ** Reservations and the queries *)

Lemma any_exceeded_none l σ :
  (∀ a, a ∈ l -> ∃ u, σ !! a = Some u /\ limit_exceeded u = false) ->
  any_exceeded l σ = Some false /\ find_exceeded l σ = Some None.
Proof.
  induction l as [|x l IH]; intros H; simpl; [done|].
  destruct (H x) as (u & Hu & Hx); [by left|]. rewrite Hu. simpl. rewrite Hx.
  apply IH. intros a Ha. apply H. by right.
Qed.

Lemma any_exceeded_some l σ a u :
  Forall (λ a, is_Some (σ !! a)) l ->
  a ∈ l -> σ !! a = Some u -> limit_exceeded u = true ->
  any_exceeded l σ = Some true.
Proof.
  induction l as [|x l IH]; intros Hl Ha Hu Hex; simpl.
  - by apply elem_of_nil in Ha.
  - inversion Hl as [|? ? [tx Htx] Hl']; subst. rewrite Htx. simpl.
    destruct (limit_exceeded tx) eqn:Hx; [done|].
    apply IH; try done. apply elem_of_cons in Ha as [->|Ha]; [|done].
    simplify_eq. congruence.
Qed.

(** X5.  A reservation that is granted leaves no limit exceeded: in every
    store that the interface builds, after [try_consume(bytes)] with
    [bytes > 0] returns true, [any_limit_exceeded] answers false and
    [find_limit_exceeded_tracker] returns null on the same tracker,
    whatever the counters and the limits were before. *)
Theorem try_consume_granted_within_limits fuel σ self t bytes :
  reachable σ -> σ !! self = Some t -> 0 < bytes <= INT64_MAX ->
  ∃ σ' ok events,
    try_consume (S fuel) self bytes σ = Some (σ', ok, events) /\
    (ok = true ->
     any_limit_exceeded self σ' = Some false /\
     find_limit_exceeded_tracker self σ' = Some None).
Proof.
  intros Hr Hself0 Hb.
  assert (Hsub : _limit_trackers t ⊆ _all_trackers t)
    by by destruct (reachable_sound σ Hr self t Hself0).
  destruct (try_consume_reachable fuel σ self t bytes Hr Hself0 Hb)
    as (Hσ & Htr & σ' & ok & events & Hrun & Hok & _).
  exists σ', ok, events. split; [done|]. intros ->.
  destruct (Hok eq_refl) as [Hfits Hs]. destruct Htr as [Hself Hnd Halive].
  destruct (store_shifted_lookup _ _ _ _ _ Hs Hself) as (t' & Ht' & Hst).
  destruct (shifted_fields _ _ _ Hst) as (_ & _ & _ & _ & Hlt & _).
  unfold any_limit_exceeded, find_limit_exceeded_tracker. rewrite Ht'. simpl.
  rewrite Hlt. apply any_exceeded_none. intros a Ha.
  assert (Hin : a ∈ _all_trackers t) by by apply Hsub.
  destruct (proj1 (Forall_forall _ _) Halive a Hin) as [u Hu].
  destruct (store_shifted_lookup _ _ _ _ _ Hs Hu) as (u' & Hu' & Hsu).
  exists u'. split; [done|].
  rewrite (occurrences_nodup _ _ Hnd Hin), Z.mul_1_l in Hsu.
  destruct (shifted_fields _ _ _ Hsu) as (Hlim & _).
  unfold limit_exceeded. rewrite (shifted_consumption _ _ _ Hsu), Hlim.
  destruct (Z.leb_spec 0 (_limit u)) as [Hl|Hl]; [|done]. simpl.
  apply Z.ltb_ge. by apply (Hfits a u).
Qed.

Lemma try_consume_granted_within_limits_witness :
  ∃ σ' events,
    try_consume 1 leaf 300 three_level_tree = Some (σ', true, events) /\
    any_limit_exceeded leaf σ' = Some false.
Proof.
  eassert (Hleaf : three_level_tree !! leaf = Some _) by reflexivity.
  destruct (try_consume_granted_within_limits 0%nat three_level_tree leaf _ 300
              reachable_three_level_tree Hleaf)
    as (σ' & ok & events & Hrun & Hgranted); [by_evaluation|].
  assert (Hok : ok = true).
  { vm_compute in Hrun. by injection Hrun as _ <- _. }
  subst ok. exists σ', events. split; [exact Hrun|]. exact (proj1 (Hgranted eq_refl)).
Defined.

(** X6.  [spare_capacity] is the largest reservation that is granted.  In a
    store that the interface has built, when the limited chain of the
    tracker is still its ancestor chain restricted to the trackers with a
    limit (no [set_limit] has made it stale), and the trackers under a limit
    hold a non-negative amount that [bytes] more would not overflow,
    [try_consume(bytes)] with [bytes > 0] returns true exactly when
    [bytes <= spare_capacity()]. *)
Theorem spare_capacity_is_admission_bound fuel σ self t bytes :
  reachable σ -> σ !! self = Some t -> 0 < bytes <= INT64_MAX ->
  limit_chain_invariant σ self ->
  (∀ a u, a ∈ _all_trackers t -> σ !! a = Some u -> 0 <= limit u ->
          0 <= consumption u /\ consumption u + bytes <= INT64_MAX) ->
  ∃ σ' ok events capacity,
    try_consume (S fuel) self bytes σ = Some (σ', ok, events) /\
    spare_capacity self σ = Some capacity /\
    (ok = true <-> bytes <= capacity).
Proof.
  intros Hr Hself0 Hb Hinv Hsane.
  destruct (try_consume_reachable fuel σ self t bytes Hr Hself0 Hb)
    as (Hσ & Htr & σ' & ok & events & Hrun & Hok & Hfail).
  destruct Htr as [Hself Hnd Halive].
  pose proof (Hinv t Hself) as Hlt.
  assert (Hmember : ∀ a, a ∈ _limit_trackers t <->
            a ∈ _all_trackers t /\ has_limit_at σ a = true).
  { intros a. rewrite Hlt. by rewrite list_elem_of_filter, (comm and). }
  assert (Hlive : Forall (λ a, is_Some (σ !! a)) (_limit_trackers t)).
  { apply Forall_forall. intros a Ha. apply Hmember in Ha as [Ha _].
    by eapply Forall_forall in Halive. }
  unfold spare_capacity. rewrite Hself. cbn [mbind option_bind].
  destruct (spare_capacity_loop_spec _ INT64_MAX σ Hlive)
    as (capacity & Hcap & Hle & Hall & Hex).
  exists σ', ok, events, capacity. split; [done|]. split; [done|].
  assert (Hexact : ∀ a u, a ∈ _all_trackers t -> σ !! a = Some u -> 0 <= limit u ->
    sub64 (limit u) (consumption u) = limit u - consumption u /\
    add64 (consumption u) bytes = consumption u + bytes).
  { intros a u Ha Hu Hl. destruct (Hsane a u Ha Hu Hl) as [H0 Hmax].
    destruct (Hσ a u Hu) as [[_ Hlmax] _]. unfold limit in *.
    split; [apply sub64_exact | apply add64_exact];
      unfold int64, INT64_MIN, INT64_MAX in *; lia. }
  assert (Hiff : fits σ (_all_trackers t) bytes <-> bytes <= capacity).
  { split.
    - intros Hfits. destruct Hex as [->|(a & u & Ha & Hu & ->)]; [lia|].
      apply Hmember in Ha as [Ha Hhas]. unfold has_limit_at in Hhas.
      rewrite Hu in Hhas. unfold has_limit in Hhas. apply Z.leb_le in Hhas.
      destruct (Hexact a u Ha Hu Hhas) as [-> Hadd].
      pose proof (Hfits a u Ha Hu Hhas) as Hfit. rewrite Hadd in Hfit. lia.
    - intros Hbytes a u Ha Hu Hl.
      destruct (Hexact a u Ha Hu Hl) as [Hsub ->].
      assert (Hlimited : a ∈ _limit_trackers t).
      { apply Hmember. split; [done|]. unfold has_limit_at. rewrite Hu.
        unfold has_limit. by apply Z.leb_le. }
      pose proof (Hall a u Hlimited Hu) as Hcapa. rewrite Hsub in Hcapa. lia. }
  rewrite <- Hiff. destruct ok.
  - split; [intros _; by destruct (Hok eq_refl) | done].
  - split; [done|]. intros Hfits. by destruct (Hfail eq_refl).
Qed.

Lemma spare_capacity_is_admission_bound_witness :
  ∃ σ' ok events,
    try_consume 1 leaf 300 three_level_tree = Some (σ', ok, events) /\
    spare_capacity leaf three_level_tree = Some 300 /\
    (ok = true <-> 300 <= 300).
Proof.
  eassert (Hleaf : three_level_tree !! leaf = Some _) by reflexivity.
  destruct (spare_capacity_is_admission_bound 0%nat three_level_tree leaf _ 300
              reachable_three_level_tree Hleaf)
    as (σ' & ok & events & capacity & Hrun & Hcap & Hiff);
    [by_evaluation | apply new_tracker_limit_chain | |].
  { intros a u Ha Hu _.
    repeat (apply elem_of_cons in Ha as [->|Ha]);
      [ .. | by apply elem_of_nil in Ha ];
      vm_compute in Hu; injection Hu as <-; vm_compute; split; discriminate. }
  assert (Hcapacity : capacity = 300).
  { apply (inj Some). rewrite <- Hcap. reflexivity. }
  subst capacity. by exists σ', ok, events.
Defined.

(** X7.  [consume] never refuses and does not look at limits.  In every
    store that the interface builds, [consume(bytes)] with [bytes > 0]
    returns, adds [bytes] (in 64-bit arithmetic) to every tracker of the
    ancestor chain and leaves every other tracker as it was.  The queries
    see the result through [_limit_trackers] only: afterwards
    [any_limit_exceeded] answers true when some tracker of the caller's
    [_limit_trackers] now holds more than its limit, and false when none of
    them does, whatever the other trackers of the chain hold. *)
Theorem consume_overdraws fuel σ self t bytes :
  reachable σ -> σ !! self = Some t -> 0 < bytes ->
  ∃ σ', consume (S fuel) self bytes σ = Some σ' /\
        (∀ a u, a ∈ _all_trackers t -> σ !! a = Some u ->
           σ' !! a = Some (with_consumption (add bytes (_consumption u)) u) /\
           consumption_at σ' a = Some (add64 (consumption u) bytes)) /\
        (∀ a, a ∉ _all_trackers t -> σ' !! a = σ !! a) /\
        ((∃ a u, a ∈ _limit_trackers t /\ σ !! a = Some u /\
                 0 <= limit u < add64 (consumption u) bytes) ->
         any_limit_exceeded self σ' = Some true) /\
        ((∀ a u, a ∈ _limit_trackers t -> σ !! a = Some u ->
                 ¬ (0 <= limit u < add64 (consumption u) bytes)) ->
         any_limit_exceeded self σ' = Some false).
Proof.
  intros Hr Hself0 Hb. pose proof (reachable_sound σ Hr) as Hsound.
  destruct (sound_tracked σ self t Hsound Hself0) as [Hself Hnd Halive].
  destruct (Hsound self t Hself0) as [_ _ _ _ _ Hsub Hm _].
  rewrite (consume_positive _ _ _ _ t) by done.
  destruct (add_all_lookup bytes _ σ Hnd Halive) as (σ' & -> & Hin & Hout).
  exists σ'. split; [done|].
  assert (Hself' : ∃ t', σ' !! self = Some t' /\ _limit_trackers t' = _limit_trackers t).
  { destruct (decide (self ∈ _all_trackers t)) as [Hs|Hs].
    - rewrite (Hin self t Hs Hself). by eexists.
    - rewrite (Hout self Hs). by eexists. }
  destruct Hself' as (t' & Hself' & Hlt).
  split; [|split; [done|split]].
  - intros a u Ha Hu. pose proof (Hin a u Ha Hu) as Hu'. split; [done|].
    unfold consumption_at. by rewrite Hu'.
  - intros (a & u & Ha & Hu & Hover).
    pose proof (Hin a u (Hsub a Ha) Hu) as Hu'.
    unfold any_limit_exceeded. rewrite Hself'. simpl. rewrite Hlt.
    eapply (any_exceeded_some _ _ a); [|done|exact Hu'|].
    + apply Forall_forall. intros x Hx.
      destruct (proj1 (Forall_forall _ _) Halive x (Hsub x Hx)) as [ux Hux].
      rewrite (Hin x ux (Hsub x Hx) Hux). by eexists.
    + unfold limit_exceeded, limit, consumption in *. simpl.
      apply andb_true_iff. split; [apply Z.leb_le | apply Z.ltb_lt]; lia.
  - intros Hnone.
    unfold any_limit_exceeded. rewrite Hself'. simpl. rewrite Hlt.
    apply any_exceeded_none. intros a Ha.
    destruct (proj1 (Forall_forall _ _) Halive a (Hsub a Ha)) as [u Hu].
    exists (with_consumption (add bytes (_consumption u)) u).
    split; [exact (Hin a u (Hsub a Ha) Hu)|].
    pose proof (Hnone a u Ha Hu) as Hnot.
    unfold limit_exceeded, limit, consumption in *. simpl.
    destruct (Z.leb_spec 0 (_limit u)); [|done]. simpl.
    apply Z.ltb_ge. fold (add64 (current_value (_consumption u)) bytes). lia.
Qed.

Lemma consume_overdraws_witness :
  ∃ σ', consume 1 leaf 500 three_level_tree = Some σ' /\
        consumption_at σ' root = Some 500 /\
        consumption_at σ' mid = Some 500 /\
        consumption_at σ' leaf = Some 500 /\
        any_limit_exceeded leaf σ' = Some true.
Proof.
  eassert (Hleaf : three_level_tree !! leaf = Some _) by reflexivity.
  eassert (Hmid : three_level_tree !! mid = Some _) by reflexivity.
  destruct (consume_overdraws 0%nat three_level_tree leaf _ 500
              reachable_three_level_tree Hleaf)
    as (σ' & Hrun & _ & _ & Hover & _); [lia|].
  exists σ'. split; [exact Hrun|].
  assert (Hex : any_limit_exceeded leaf σ' = Some true).
  { apply Hover. eexists mid, _. split; [by_evaluation|]. split; [exact Hmid|].
    by_evaluation. }
  vm_compute in Hrun. injection Hrun as <-.
  split; [reflexivity|]. split; [reflexivity|]. split; [reflexivity|]. exact Hex.
Defined.

(** X8.  A reservation given back: in every store that the interface
    builds, after [try_consume(bytes)] with [bytes > 0] returns true,
    [release(bytes)] on the same tracker returns every consumption of the
    store to its value before the reservation. *)
Theorem try_consume_then_release fuel fuel' σ self t bytes :
  reachable σ -> σ !! self = Some t -> 0 < bytes <= INT64_MAX ->
  ∃ σ1 ok events,
    try_consume (S fuel) self bytes σ = Some (σ1, ok, events) /\
    (ok = true ->
     ∃ σ2, release (S fuel') self bytes σ1 = Some σ2 /\
           ∀ a, consumption_at σ2 a = consumption_at σ a).
Proof.
  intros Hr Hself0 Hb.
  assert (Hm : _consumption_metric t = None)
    by by destruct (reachable_sound σ Hr self t Hself0).
  destruct (try_consume_reachable fuel σ self t bytes Hr Hself0 Hb)
    as (Hσ & Htr & σ1 & ok & events & Hrun & Hok & _).
  exists σ1, ok, events. split; [done|]. intros ->.
  destruct (Hok eq_refl) as [_ Hs]. destruct Htr as [Hself Hnd Halive].
  destruct (consume_release_shifted 0%nat self bytes _ σ σ1 t Hself Hm Halive Hs)
    as [_ (σ2 & Hrel & H2)].
  { unfold INT64_MIN. lia. }
  exists σ2. split.
  - rewrite <- Hrel. apply release_positive_fuel. lia.
  - intros a. apply (store_shifted_unchanged _ _ _ _ Hσ H2). cbv beta. lia.
Qed.

Lemma try_consume_then_release_witness :
  ∃ σ1 events σ2,
    try_consume 1 leaf 250 three_level_tree = Some (σ1, true, events) /\
    release 1 leaf 250 σ1 = Some σ2 /\
    ∀ a, consumption_at σ2 a = consumption_at three_level_tree a.
Proof.
  eassert (Hleaf : three_level_tree !! leaf = Some _) by reflexivity.
  destruct (try_consume_then_release 0%nat 0%nat three_level_tree leaf _ 250
              reachable_three_level_tree Hleaf)
    as (σ1 & ok & events & Hrun & Hgranted); [by_evaluation|].
  assert (Hok : ok = true).
  { vm_compute in Hrun. by injection Hrun as _ <- _. }
  subst ok. destruct (Hgranted eq_refl) as (σ2 & Hrel & Hsame).
  by exists σ1, events, σ2.
Defined.

(** ** [set_limit] and the reserve path *)

Lemma set_limit_lookup a L σ u :
  σ !! a = Some u ->
  set_limit a L σ = Some (<[a := with_limit L u]> σ).
Proof. intros Hu. unfold set_limit. by rewrite Hu. Qed.

(** X9.  [try_consume] enforces a limit as soon as [set_limit] has written
    it: it reads the limit of each ancestor through [_all_trackers], not
    through [_limit_trackers].  In every store that the interface builds,
    after [a.set_limit(L)] with [L >= 0] on any tracker [a] of the chain, a
    reservation of [bytes > 0] that would take [a] above [L] is denied and
    changes no consumption, whether or not [a] had a limit when the trees
    were built. *)
Theorem set_limit_enforced_by_try_consume fuel σ self t bytes a u L :
  reachable σ -> σ !! self = Some t -> 0 < bytes <= INT64_MAX ->
  a ∈ _all_trackers t -> σ !! a = Some u ->
  0 <= L <= INT64_MAX -> L < add64 (consumption u) bytes ->
  ∃ σ1 σ2 events,
    set_limit a L σ = Some σ1 /\
    try_consume (S fuel) self bytes σ1 = Some (σ2, false, events) /\
    ∀ x, consumption_at σ2 x = consumption_at σ x.
Proof.
  intros Hr Hself0 Hb Ha Hu HL Hover.
  pose proof (reachable_sound σ Hr) as Hsound.
  pose proof (sound_well_typed σ Hsound) as Hσ.
  destruct (sound_tracked σ self t Hsound Hself0) as [Hself Hnd Halive].
  assert (Hm : _consumption_metric t = None) by by destruct (Hsound self t Hself0).
  pose proof (sound_gc_quiet σ (_all_trackers t) Hsound) as Hq.
  set (σ1 := <[a := with_limit L u]> σ).
  assert (Hlookup : ∀ x v, σ !! x = Some v ->
            σ1 !! x = Some (if decide (x = a) then with_limit L v else v)).
  { intros x v Hv. unfold σ1. destruct (decide (x = a)) as [->|Hx].
    - rewrite lookup_insert_eq. congruence.
    - by rewrite lookup_insert_ne. }
  assert (Hσ1 : well_typed σ1).
  { apply map_Forall_insert_2; [|done]. destruct (Hσ a u Hu) as [_ Hc].
    split; [|done]. simpl. unfold int64, INT64_MIN in *. lia. }
  set (t1 := if decide (self = a) then with_limit L t else t).
  assert (Hall1 : _all_trackers t1 = _all_trackers t).
  { unfold t1. by destruct (decide (self = a)). }
  assert (Htr1 : tracked σ1 self t1).
  { split; [by apply Hlookup | by rewrite Hall1 |]. rewrite Hall1.
    eapply Forall_impl; [exact Halive|]. intros x [v Hv].
    rewrite (Hlookup x v Hv). by eexists. }
  assert (Hm1 : _consumption_metric t1 = None).
  { unfold t1. by destruct (decide (self = a)). }
  assert (Hq1 : gc_quiet σ1 (_all_trackers t1)).
  { rewrite Hall1. intros x v Hx Hv.
    destruct (proj1 (Forall_forall _ _) Halive x Hx) as [v0 Hv0].
    rewrite (Hlookup x v0 Hv0) in Hv. injection Hv as <-.
    pose proof (Hq x v0 Hx Hv0) as Hquiet. by destruct (decide (x = a)). }
  destruct (try_consume_quiet fuel σ1 self t1 bytes Hσ1 Htr1 Hm1 Hq1 Hb)
    as (σ2 & ok & events & Hrun & Hok & Hfail).
  exists σ1, σ2, events. split; [by apply set_limit_lookup|].
  assert (Hdenied : ok = false).
  { destruct ok; [|done]. destruct (Hok eq_refl) as [Hfits _].
    rewrite Hall1 in Hfits.
    specialize (Hfits a (with_limit L u) Ha). rewrite (Hlookup a u Hu) in Hfits.
    rewrite decide_True in Hfits by done. specialize (Hfits eq_refl).
    unfold limit, consumption in *. simpl in Hfits. lia. }
  subst ok. split; [done|]. destruct (Hfail eq_refl) as [_ Hs].
  intros x. rewrite (store_shifted_unchanged _ _ _ _ Hσ1 Hs) by done.
  unfold consumption_at. unfold σ1. destruct (decide (x = a)) as [->|Hx].
  - by rewrite lookup_insert_eq, Hu.
  - by rewrite lookup_insert_ne.
Qed.

Lemma set_limit_enforced_by_try_consume_witness :
  ∃ σ1 σ2 events,
    set_limit root 100 simple_tree = Some σ1 /\
    try_consume 1 child 200 σ1 = Some (σ2, false, events) /\
    ∀ x, consumption_at σ2 x = consumption_at simple_tree x.
Proof.
  eassert (Hchild : simple_tree !! child = Some _) by reflexivity.
  eassert (Hroot : simple_tree !! root = Some _) by reflexivity.
  refine (set_limit_enforced_by_try_consume 0%nat simple_tree child _ 200 root _ 100
            reachable_simple_tree Hchild _ _ Hroot _ _).
  - by_evaluation.
  - by_evaluation.
  - by_evaluation.
  - by_evaluation.
Defined.

(** ** Usage reports *)

Lemma item_of_live T self cur_level :
  reportable T -> is_Some (objects T !! self) ->
  ∃ item, item_of T self cur_level = Some item /\ level item = cur_level.
Proof.
  intros HT [t Ht]. unfold item_of. rewrite Ht. simpl.
  destruct (_parent t) as [p|] eqn:Hp; simpl.
  - destruct (proj1 (HT self t Ht) p Hp) as [tp ->]. simpl. by eexists.
  - by eexists.
Qed.

(** What one call appends does not depend on what the vector holds: the
    item of the tracker itself, then, when [cur_level < upper_level], the
    reports of its children, all at levels in [(cur_level, upper_level]]. *)
Lemma list_mem_usage_spec fuel : ∀ T self cur_level upper_level,
  reportable T -> is_Some (objects T !! self) ->
  (upper_level - cur_level <= fuel)%nat ->
  ∃ item rest,
    item_of T self cur_level = Some item /\
    (∀ items, list_mem_usage fuel T self items cur_level upper_level
              = Some (items ++ item :: rest)) /\
    Forall (λ i, (cur_level < level i <= upper_level)%nat) rest /\
    ((upper_level <= cur_level)%nat \/ _child_trackers T self = [] -> rest = []).
Proof.
  induction fuel as [|fuel IH]; intros T self cur upper HT Hself Hfuel.
  - destruct (item_of_live T self cur HT Hself) as (item & Hitem & _).
    exists item, []. split; [done|]. split; [|split; [constructor | done]].
    intros items. simpl. rewrite Hitem. simpl.
    destruct (Nat.ltb_spec cur upper); [lia | done].
  - destruct (item_of_live T self cur HT Hself) as (item & Hitem & _).
    destruct (Nat.ltb_spec cur upper) as [Hlt|Hge].
    + destruct Hself as [t Ht]. pose proof (proj2 (HT self t Ht)) as Hchildren.
      assert (Hloop : ∃ news,
        (∀ items,
           (fix children (l : list addr) (items : list SimpleItem)
              : option (list SimpleItem) :=
              match l with
              | [] => Some items
              | child :: rest =>
                  items' ← list_mem_usage fuel T child items (S cur) upper;
                  children rest items'
              end) (_child_trackers T self) items = Some (items ++ news)) /\
        Forall (λ i, (cur < level i <= upper)%nat) news /\
        (_child_trackers T self = [] -> news = [])).
      { induction Hchildren as [|c l Hc Hl IHl].
        - exists []. split; [intros; by rewrite app_nil_r|]. split; [constructor | done].
        - destruct (IH T c (S cur) upper HT Hc) as (ic & rc & Hic & Hrun & Hlevels & _);
            [lia|].
          destruct IHl as (news & Hnews & Hnl & _).
          exists (ic :: rc ++ news). split; [|split; [|done]].
          + intros items. rewrite Hrun. cbn [mbind option_bind].
            rewrite Hnews. f_equal. by rewrite <- app_assoc.
          + constructor.
            * destruct (item_of_live T c (S cur) HT Hc) as (ic' & Hic' & Hlev).
              rewrite Hic in Hic'. injection Hic' as <-. lia.
            * apply Forall_app. split; [|done].
              eapply Forall_impl; [exact Hlevels|]. intros i; simpl. lia. }
      destruct Hloop as (news & Hnews & Hlevels & Hnil).
      exists item, news. split; [done|]. split; [|split; [done|]].
      * intros items. cbn [list_mem_usage]. rewrite Hitem. cbn [mbind option_bind].
        destruct (Nat.ltb_spec cur upper); [|lia].
        rewrite Hnews. f_equal. by rewrite <- app_assoc.
      * intros [?|Hno]; [lia | by apply Hnil].
    + exists item, []. split; [done|]. split; [|split; [constructor | done]].
      intros items. cbn [list_mem_usage]. rewrite Hitem. cbn [mbind option_bind].
      destruct (Nat.ltb_spec cur upper); [lia | done].
Qed.

(** X10.  [list_mem_usage] only appends: the vector it returns is the one it
    was given followed by the item of the tracker itself, at [cur_level], and
    then by items at levels above [cur_level] and up to [upper_level].
    Nothing follows the tracker's own item when [upper_level <= cur_level] or
    when the tracker has no children. *)
Theorem list_mem_usage_appends fuel T self items cur_level upper_level :
  reportable T -> is_Some (objects T !! self) ->
  (upper_level - cur_level <= fuel)%nat ->
  ∃ item rest,
    list_mem_usage fuel T self items cur_level upper_level
      = Some (items ++ item :: rest) /\
    item_of T self cur_level = Some item /\
    label item = _label T self /\ level item = cur_level /\
    cur_consumption item = default 0 (consumption_at (objects T) self) /\
    Forall (λ i, (cur_level < level i <= upper_level)%nat) rest /\
    ((upper_level <= cur_level)%nat \/ _child_trackers T self = [] -> rest = []).
Proof.
  intros HT Hself Hfuel.
  destruct (list_mem_usage_spec fuel T self cur_level upper_level HT Hself Hfuel)
    as (item & rest & Hitem & Hrun & Hlevels & Hnone).
  exists item, rest. split; [apply Hrun|]. split; [done|].
  destruct Hself as [t Ht]. unfold item_of, consumption_at in *.
  rewrite Ht in *. simpl in *.
  destruct (match _parent t with
            | Some p => _ ← objects T !! p; Some (_label T p)
            | None => Some EmptyString
            end) as [pl|]; [|done].
  simpl in Hitem. injection Hitem as <-. done.
Qed.

Lemma list_mem_usage_appends_witness :
  ∃ item rest,
    list_mem_usage 2 report_tree root [] 0 2 = Some ([] ++ item :: rest) /\
    label item = "process" /\ level item = 0%nat /\
    Forall (λ i, (0 < level i <= 2)%nat) rest.
Proof.
  assert (Hreportable : reportable report_tree) by reportable_by_evaluation.
  destruct (list_mem_usage_appends 2 report_tree root [] 0 2 Hreportable)
    as (item & rest & Hrun & _ & Hlabel & Hlevel & _ & Hlevels & _);
    [by eexists | lia |].
  exists item, rest. exact (conj Hrun (conj Hlabel (conj Hlevel Hlevels))).
Defined.

(** X11.  One level down, the report is the tracker followed by its
    children, one item each, in the order of the child list (the order in
    which they were added); a child whose parent is the tracker carries the
    tracker's label as its parent label. *)
Theorem list_mem_usage_one_level fuel T self items cur_level :
  reportable T -> is_Some (objects T !! self) ->
  ∃ item rest,
    list_mem_usage (S fuel) T self items cur_level (S cur_level)
      = Some (items ++ item :: rest) /\
    item_of T self cur_level = Some item /\
    mapM (λ c, item_of T c (S cur_level)) (_child_trackers T self) = Some rest /\
    label <$> rest = _label T <$> _child_trackers T self /\
    ∀ k c tc i, _child_trackers T self !! k = Some c ->
                objects T !! c = Some tc -> _parent tc = Some self ->
                rest !! k = Some i -> parent_label i = _label T self.
Proof.
  intros HT [t Ht].
  destruct (item_of_live T self cur_level HT) as (item & Hitem & _); [by eexists|].
  pose proof (proj2 (HT self t Ht)) as Hchildren.
  assert (Hloop : ∃ news,
    (∀ items,
       (fix children (l : list addr) (items : list SimpleItem)
          : option (list SimpleItem) :=
          match l with
          | [] => Some items
          | child :: rest =>
              items' ← list_mem_usage fuel T child items (S cur_level) (S cur_level);
              children rest items'
          end) (_child_trackers T self) items = Some (items ++ news)) /\
    mapM (λ c, item_of T c (S cur_level)) (_child_trackers T self) = Some news /\
    label <$> news = _label T <$> _child_trackers T self /\
    ∀ k c tc i, _child_trackers T self !! k = Some c ->
                objects T !! c = Some tc -> _parent tc = Some self ->
                news !! k = Some i -> parent_label i = _label T self).
  { induction Hchildren as [|c l Hc Hl IHl].
    - exists []. split; [intros; by rewrite app_nil_r|]. split; [done|].
      split; [done|]. intros k c tc i Hk. done.
    - destruct (list_mem_usage_spec fuel T c (S cur_level) (S cur_level) HT Hc)
        as (ic & rc & Hic & Hrun & _ & Hnone); [lia|].
      rewrite (Hnone (or_introl (le_n _))) in Hrun.
      destruct IHl as (news & Hnews & HmapM & Hlabels & Hparents).
      exists (ic :: news). split; [|split; [|split]].
      + intros items'. rewrite Hrun. cbn [mbind option_bind].
        rewrite Hnews. f_equal. by rewrite <- app_assoc.
      + cbn [mapM]. rewrite Hic. cbn [mbind option_bind]. rewrite HmapM. done.
      + cbn [fmap list_fmap]. f_equal; [|done].
        destruct Hc as [tc Htc]. unfold item_of in Hic. rewrite Htc in Hic.
        simpl in Hic.
        destruct (match _parent tc with
                  | Some p => _ ← objects T !! p; Some (_label T p)
                  | None => Some EmptyString end); [|done].
        simpl in Hic. by injection Hic as <-.
      + intros [|k] c' tc i Hk Htc Hp Hi; simpl in *.
        * simplify_eq. unfold item_of in Hic. rewrite Htc in Hic. simpl in Hic.
          rewrite Hp in Hic. rewrite Ht in Hic. simpl in Hic.
          by injection Hic as <-.
        * by eapply Hparents. }
  destruct Hloop as (news & Hnews & HmapM & Hlabels & Hparents).
  exists item, news. split; [|done].
  cbn [list_mem_usage]. rewrite Hitem. cbn [mbind option_bind].
  destruct (Nat.ltb_spec cur_level (S cur_level)); [|lia].
  rewrite Hnews. f_equal. by rewrite <- app_assoc.
Qed.

Lemma list_mem_usage_one_level_witness :
  ∃ item rest,
    list_mem_usage 1 report_tree root [] 0 1 = Some ([] ++ item :: rest) /\
    label <$> rest = ["query"; "load"].
Proof.
  assert (Hreportable : reportable report_tree) by reportable_by_evaluation.
  destruct (list_mem_usage_one_level 0 report_tree root [] 0 Hreportable)
    as (item & rest & Hrun & _ & _ & Hlabels & _); [by eexists|].
  exists item, rest. split; [exact Hrun|]. rewrite Hlabels. reflexivity.
Defined.

(** ** The child list *)

Lemma erase_last_None x l : erase_last x l = None <-> x ∉ l.
Proof.
  induction l as [|y l IH]; simpl.
  - split; [intros _; apply not_elem_of_nil | done].
  - destruct (erase_last x l) as [l'|].
    + split; [done|]. intros Hx. apply not_elem_of_cons in Hx as [_ Hx].
      by apply IH in Hx.
    + destruct (decide (y = x)) as [->|Hne].
      * split; [done|]. intros Hx. exfalso. apply Hx. by left.
      * split; [|done]. intros _. apply not_elem_of_cons.
        split; [done | by apply IH].
Qed.

Lemma last_split_unique (x : addr) l1 : ∀ l2 k1 k2,
  l1 ++ x :: l2 = k1 ++ x :: k2 -> x ∉ l2 -> x ∉ k2 -> l1 = k1 /\ l2 = k2.
Proof.
  induction l1 as [|a l1 IH]; intros l2 k1 k2 Heq Hl Hk.
  - destruct k1 as [|b k1]; simpl in Heq.
    + by injection Heq as ->.
    + injection Heq as -> ->. exfalso. apply Hl.
      apply elem_of_app. right. by left.
  - destruct k1 as [|b k1]; simpl in Heq.
    + injection Heq as -> <-. exfalso. apply Hk.
      apply elem_of_app. right. by left.
    + injection Heq as -> Heq. destruct (IH _ _ _ Heq Hl Hk) as [-> ->]. done.
Qed.

Lemma erase_last_Some x l l' :
  erase_last x l = Some l' <->
  ∃ l1 l2, l = l1 ++ x :: l2 /\ (x ∉ l2) /\ l' = l1 ++ l2.
Proof.
  revert l'. induction l as [|y l IH]; intros l'; simpl.
  - split; [done|]. intros (l1 & l2 & Hl & _). by destruct l1.
  - destruct (erase_last x l) as [r|] eqn:Hr.
    + destruct (proj1 (IH r) eq_refl) as (l1 & l2 & Hl & Hx & Hr').
      split.
      * intros Heq. injection Heq as <-. exists (y :: l1), l2.
        rewrite Hl, Hr'. done.
      * intros (k1 & k2 & Hk & Hx2 & Hl').
        destruct k1 as [|z k1]; simpl in Hk.
        { injection Hk as -> Hk. exfalso. apply Hx2. rewrite <- Hk, Hl.
          apply elem_of_app. right. by left. }
        injection Hk as -> Hk. rewrite Hl in Hk.
        destruct (last_split_unique _ _ _ _ _ Hk Hx Hx2) as [<- <-].
        by rewrite Hl', Hr'.
    + apply erase_last_None in Hr. destruct (decide (y = x)) as [->|Hne].
      * split.
        { intros Heq. injection Heq as <-. by exists [], l. }
        intros (k1 & k2 & Hk & Hx2 & Hl').
        destruct k1 as [|z k1]; simpl in Hk.
        { injection Hk as <-. by rewrite Hl'. }
        injection Hk as _ Hk. exfalso. apply Hr. rewrite Hk.
        apply elem_of_app. right. by left.
      * split; [done|]. intros (k1 & k2 & Hk & _).
        destruct k1 as [|z k1]; simpl in Hk.
        { injection Hk as Hy _. done. }
        injection Hk as _ Hk. exfalso. apply Hr. rewrite Hk.
        apply elem_of_app. right. by left.
Qed.

Lemma erase_last_snoc x l : erase_last x (l ++ [x]) = Some l.
Proof.
  apply erase_last_Some. exists l, []. split; [done|].
  split; [apply not_elem_of_nil | by rewrite app_nil_r].
Qed.

(** X12.  Registration undone: after [parent.add_child_tracker(x)],
    [x.unregister_from_parent()] gives back the child lists as they were and
    leaves the iterator of [x] at the end of the parent's list, so that a
    second [unregister_from_parent] would erase at [end()], which has no
    defined result.  The accounting objects are not touched. *)
Theorem add_child_then_unregister p x T tp tx :
  objects T !! p = Some tp -> objects T !! x = Some tx -> _parent tx = Some p ->
  ∃ T1 T2,
    add_child_tracker p x T = Some T1 /\
    _child_trackers T1 p = _child_trackers T p ++ [x] /\
    unregister_from_parent x T1 = Some T2 /\
    (∀ a, _child_trackers T2 a = _child_trackers T a) /\
    objects T2 = objects T /\
    _child_tracker_it T2 x = it_end p /\
    unregister_from_parent x T2 = None.
Proof.
  intros Hp Hx Hparent.
  set (T1 := with_iterator x (it_node p)
               (with_children p (_child_trackers T p ++ [x]) T)).
  set (T2 := with_iterator x (it_end p)
               (with_children p (_child_trackers T p) T1)).
  exists T1, T2.
  assert (Hadd : add_child_tracker p x T = Some T1).
  { unfold add_child_tracker. by rewrite Hp, Hx. }
  assert (Hlist : _child_trackers T1 p = _child_trackers T p ++ [x]).
  { simpl. unfold assign. by rewrite decide_True. }
  assert (Hit : _child_tracker_it T1 x = it_node p).
  { simpl. unfold assign. by rewrite decide_True. }
  assert (Hend : _child_tracker_it T2 x = it_end p).
  { simpl. unfold assign. by rewrite decide_True. }
  split; [done|]. split; [done|]. split; [|split; [|split; [done|split; [done|]]]].
  - unfold unregister_from_parent. change (objects T1) with (objects T).
    rewrite Hx. cbn [mbind option_bind]. rewrite Hparent. cbn [mbind option_bind].
    rewrite Hp. cbn [mbind option_bind].
    rewrite Hit, decide_True by done. rewrite Hlist, erase_last_snoc. done.
  - intros a. simpl. unfold assign. by destruct (decide (a = p)) as [->|].
  - unfold unregister_from_parent. change (objects T2) with (objects T).
    rewrite Hx. cbn [mbind option_bind]. rewrite Hparent. cbn [mbind option_bind].
    rewrite Hp. cbn [mbind option_bind]. by rewrite Hend.
Qed.

Lemma add_child_then_unregister_witness :
  ∃ T1 T2,
    add_child_tracker root sibling report_tree = Some T1 /\
    unregister_from_parent sibling T1 = Some T2 /\
    _child_trackers T2 root = _child_trackers report_tree root /\
    unregister_from_parent sibling T2 = None.
Proof.
  eassert (Hp : objects report_tree !! root = Some _) by reflexivity.
  eassert (Hx : objects report_tree !! sibling = Some _) by reflexivity.
  destruct (add_child_then_unregister root sibling report_tree _ _ Hp Hx eq_refl)
    as (T1 & T2 & Hadd & _ & Hun & Hlists & _ & _ & Hagain).
  exists T1, T2. split; [exact Hadd|]. split; [exact Hun|].
  split; [apply Hlists | exact Hagain].
Defined.

(** X13.  [unregister_from_parent] removes one node from the child list of
    the parent, the one that holds the tracker, and keeps the other children
    in their order; no other child list changes, and no accounting object
    does: the ancestors keep the bytes that the tracker charged, and its
    later charges still reach them. *)
Theorem unregister_from_parent_removes_one x T T' :
  unregister_from_parent x T = Some T' ->
  ∃ t p l1 l2,
    objects T !! x = Some t /\ _parent t = Some p /\
    _child_trackers T p = l1 ++ x :: l2 /\ (x ∉ l2) /\
    _child_trackers T' p = l1 ++ l2 /\
    (∀ a, a ≠ p -> _child_trackers T' a = _child_trackers T a) /\
    objects T' = objects T /\
    (∀ fuel bytes, consume fuel x bytes (objects T') = consume fuel x bytes (objects T)).
Proof.
  unfold unregister_from_parent. intros Hrun.
  destruct (objects T !! x) as [t|] eqn:Ht; [|done]. simpl in Hrun.
  destruct (_parent t) as [p|] eqn:Hp; [|done]. simpl in Hrun.
  destruct (objects T !! p) as [tp|] eqn:Htp; [|done]. simpl in Hrun.
  destruct (_child_tracker_it T x) as [|owner|owner]; try done.
  destruct (decide (owner = p)) as [->|]; [|done].
  destruct (erase_last x (_child_trackers T p)) as [l|] eqn:Hl; [|done].
  simpl in Hrun. injection Hrun as <-.
  apply erase_last_Some in Hl as (l1 & l2 & Hl & Hx & ->).
  exists t, p, l1, l2. simpl. unfold assign.
  rewrite decide_True by done. repeat split; try done.
  intros a Ha. by rewrite decide_False.
Qed.

Lemma unregister_from_parent_removes_one_witness :
  ∃ T' l1 l2,
    unregister_from_parent mid report_tree = Some T' /\
    _child_trackers report_tree root = l1 ++ mid :: l2 /\
    _child_trackers T' root = l1 ++ l2 /\
    objects T' = objects report_tree.
Proof.
  eassert (Hrun : unregister_from_parent mid report_tree = Some _) by reflexivity.
  destruct (unregister_from_parent_removes_one mid report_tree _ Hrun)
    as (t & p & l1 & l2 & Ht & Hp & Hl & _ & Hl' & _ & Hobjects & _).
  assert (Hroot : p = root).
  { vm_compute in Ht. injection Ht as <-. simpl in Hp. by injection Hp as <-. }
  subst p. eexists _, l1, l2.
  exact (conj Hrun (conj Hl (conj Hl' Hobjects))).
Defined.

(** * The readers of the disk and network counters *)

Lemma largest_increment_empty {V} (f : string -> V -> option Z) :
  largest_increment f ∅ 0.
Proof.
  split; [done|]. split; [|by left]. intros k v incr Hk. by rewrite lookup_empty in Hk.
Qed.

Lemma largest_increment_step {V} (f : string -> V -> option Z) m M i x :
  largest_increment f m M -> m !! i = None ->
  largest_increment f (<[i := x]> m)
    (match f i x with
     | Some incr => if M <? incr then incr else M
     | None => M
     end).
Proof.
  intros (H0 & Hall & Hex) Hi.
  assert (Hold : ∀ k v, m !! k = Some v -> <[i := x]> m !! k = Some v).
  { intros k v Hk. rewrite lookup_insert_ne; [done|]. intros ->. congruence. }
  destruct (f i x) as [incr|] eqn:Hf.
  - destruct (Z.ltb_spec M incr) as [Hlt|Hge].
    + split; [lia|]. split.
      * intros k v incr' Hk Hfk. destruct (decide (k = i)) as [->|Hne].
        { rewrite lookup_insert_eq in Hk. injection Hk as <-.
          rewrite Hf in Hfk. injection Hfk as <-. lia. }
        rewrite lookup_insert_ne in Hk by done.
        pose proof (Hall k v incr' Hk Hfk). lia.
      * right. exists i, x. by rewrite lookup_insert_eq.
    + split; [done|]. split.
      * intros k v incr' Hk Hfk. destruct (decide (k = i)) as [->|Hne].
        { rewrite lookup_insert_eq in Hk. injection Hk as <-.
          rewrite Hf in Hfk. injection Hfk as <-. lia. }
        rewrite lookup_insert_ne in Hk by done. by eapply Hall.
      * destruct Hex as [->|(k & v & Hk & Hfk)]; [by left|].
        right. exists k, v. split; [by apply Hold | done].
  - split; [done|]. split.
    + intros k v incr' Hk Hfk. destruct (decide (k = i)) as [->|Hne].
      { rewrite lookup_insert_eq in Hk. injection Hk as <-. congruence. }
      rewrite lookup_insert_ne in Hk by done. by eapply Hall.
    + destruct Hex as [->|(k & v & Hk & Hfk)]; [by left|].
      right. exists k, v. split; [by apply Hold | done].
Qed.

Lemma emplace_fresh k v (m : gmap string Z) :
  m !! k = None -> emplace k v m = <[k := v]> m.
Proof. intros Hk. unfold emplace. by rewrite Hk. Qed.

Lemma get_disks_io_time_snapshot_lookup self map device :
  get_disks_io_time self map !! device
  = io_time_ms <$> _disk_metrics self !! device.
Proof.
  unfold get_disks_io_time. revert device.
  apply (map_fold_weak_ind
           (λ out m, ∀ device, out !! device = io_time_ms <$> m !! device)).
  - intros device. by rewrite !lookup_empty.
  - intros i x m out Hi IH device.
    rewrite emplace_fresh by (rewrite IH, Hi; done).
    destruct (decide (device = i)) as [->|Hne].
    + by rewrite !lookup_insert_eq.
    + by rewrite !lookup_insert_ne.
Qed.

(** X14.  [get_disks_io_time] returns a snapshot of the [io_time_ms] counter
    of every installed disk and of nothing else; what the map held before
    the call is gone. *)
Theorem get_disks_io_time_snapshot self map :
  (∀ device, get_disks_io_time self map !! device
             = io_time_ms <$> _disk_metrics self !! device) /\
  dom (get_disks_io_time self map) = dom (_disk_metrics self).
Proof.
  split; [apply get_disks_io_time_snapshot_lookup|].
  apply set_eq. intros device. rewrite !elem_of_dom.
  rewrite get_disks_io_time_snapshot_lookup. by rewrite fmap_is_Some.
Qed.

Lemma get_max_io_util_fold self lst_value interval_sec :
  interval_sec ≠ 0 ->
  ∃ M, largest_increment (increment_since io_time_ms lst_value)
         (_disk_metrics self) M /\
       get_max_io_util self lst_value interval_sec
       = Some (Z.quot (Z.quot M interval_sec) 10).
Proof.
  intros Hint. unfold get_max_io_util.
  destruct (Z.eqb_spec interval_sec 0); [done|].
  eexists. split; [|done].
  apply (map_fold_weak_ind
           (λ M m, largest_increment (increment_since io_time_ms lst_value) m M)).
  - apply largest_increment_empty.
  - intros i x m M Hi IH.
    pose proof (largest_increment_step _ m M i x IH Hi) as Hstep.
    unfold increment_since in Hstep at 2. by destruct (lst_value !! i).
Qed.

(** X15.  [get_max_io_util] is the largest growth of [io_time_ms] since the
    recorded values, over the disks that are both installed and recorded,
    divided by the interval and by 10, rounding towards zero.  A counter that
    went down counts for nothing, a disk without a recorded value is skipped,
    and the result is never negative for a positive interval.  For a zero
    interval the division has no result. *)
Theorem get_max_io_util_largest_growth self lst_value interval_sec :
  get_max_io_util self lst_value 0 = None /\
  (interval_sec ≠ 0 ->
   ∃ M, get_max_io_util self lst_value interval_sec
          = Some (Z.quot (Z.quot M interval_sec) 10) /\
        0 <= M /\
        (∀ device metrics last,
           _disk_metrics self !! device = Some metrics ->
           lst_value !! device = Some last ->
           sub64 (io_time_ms metrics) last <= M) /\
        (M = 0 \/
         ∃ device metrics last,
           _disk_metrics self !! device = Some metrics /\
           lst_value !! device = Some last /\
           M = sub64 (io_time_ms metrics) last) /\
        (0 < interval_sec -> 0 <= Z.quot (Z.quot M interval_sec) 10 <= M)).
Proof.
  split; [done|]. intros Hint.
  destruct (get_max_io_util_fold self lst_value interval_sec Hint)
    as (M & (H0 & Hall & Hex) & Hrun).
  exists M. split; [done|]. split; [done|]. split; [|split].
  - intros device metrics last Hd Hl. apply (Hall device metrics); [done|].
    unfold increment_since. by rewrite Hl.
  - destruct Hex as [->|(k & v & Hk & Hf)]; [by left|]. right.
    unfold increment_since in Hf.
    destruct (lst_value !! k) as [last|] eqn:Hl; [|done].
    injection Hf as <-. by exists k, v, last.
  - intros Hpos.
    assert (H1 : 0 <= Z.quot M interval_sec <= M).
    { split; [apply Z.quot_pos; lia|].
      rewrite Z.quot_div_nonneg by lia.
      apply Z.div_le_upper_bound; [lia|]. nia. }
    split; [apply Z.quot_pos; lia|].
    rewrite Z.quot_div_nonneg by lia.
    etrans; [|exact (proj2 H1)].
    apply Z.div_le_upper_bound; [lia|]. lia.
Qed.

Lemma get_max_io_util_largest_growth_witness :
  5 ≠ 0 /\
  ∃ M, get_max_io_util host_metrics {[ "sda" := 400; "sdc" := 0 ]} 5
         = Some (Z.quot (Z.quot M 5) 10) /\ 0 <= M.
Proof.
  split; [lia|].
  destruct (proj2 (get_max_io_util_largest_growth host_metrics
                     {[ "sda" := 400; "sdc" := 0 ]} 5))
    as (M & Hrun & H0 & _); [lia|].
  exists M. exact (conj Hrun H0).
Defined.

(** X16.  Measured against a snapshot that [get_disks_io_time] has just
    taken, [get_max_io_util] is 0 for every interval but 0. *)
Theorem get_max_io_util_of_snapshot self map interval_sec :
  interval_sec ≠ 0 ->
  get_max_io_util self (get_disks_io_time self map) interval_sec = Some 0.
Proof.
  intros Hint.
  destruct (get_max_io_util_fold self (get_disks_io_time self map)
              interval_sec Hint) as (M & (H0 & Hall & Hex) & ->).
  assert (HM : M = 0).
  { destruct Hex as [->|(k & v & Hk & Hf)]; [done|].
    unfold increment_since in Hf.
    rewrite get_disks_io_time_snapshot_lookup, Hk in Hf. simpl in Hf.
    injection Hf as <-. unfold sub64. by rewrite Z.sub_diag. }
  subst M. by rewrite !Z.quot_0_l.
Qed.

Lemma get_max_io_util_of_snapshot_witness :
  1 ≠ 0 /\
  get_max_io_util host_metrics (get_disks_io_time host_metrics ∅) 1 = Some 0.
Proof. split; [lia|]. apply get_max_io_util_of_snapshot. lia. Defined.

Lemma get_network_traffic_lookup self send_map rcv_map interface :
  (get_network_traffic self send_map rcv_map).1 !! interface
  = (if decide (interface = "lo") then None
     else send_bytes <$> _net_metrics self !! interface) /\
  (get_network_traffic self send_map rcv_map).2 !! interface
  = (if decide (interface = "lo") then None
     else receive_bytes <$> _net_metrics self !! interface).
Proof.
  unfold get_network_traffic. revert interface.
  apply (map_fold_weak_ind
           (λ out m, ∀ interface,
              out.1 !! interface
              = (if decide (interface = "lo") then None
                 else send_bytes <$> m !! interface) /\
              out.2 !! interface
              = (if decide (interface = "lo") then None
                 else receive_bytes <$> m !! interface))).
  - intros interface. simpl. rewrite !lookup_empty. by destruct (decide _).
  - intros i x m out Hi IH interface.
    destruct (decide (i = "lo")) as [->|Hlo].
    + destruct (IH interface) as [-> ->].
      destruct (decide (interface = "lo")) as [->|Hne]; [done|].
      by rewrite lookup_insert_ne.
    + cbn [fst snd].
      rewrite !emplace_fresh
        by (rewrite (proj1 (IH i)) || rewrite (proj2 (IH i));
            rewrite Hi; by destruct (decide _)).
      destruct (decide (interface = i)) as [->|Hne].
      * rewrite !lookup_insert_eq. by destruct (decide (i = "lo")).
      * rewrite !lookup_insert_ne by done. apply IH.
Qed.

(** X17.  [get_network_traffic] fills the two maps with the bytes sent and
    the bytes received by every interface except the loopback interface
    [lo], which is in neither map; what the maps held before is gone. *)
Theorem get_network_traffic_skips_loopback self send_map rcv_map :
  let maps := get_network_traffic self send_map rcv_map in
  maps.1 !! "lo" = None /\ maps.2 !! "lo" = None /\
  (∀ interface, interface ≠ "lo" ->
     maps.1 !! interface = send_bytes <$> _net_metrics self !! interface /\
     maps.2 !! interface = receive_bytes <$> _net_metrics self !! interface).
Proof.
  cbn zeta. split; [|split].
  - by rewrite (proj1 (get_network_traffic_lookup self send_map rcv_map "lo")).
  - by rewrite (proj2 (get_network_traffic_lookup self send_map rcv_map "lo")).
  - intros interface Hne.
    destruct (get_network_traffic_lookup self send_map rcv_map interface)
      as [-> ->].
    by destruct (decide (interface = "lo")).
Qed.

Lemma get_network_traffic_skips_loopback_witness :
  "eth0" ≠ "lo" /\
  (get_network_traffic host_metrics ∅ ∅).1 !! "eth0" = Some 3000 /\
  (get_network_traffic host_metrics ∅ ∅).2 !! "eth0" = Some 7000.
Proof.
  assert (Hne : "eth0" ≠ "lo") by discriminate.
  split; [exact Hne|].
  exact (proj2 (proj2 (get_network_traffic_skips_loopback host_metrics ∅ ∅))
           "eth0" Hne).
Defined.

Lemma get_max_net_traffic_fold self lst_send_map lst_rcv_map interval_sec :
  interval_sec ≠ 0 ->
  ∃ Ms Mr,
    largest_increment (increment_since send_bytes lst_send_map)
      (_net_metrics self) Ms /\
    largest_increment (increment_since receive_bytes lst_rcv_map)
      (_net_metrics self) Mr /\
    get_max_net_traffic self lst_send_map lst_rcv_map interval_sec
    = Some (Z.quot Ms interval_sec, Z.quot Mr interval_sec).
Proof.
  intros Hint. unfold get_max_net_traffic.
  destruct (Z.eqb_spec interval_sec 0); [done|].
  eexists _, _. split; [|split; [|done]].
  - apply (map_fold_weak_ind
             (λ M m, largest_increment
                       (increment_since send_bytes lst_send_map) m M.1)).
    + apply largest_increment_empty.
    + intros i x m M Hi IH. cbn [fst snd].
      pose proof (largest_increment_step _ m M.1 i x IH Hi) as Hstep.
      unfold increment_since in Hstep at 2. by destruct (lst_send_map !! i).
  - apply (map_fold_weak_ind
             (λ M m, largest_increment
                       (increment_since receive_bytes lst_rcv_map) m M.2)).
    + apply largest_increment_empty.
    + intros i x m M Hi IH. cbn [fst snd].
      pose proof (largest_increment_step _ m M.2 i x IH Hi) as Hstep.
      unfold increment_since in Hstep at 2. by destruct (lst_rcv_map !! i).
Qed.

Lemma largest_increment_since {V} (counter : V -> Z) last (m : gmap string V) M :
  largest_increment (increment_since counter last) m M ->
  0 <= M /\
  (∀ k v old, m !! k = Some v -> last !! k = Some old ->
              sub64 (counter v) old <= M) /\
  (M = 0 \/ ∃ k v old, m !! k = Some v /\ last !! k = Some old /\
                       M = sub64 (counter v) old).
Proof.
  intros (H0 & Hall & Hex). split; [done|]. split.
  - intros k v old Hk Hl. apply (Hall k v); [done|].
    unfold increment_since. by rewrite Hl.
  - destruct Hex as [->|(k & v & Hk & Hf)]; [by left|]. right.
    unfold increment_since in Hf.
    destruct (last !! k) as [old|] eqn:Hl; [|done].
    injection Hf as <-. by exists k, v, old.
Qed.

(** X18.  [get_max_net_traffic] reports, for sending and for receiving
    separately, the largest growth of the byte counter since the recorded
    value over the interfaces that have one, divided by the interval and
    rounded towards zero; the two maxima may come from different interfaces,
    and neither rate is negative for a positive interval.  For a zero
    interval the division has no result. *)
Theorem get_max_net_traffic_largest_growth self lst_send_map lst_rcv_map
    interval_sec :
  get_max_net_traffic self lst_send_map lst_rcv_map 0 = None /\
  (interval_sec ≠ 0 ->
   ∃ Ms Mr,
     get_max_net_traffic self lst_send_map lst_rcv_map interval_sec
     = Some (Z.quot Ms interval_sec, Z.quot Mr interval_sec) /\
     (0 <= Ms /\
      (∀ interface metrics last,
         _net_metrics self !! interface = Some metrics ->
         lst_send_map !! interface = Some last ->
         sub64 (send_bytes metrics) last <= Ms) /\
      (Ms = 0 \/
       ∃ interface metrics last,
         _net_metrics self !! interface = Some metrics /\
         lst_send_map !! interface = Some last /\
         Ms = sub64 (send_bytes metrics) last)) /\
     (0 <= Mr /\
      (∀ interface metrics last,
         _net_metrics self !! interface = Some metrics ->
         lst_rcv_map !! interface = Some last ->
         sub64 (receive_bytes metrics) last <= Mr) /\
      (Mr = 0 \/
       ∃ interface metrics last,
         _net_metrics self !! interface = Some metrics /\
         lst_rcv_map !! interface = Some last /\
         Mr = sub64 (receive_bytes metrics) last)) /\
     (0 < interval_sec ->
      0 <= Z.quot Ms interval_sec <= Ms /\ 0 <= Z.quot Mr interval_sec <= Mr)).
Proof.
  split; [done|]. intros Hint.
  destruct (get_max_net_traffic_fold self lst_send_map lst_rcv_map
              interval_sec Hint) as (Ms & Mr & Hs & Hr & Hrun).
  apply largest_increment_since in Hs, Hr.
  exists Ms, Mr. split; [done|]. split; [done|]. split; [done|].
  intros Hpos. destruct Hs as [Hs _], Hr as [Hr _].
  split; (split; [apply Z.quot_pos; lia|]);
    rewrite Z.quot_div_nonneg by lia;
    (apply Z.div_le_upper_bound; [lia|]); nia.
Qed.

Lemma get_max_net_traffic_largest_growth_witness :
  2 ≠ 0 /\
  ∃ Ms Mr,
    get_max_net_traffic host_metrics {[ "eth0" := 0 ]} {[ "eth1" := 0 ]} 2
    = Some (Z.quot Ms 2, Z.quot Mr 2) /\ 0 <= Ms /\ 0 <= Mr.
Proof.
  split; [lia|].
  destruct (proj2 (get_max_net_traffic_largest_growth host_metrics
                     {[ "eth0" := 0 ]} {[ "eth1" := 0 ]} 2))
    as (Ms & Mr & Hrun & [Hs _] & [Hr _] & _); [lia|].
  exists Ms, Mr. exact (conj Hrun (conj Hs Hr)).
Defined.

(** X19.  Rates measured against the maps that [get_network_traffic] filled
    earlier never count the loopback interface: each rate is the largest
    growth over the interfaces other than [lo] that existed at both times,
    however much traffic [lo] carried in between. *)
Theorem get_max_net_traffic_ignores_loopback earlier self send_map rcv_map
    interval_sec :
  interval_sec ≠ 0 ->
  let maps := get_network_traffic earlier send_map rcv_map in
  ∃ Ms Mr,
    get_max_net_traffic self maps.1 maps.2 interval_sec
    = Some (Z.quot Ms interval_sec, Z.quot Mr interval_sec) /\
    0 <= Ms /\ 0 <= Mr /\
    (∀ interface now before,
       interface ≠ "lo" ->
       _net_metrics self !! interface = Some now ->
       _net_metrics earlier !! interface = Some before ->
       sub64 (send_bytes now) (send_bytes before) <= Ms /\
       sub64 (receive_bytes now) (receive_bytes before) <= Mr) /\
    (Ms = 0 \/
     ∃ interface now before,
       interface ≠ "lo" /\
       _net_metrics self !! interface = Some now /\
       _net_metrics earlier !! interface = Some before /\
       Ms = sub64 (send_bytes now) (send_bytes before)) /\
    (Mr = 0 \/
     ∃ interface now before,
       interface ≠ "lo" /\
       _net_metrics self !! interface = Some now /\
       _net_metrics earlier !! interface = Some before /\
       Mr = sub64 (receive_bytes now) (receive_bytes before)).
Proof.
  intros Hint maps.
  destruct (get_max_net_traffic_fold self maps.1 maps.2 interval_sec Hint)
    as (Ms & Mr & Hs & Hr & Hrun).
  apply largest_increment_since in Hs, Hr.
  destruct Hs as (Hs0 & Hsall & Hsex), Hr as (Hr0 & Hrall & Hrex).
  assert (Hlook := get_network_traffic_lookup earlier send_map rcv_map).
  fold maps in Hlook.
  exists Ms, Mr. split; [done|]. split; [done|]. split; [done|].
  split; [|split].
  - intros interface now before Hne Hnow Hbefore.
    destruct (Hlook interface) as [H1 H2].
    destruct (decide (interface = "lo")); [done|].
    rewrite Hbefore in H1, H2. simpl in H1, H2.
    split; [by eapply Hsall | by eapply Hrall].
  - destruct Hsex as [->|(k & v & old & Hk & Hl & ->)]; [by left|]. right.
    rewrite (proj1 (Hlook k)) in Hl.
    destruct (decide (k = "lo")); [done|].
    destruct (_net_metrics earlier !! k) as [before|] eqn:Hb; [|done].
    injection Hl as <-. by exists k, v, before.
  - destruct Hrex as [->|(k & v & old & Hk & Hl & ->)]; [by left|]. right.
    rewrite (proj2 (Hlook k)) in Hl.
    destruct (decide (k = "lo")); [done|].
    destruct (_net_metrics earlier !! k) as [before|] eqn:Hb; [|done].
    injection Hl as <-. by exists k, v, before.
Qed.

Lemma get_max_net_traffic_ignores_loopback_witness :
  1 ≠ 0 /\
  ∃ Ms Mr,
    get_max_net_traffic host_metrics
      (get_network_traffic quiet_host ∅ ∅).1
      (get_network_traffic quiet_host ∅ ∅).2 1
    = Some (Z.quot Ms 1, Z.quot Mr 1) /\ 0 <= Ms /\ 0 <= Mr.
Proof.
  split; [lia|].
  destruct (get_max_net_traffic_ignores_loopback quiet_host host_metrics ∅ ∅ 1)
    as (Ms & Mr & Hrun & Hs & Hr & _); [lia|].
  exists Ms, Mr. exact (conj Hrun (conj Hs Hr)).
Defined.
